(** * Mindmap-2-Doc: document tree, history, flow and mesh projections

    A shallow embedding of the data-transforming core of the application:
    the node resolver and outline numbering, the dependency engine, the
    mutation pipeline with its bounded history, the decision auto-linker,
    and the two graph-to-tree projectors; and, around these, the handlers
    that feed them: search reveal, visibility toggle, node deletion and
    addition, session import, step editing in the process modal, the
    swimlane links, and the editing, flattening and adjacency matrix of
    the mesh.

    Conventions.
    - JavaScript strings are [string]; [===] on strings is decided with
      [decide].  Truthiness of a string is "non-empty".
    - An optional property is an [option]; [None] is an absent property.
    - [Set<string>] is [gset string], [Map<string, V>] is [gmap string V].
    - Numbers that the code uses as sequence numbers, indices and clock
      readings are integers ([Z]) or naturals ([nat]). *)

From stdpp Require Import base decidable option list strings gmap pretty.
From Stdlib Require Import ZArith Lia.

Set Warnings "-register-all,-clear-no-such-hyp".

Open Scope string_scope.
Open Scope list_scope.

(** ** JavaScript values *)

Module JS.

(** [!!s] for a string: the empty string is falsy. *)
Definition truthy_string (s : string) : bool :=
  if decide (s = "") then false else true.

(** [!!o] for an optional string property. *)
Definition truthy_ostring (o : option string) : bool :=
  match o with
  | Some s => truthy_string s
  | None => false
  end.

(** [!!b] for an optional boolean property. *)
Definition truthy_obool (o : option bool) : bool :=
  match o with
  | Some b => b
  | None => false
  end.

(** [a.includes(x)] on an array of strings. *)
Definition includes (x : string) (l : list string) : bool :=
  bool_decide (x ∈ l).

(** [Array.prototype.slice(0, e)]: a negative [e] counts from the end. *)
Definition slice0 {A} (l : list A) (e : Z) : list A :=
  let len := Z.of_nat (length l) in
  let stop := if (e <? 0)%Z then Z.max (len + e) 0 else Z.min e len in
  take (Z.to_nat stop) l.

(** [arr[i]] for a numeric index. *)
Definition at_index {A} (l : list A) (i : Z) : option A :=
  if (i <? 0)%Z then None else l !! Z.to_nat i.

(** [s.toLowerCase()] on the ASCII letters. *)
Definition lower_ascii (c : Ascii.ascii) : Ascii.ascii :=
  let n := Ascii.nat_of_ascii c in
  if (65 <=? n)%nat && (n <=? 90)%nat then Ascii.ascii_of_nat (n + 32) else c.

Fixpoint toLowerCase (s : string) : string :=
  match s with
  | EmptyString => EmptyString
  | String c r => String (lower_ascii c) (toLowerCase r)
  end.

(** [s.startsWith(p)]. *)
Fixpoint startsWith (p s : string) : bool :=
  match p, s with
  | EmptyString, _ => true
  | String a p', String b s' => if decide (a = b) then startsWith p' s' else false
  | String _ _, EmptyString => false
  end.

(** [s.includes(k)]: [k] occurs somewhere in [s]. *)
Fixpoint str_includes (k s : string) : bool :=
  startsWith k s ||
  match s with
  | EmptyString => false
  | String _ r => str_includes k r
  end.

End JS.

(** ** Process steps *)

(** Modelled from the spec: the declarations of [ProcessStep] and
    [ProcessBranch] (types.ts) are not among the sources.  The fields
    are those of the data model (id, sequence number, type, title,
    description, role, end-state flag, branches with a label and an
    optional target step id) under the names by which the code reads
    them; [isEndState] and [branches] are optional properties. *)
Inductive StepType := action | decision.

#[global] Instance StepType_eq_dec : EqDecision StepType.
Proof. solve_decision. Defined.

Record ProcessBranch := mkBranch {
  branch_id : string;
  branch_label : string;
  targetStepId : option string
}.

Record ProcessStep := mkStep {
  step_id : string;
  stepNumber : Z;
  step_type : StepType;
  step_action : string;
  step_description : string;
  step_role : string;
  isEndState : option bool;
  branches : option (list ProcessBranch)
}.

#[global] Instance ProcessBranch_eq_dec : EqDecision ProcessBranch.
Proof. solve_decision. Defined.

#[global] Instance ProcessStep_eq_dec : EqDecision ProcessStep.
Proof. solve_decision. Defined.

(** ** The document tree *)

(** Modelled from the spec: the declaration of [MindMapData] (types.ts)
    is not among the sources.  The fields are those of the data model's
    Node (identifier, label, description, type and nature tags, child
    list, cached details and process with their locks, collapsed flag,
    watched ids, review flag and flag sources, provenance) under the
    names by which the code reads them, with [linkLabel], which the mesh
    projector sets on the nodes it builds. *)
Inductive NodeType := nt_process | nt_info.
Inductive Nature := fact | opinion.
Inductive Provenance := src_ai | src_user.

Inductive MindMapData := mkNode {
  id : string;
  label : string;
  description : string;
  nodeType : NodeType;
  nature : Nature;
  source : option Provenance;
  cachedDetails : option string;
  cachedProcess : option (list ProcessStep);
  detailsLocked : option bool;
  processLocked : option bool;
  collapsed : option bool;
  watchedNodeIds : option (list string);
  isFlaggedForReview : option bool;
  flaggedSourceIds : option (list string);
  linkLabel : option string;
  children : option (list MindMapData)
}.

(** The child array of a node, an absent property read as no children. *)
Definition kids (n : MindMapData) : list MindMapData :=
  default [] (children n).

(** All nodes of a tree, in depth-first pre-order. *)
Fixpoint nodes (n : MindMapData) : list MindMapData :=
  n :: match children n with
       | Some cs => flat_map nodes cs
       | None => []
       end.

Definition node_ids (n : MindMapData) : list string := id <$> nodes n.

(** *** Node identity and path resolver *)

Record FindResult := mkFound {
  found_node : MindMapData;
  found_path : list string;
  found_parent : option MindMapData
}.

(** The [for (const child of root.children)] loop of [findNodeAndPath];
    [self] is the recursive call on a child. *)
Fixpoint find_loop (self : MindMapData -> option FindResult)
    (root : MindMapData) (targetId : string) (currentPath : list string)
    (l : list MindMapData) : option FindResult :=
  match l with
  | [] => None
  | child :: rest =>
      if decide (id child = targetId)
      then Some (mkFound child (currentPath ++ [label root; label child])
                   (Some root))
      else match self child with
           | Some result => Some result
           | None => find_loop self root targetId currentPath rest
           end
  end.

Fixpoint findNodeAndPath (root : MindMapData) (targetId : string)
    (currentPath : list string) : option FindResult :=
  if decide (id root = targetId)
  then Some (mkFound root (currentPath ++ [label root]) None)
  else match children root with
       | Some cs =>
           find_loop
             (fun child =>
                findNodeAndPath child targetId (currentPath ++ [label root]))
             root targetId currentPath cs
       | None => None
       end.

(** *** Hierarchical numbering *)

(** The template literal [`${p}.${i + 1}`] with [p] the parent's number,
    the root's "1.0" read as "1". *)
Definition childNumber (currentNumber : string) (i : nat) : string :=
  (if decide (currentNumber = "1.0") then "1" else currentNumber)
    +:+ "." +:+ pretty (i + 1)%nat.

(** The [for (let i = 0; ...)] loop of [calculateNodeNumber], entered at
    index [i] with [l] the children from [i] on. *)
Fixpoint number_loop (self : MindMapData -> string -> option string)
    (currentNumber : string) (l : list MindMapData) (i : nat) : option string :=
  match l with
  | [] => None
  | child :: rest =>
      match self child (childNumber currentNumber i) with
      | Some result =>
          if JS.truthy_string result then Some result
          else number_loop self currentNumber rest (S i)
      | None => number_loop self currentNumber rest (S i)
      end
  end.

Fixpoint calculateNodeNumber (root : MindMapData) (targetId : string)
    (currentNumber : string) : option string :=
  if decide (id root = targetId) then Some currentNumber
  else match children root with
       | Some cs =>
           number_loop (fun child num => calculateNodeNumber child targetId num)
             currentNumber cs 0%nat
       | None => None
       end.

(** The call with the default third argument. *)
Definition nodeNumber (root : MindMapData) (targetId : string) : option string :=
  calculateNodeNumber root targetId "1.0".

(** *** Dependency propagation engine *)

(** [node.flaggedSourceIds || []]. *)
Definition flagsOf (n : MindMapData) : list string :=
  default [] (flaggedSourceIds n).

(** [newNode.watchedNodeIds?.includes(changedNodeId)]. *)
Definition watches (changedNodeId : string) (node : MindMapData) : bool :=
  match watchedNodeIds node with
  | Some ws => JS.includes changedNodeId ws
  | None => false
  end.

(** The shallow copy [{ ...node }] followed by the flagging block of
    [traverse]: only [isFlaggedForReview] and [flaggedSourceIds] are
    assigned, and only when the node watches the changed id. *)
Definition flagIfWatching (changedNodeId : string) (node : MindMapData)
    : MindMapData :=
  let watching := watches changedNodeId node in
  let currentFlags := flagsOf node in
  mkNode (id node) (label node) (description node) (nodeType node)
    (nature node) (source node) (cachedDetails node) (cachedProcess node)
    (detailsLocked node) (processLocked node) (collapsed node)
    (watchedNodeIds node)
    (if watching then Some true else isFlaggedForReview node)
    (if watching && negb (JS.includes changedNodeId currentFlags)
     then Some (currentFlags ++ [changedNodeId])
     else flaggedSourceIds node)
    (linkLabel node)
    (children node).

(** The assignment [node.children = cs]. *)
Definition set_children (node : MindMapData)
    (cs : option (list MindMapData)) : MindMapData :=
  mkNode (id node) (label node) (description node) (nodeType node)
    (nature node) (source node) (cachedDetails node) (cachedProcess node)
    (detailsLocked node) (processLocked node) (collapsed node)
    (watchedNodeIds node) (isFlaggedForReview node) (flaggedSourceIds node)
    (linkLabel node) cs.

(** The inner [traverse] of [checkDependencies]. *)
Fixpoint traverse (changedNodeId : string) (node : MindMapData) : MindMapData :=
  let newNode := flagIfWatching changedNodeId node in
  match children newNode with
  | Some cs => set_children newNode (Some (map (traverse changedNodeId) cs))
  | None => newNode
  end.

Definition checkDependencies (root : MindMapData) (changedNodeId : string)
    : MindMapData :=
  traverse changedNodeId root.

(** *** History manager and mutation pipeline *)

Record HistoryEntry := mkEntry {
  entry_data : MindMapData;
  entry_description : string;
  timestamp : Z
}.

(** The slice of the component state that the pipeline reads and writes. *)
Record AppState := mkApp {
  mindMap : option MindMapData;
  history : list HistoryEntry;
  historyIndex : Z;
  unsavedChanges : bool;
  autoSave : bool;
  isDevMode : bool
}.

(** What a handler does besides updating the state, in call order. *)
Inductive Effect :=
  | LoggerInfo (message : string)
  | RanCheckDependencies (changedNodeId : string)
  | CalledUpdateFn (nodeId : string)
  | SavedSessionFile (data : MindMapData).

Definition initialState : AppState := mkApp None [] (-1) false false false.

Definition HISTORY_LIMIT : nat := 10.

(** [if (newHistory.length > 10) newHistory.shift()]. *)
Definition evictOldest (newHistory : list HistoryEntry) : list HistoryEntry :=
  if (HISTORY_LIMIT <? length newHistory)%nat then drop 1 newHistory
  else newHistory.

(** [commitToHistory], together with the effect that re-points
    [historyIndex] at the last entry once [history] has changed.  [now] is
    the reading of [Date.now()]. *)
Definition commitToHistory (st : AppState) (newData : MindMapData)
    (description : string) (now : Z) : AppState * list Effect :=
  let currentHistory := JS.slice0 (history st) (historyIndex st + 1) in
  let newHistory :=
    evictOldest (currentHistory ++ [mkEntry newData description now]) in
  (mkApp (Some newData) newHistory (Z.of_nat (length newHistory) - 1) true
     (autoSave st) (isDevMode st),
   [LoggerInfo "Committed State to History"]).

Definition restoreFromHistory (st : AppState) (index : Z)
    : AppState * list Effect :=
  if (0 <=? index)%Z && (index <? Z.of_nat (length (history st)))%Z then
    match JS.at_index (history st) index with
    | Some e =>
        (mkApp (Some (entry_data e)) (history st) index (unsavedChanges st)
           (autoSave st) (isDevMode st),
         [LoggerInfo "Restored State from History"])
    | None => (st, [])
    end
  else (st, []).

(** The undo and redo buttons: disabled at the ends of the stack, otherwise
    a restore of the neighbouring index. *)
Definition undo (st : AppState) : AppState * list Effect :=
  if (historyIndex st <=? 0)%Z then (st, [])
  else restoreFromHistory st (historyIndex st - 1).

Definition redo (st : AppState) : AppState * list Effect :=
  if (Z.of_nat (length (history st)) - 1 <=? historyIndex st)%Z then (st, [])
  else restoreFromHistory st (historyIndex st + 1).

Definition saveSessionFile (st : AppState) (data : MindMapData)
    : AppState * list Effect :=
  (mkApp (mindMap st) (history st) (historyIndex st) false
     (autoSave st) (isDevMode st),
   [SavedSessionFile data; LoggerInfo "Session Saved"]).

(** Session-level writers of the history: [handleGenerate] starts the
    stack with the one entry of the generated map (the tutorial and the
    import handlers write the same one-entry stack); closing the map
    empties it. *)
Definition startSession (st : AppState) (data : MindMapData)
    (description : string) (now : Z) : AppState * list Effect :=
  (mkApp (Some data) [mkEntry data description now] 0 true
     (autoSave st) (isDevMode st), []).

Definition closeMap (st : AppState) : AppState * list Effect :=
  (mkApp None [] (-1) (unsavedChanges st) (autoSave st) (isDevMode st),
   [LoggerInfo "Map Closed"]).

(** One transition of the history manager: the writers of the stack and
    the index.  The handlers that write other parts of the state and
    leave the stack alone (search reveal, save, the settings) are added
    to these in [AppStep] further down; what is said of the live
    document is said there. *)
Inductive HistoryStep : AppState -> AppState -> Prop :=
  | step_commit st data description now :
      HistoryStep st (commitToHistory st data description now).1
  | step_restore st index :
      HistoryStep st (restoreFromHistory st index).1
  | step_undo st : HistoryStep st (undo st).1
  | step_redo st : HistoryStep st (redo st).1
  | step_start st data description now :
      HistoryStep st (startSession st data description now).1
  | step_close st : HistoryStep st (closeMap st).1.

(** The states that the transitions of the history manager produce. *)
Inductive Reachable : AppState -> Prop :=
  | reach_init : Reachable initialState
  | reach_step st st' : Reachable st -> HistoryStep st st' -> Reachable st'.

(** A run of commits, oldest first. *)
Definition commitAll (st : AppState)
    (cs : list (MindMapData * string * Z)) : AppState :=
  foldl (fun st c => (commitToHistory st c.1.1 c.1.2 c.2).1) st cs.

Definition asEntry (c : MindMapData * string * Z) : HistoryEntry :=
  mkEntry c.1.1 c.1.2 c.2.

(** [JSON.parse(JSON.stringify(x))]: an independent copy with the same
    content. *)
Definition deepClone (x : MindMapData) : MindMapData := x.

(** An own property of an object literal: [None] when the object has no
    such property, [Some v] when it has one, [v] being [None] when the
    property's value is [undefined]. *)
Definition OwnProp (A : Type) : Type := option (option A).

(** The object that an update function returns, property by property.
    The required properties are always there; an optional one is an own
    property of the object or not, and an own property may hold
    [undefined]. *)
Record NodeUpdate := mkUpdate {
  u_id : string;
  u_label : string;
  u_description : string;
  u_nodeType : NodeType;
  u_nature : Nature;
  u_source : OwnProp Provenance;
  u_cachedDetails : OwnProp string;
  u_cachedProcess : OwnProp (list ProcessStep);
  u_detailsLocked : OwnProp bool;
  u_processLocked : OwnProp bool;
  u_collapsed : OwnProp bool;
  u_watchedNodeIds : OwnProp (list string);
  u_isFlaggedForReview : OwnProp bool;
  u_flaggedSourceIds : OwnProp (list string);
  u_linkLabel : OwnProp string;
  u_children : OwnProp (list MindMapData)
}.

(** [{ ...n }]: the own properties of a node.  The node is one of a
    document that came out of [JSON.parse], so none of its properties
    holds [undefined]. *)
Definition spread (n : MindMapData) : NodeUpdate :=
  mkUpdate (id n) (label n) (description n) (nodeType n) (nature n)
    (Some <$> source n) (Some <$> cachedDetails n)
    (Some <$> cachedProcess n) (Some <$> detailsLocked n)
    (Some <$> processLocked n) (Some <$> collapsed n)
    (Some <$> watchedNodeIds n) (Some <$> isFlaggedForReview n)
    (Some <$> flaggedSourceIds n) (Some <$> linkLabel n)
    (Some <$> children n).

(** [{ ...u, label: l }] and the like: one more own property, which
    replaces the one of that name. *)
Definition with_label (u : NodeUpdate) (l : string) : NodeUpdate :=
  mkUpdate (u_id u) l (u_description u) (u_nodeType u) (u_nature u)
    (u_source u) (u_cachedDetails u) (u_cachedProcess u) (u_detailsLocked u)
    (u_processLocked u) (u_collapsed u) (u_watchedNodeIds u)
    (u_isFlaggedForReview u) (u_flaggedSourceIds u) (u_linkLabel u)
    (u_children u).

Definition with_cachedDetails (u : NodeUpdate) (v : option string)
    : NodeUpdate :=
  mkUpdate (u_id u) (u_label u) (u_description u) (u_nodeType u) (u_nature u)
    (u_source u) (Some v) (u_cachedProcess u) (u_detailsLocked u)
    (u_processLocked u) (u_collapsed u) (u_watchedNodeIds u)
    (u_isFlaggedForReview u) (u_flaggedSourceIds u) (u_linkLabel u)
    (u_children u).

Definition with_cachedProcess (u : NodeUpdate)
    (v : option (list ProcessStep)) : NodeUpdate :=
  mkUpdate (u_id u) (u_label u) (u_description u) (u_nodeType u) (u_nature u)
    (u_source u) (u_cachedDetails u) (Some v) (u_detailsLocked u)
    (u_processLocked u) (u_collapsed u) (u_watchedNodeIds u)
    (u_isFlaggedForReview u) (u_flaggedSourceIds u) (u_linkLabel u)
    (u_children u).

Definition with_detailsLocked (u : NodeUpdate) (v : option bool)
    : NodeUpdate :=
  mkUpdate (u_id u) (u_label u) (u_description u) (u_nodeType u) (u_nature u)
    (u_source u) (u_cachedDetails u) (u_cachedProcess u) (Some v)
    (u_processLocked u) (u_collapsed u) (u_watchedNodeIds u)
    (u_isFlaggedForReview u) (u_flaggedSourceIds u) (u_linkLabel u)
    (u_children u).

Definition with_processLocked (u : NodeUpdate) (v : option bool)
    : NodeUpdate :=
  mkUpdate (u_id u) (u_label u) (u_description u) (u_nodeType u) (u_nature u)
    (u_source u) (u_cachedDetails u) (u_cachedProcess u) (u_detailsLocked u)
    (Some v) (u_collapsed u) (u_watchedNodeIds u)
    (u_isFlaggedForReview u) (u_flaggedSourceIds u) (u_linkLabel u)
    (u_children u).

Definition with_collapsed (u : NodeUpdate) (v : option bool) : NodeUpdate :=
  mkUpdate (u_id u) (u_label u) (u_description u) (u_nodeType u) (u_nature u)
    (u_source u) (u_cachedDetails u) (u_cachedProcess u) (u_detailsLocked u)
    (u_processLocked u) (Some v) (u_watchedNodeIds u)
    (u_isFlaggedForReview u) (u_flaggedSourceIds u) (u_linkLabel u)
    (u_children u).

Definition with_children (u : NodeUpdate) (v : option (list MindMapData))
    : NodeUpdate :=
  mkUpdate (u_id u) (u_label u) (u_description u) (u_nodeType u) (u_nature u)
    (u_source u) (u_cachedDetails u) (u_cachedProcess u) (u_detailsLocked u)
    (u_processLocked u) (u_collapsed u) (u_watchedNodeIds u)
    (u_isFlaggedForReview u) (u_flaggedSourceIds u) (u_linkLabel u)
    (Some v).

(** What [Object.assign] leaves in a property of the target: the value
    the update holds when the update has the property, also when that
    value is [undefined]; the target's own value otherwise. *)
Definition assignProp {A} (new : OwnProp A) (old : option A) : option A :=
  match new with
  | Some v => v
  | None => old
  end.

(** [Object.assign(target, update)]. *)
Definition objectAssign (target : MindMapData) (update : NodeUpdate)
    : MindMapData :=
  mkNode (u_id update) (u_label update) (u_description update)
    (u_nodeType update) (u_nature update)
    (assignProp (u_source update) (source target))
    (assignProp (u_cachedDetails update) (cachedDetails target))
    (assignProp (u_cachedProcess update) (cachedProcess target))
    (assignProp (u_detailsLocked update) (detailsLocked target))
    (assignProp (u_processLocked update) (processLocked target))
    (assignProp (u_collapsed update) (collapsed target))
    (assignProp (u_watchedNodeIds update) (watchedNodeIds target))
    (assignProp (u_isFlaggedForReview update) (isFlaggedForReview target))
    (assignProp (u_flaggedSourceIds update) (flaggedSourceIds target))
    (assignProp (u_linkLabel update) (linkLabel target))
    (assignProp (u_children update) (children target)).

(** Whether [findNodeAndPath] resolves [targetId] below [root]. *)
Definition resolves (root : MindMapData) (targetId : string) : bool :=
  match findNodeAndPath root targetId [] with
  | Some _ => true
  | None => false
  end.

(** Writing through the reference that [findNodeAndPath] returned: the
    node it resolved to, the first hit of its search, is replaced by
    [f node] inside the tree it belongs to. *)
Fixpoint assign_loop (self : MindMapData -> MindMapData)
    (f : MindMapData -> MindMapData) (targetId : string)
    (l : list MindMapData) : list MindMapData :=
  match l with
  | [] => []
  | child :: rest =>
      if decide (id child = targetId) then f child :: rest
      else if resolves child targetId then self child :: rest
      else child :: assign_loop self f targetId rest
  end.

Fixpoint assignAt (f : MindMapData -> MindMapData) (root : MindMapData)
    (targetId : string) : MindMapData :=
  if decide (id root = targetId) then f root
  else match children root with
       | Some cs =>
           set_children root
             (Some (assign_loop (fun child => assignAt f child targetId)
                      f targetId cs))
       | None => root
       end.

Definition app_bind (r : AppState * list Effect)
    (k : AppState -> AppState * list Effect) : AppState * list Effect :=
  let '(st, effs) := r in
  let '(st', effs') := k st in
  (st', effs ++ effs').

(** [updateNodeInTree]. *)
Definition updateNodeInTree (st : AppState) (nodeId : string)
    (updateFn : MindMapData -> NodeUpdate) (actionDescription : string)
    (shouldAutoSave triggerDependencyCheck : bool) (now : Z)
    : AppState * list Effect :=
  match mindMap st with
  | None => (st, [])
  | Some current =>
      let clone := deepClone current in
      match findNodeAndPath clone nodeId [] with
      | Some target =>
          let clone1 :=
            assignAt (fun node => objectAssign node (updateFn node))
              clone nodeId in
          let '(clone2, effs1) :=
            if triggerDependencyCheck
            then (checkDependencies clone1 nodeId,
                  [CalledUpdateFn nodeId; RanCheckDependencies nodeId])
            else (clone1, [CalledUpdateFn nodeId]) in
          app_bind
            (app_bind (st, effs1)
               (fun st => commitToHistory st clone2 actionDescription now))
            (fun st =>
               if shouldAutoSave && (autoSave st || isDevMode st)
               then saveSessionFile st clone2
               else (st, []))
      | None => (st, [])
      end
  end.

(** ** Decision auto-linker *)

Definition positiveKeywords : list string :=
  ["yes"; "success"; "pass"; "ok"; "true"; "confirmed"; "valid"].

(** [Array.prototype.findIndex], -1 when nothing satisfies [p]. *)
Fixpoint findIndex_from {A} (p : A -> bool) (l : list A) (i : Z) : Z :=
  match l with
  | [] => (-1)%Z
  | x :: r => if p x then i else findIndex_from p r (i + 1)%Z
  end.

Definition findIndex {A} (p : A -> bool) (l : list A) : Z :=
  findIndex_from p l 0%Z.

(** [positiveKeywords.some(k => b.label.toLowerCase().includes(k))]. *)
Definition looksPositive (b : ProcessBranch) : bool :=
  existsb (fun k => JS.str_includes k (JS.toLowerCase (branch_label b)))
    positiveKeywords.

(** [{ ...b, targetStepId: t }]. *)
Definition withTarget (b : ProcessBranch) (t : string) : ProcessBranch :=
  mkBranch (branch_id b) (branch_label b) (Some t).

(** [{ ...step, branches: bs }]. *)
Definition withBranches (step : ProcessStep) (bs : list ProcessBranch)
    : ProcessStep :=
  mkStep (step_id step) (stepNumber step) (step_type step) (step_action step)
    (step_description step) (step_role step) (isEndState step) (Some bs).

(** [step.branches.some(b => !!b.targetStepId)]. *)
Definition hasLink (bs : list ProcessBranch) : bool :=
  existsb (fun b => JS.truthy_ostring (targetStepId b)) bs.

Definition targetIndex (bs : list ProcessBranch) : Z :=
  let bestBranchIndex := findIndex looksPositive bs in
  if decide (bestBranchIndex <> (-1)%Z) then bestBranchIndex else 0%Z.

(** The branch array with the entry at [targetIndex] re-targeted.  The
    index is within the array whenever the array is not empty, which the
    caller has checked. *)
Definition linkBranch (bs : list ProcessBranch) (nextId : string)
    : list ProcessBranch :=
  let i := Z.to_nat (targetIndex bs) in
  match bs !! i with
  | Some b => <[i := withTarget b nextId]> bs
  | None => bs
  end.

(** The callback of [steps.map((step, index) => ...)]. *)
Definition autoLinkStep (steps : list ProcessStep) (index : nat)
    (step : ProcessStep) : ProcessStep :=
  match step_type step, branches step with
  | decision, Some bs =>
      if (0 <? length bs)%nat then
        match steps !! (index + 1)%nat with
        | Some nextStep =>
            if negb (hasLink bs)
            then withBranches step (linkBranch bs (step_id nextStep))
            else step
        | None => step
        end
      else step
  | _, _ => step
  end.

Definition autoLinkDecisions (steps : list ProcessStep) : list ProcessStep :=
  imap (autoLinkStep steps) steps.

(** *** The linker's contract, in the words of its description *)

(** The label, read without regard to case, contains a positive keyword. *)
Definition containsKeyword (lbl : string) : Prop :=
  exists k pre post,
    k ∈ positiveKeywords /\ JS.toLowerCase lbl = pre +:+ k +:+ post.

(** The branch has a target: a non-empty step id. *)
Definition hasTarget (b : ProcessBranch) : Prop :=
  exists t, targetStepId b = Some t /\ t <> "".

(** The step at position [i] is one the linker acts on: a decision with
    at least one branch, no branch with a target, and a step after it. *)
Definition Eligible (steps : list ProcessStep) (i : nat)
    (step : ProcessStep) : Prop :=
  step_type step = decision
  /\ exists bs, branches step = Some bs
       /\ bs <> []
       /\ (forall b, b ∈ bs -> ~ hasTarget b)
       /\ is_Some (steps !! S i).

(** [j] is the position of the first branch with a positive label, or 0
    when no branch has one. *)
Definition ChosenBranch (bs : list ProcessBranch) (j : nat) : Prop :=
  (exists b, bs !! j = Some b
     /\ containsKeyword (branch_label b)
     /\ forall j' b', (j' < j)%nat -> bs !! j' = Some b' ->
          ~ containsKeyword (branch_label b'))
  \/ (j = 0%nat /\ forall b, b ∈ bs -> ~ containsKeyword (branch_label b)).

(** A decision step with unresolved branches labelled [l1] and [l2]. *)
Definition twoWayDecision (i : string) (n : Z) (l1 l2 : string) : ProcessStep :=
  mkStep i n decision "Check" "" "User" None
    (Some [mkBranch (i +:+ "-1") l1 None; mkBranch (i +:+ "-2") l2 None]).


(** ** Process flow projector *)

Inductive DisplayType := dt_step | dt_placeholder.

(** The [data] payload of a display node: a step, or the bare
    [{ action }] object of a placeholder. *)
Inductive DisplayData :=
  | StepData (step : ProcessStep)
  | ActionData (action_text : string).

Inductive DisplayNode := mkDisplay {
  dn_id : string;
  dn_data : DisplayData;
  dn_children : list DisplayNode;
  dn_type : DisplayType;
  dn_label : option string
}.

(** [childNode.label = l]. *)
Definition setLabel (n : DisplayNode) (l : string) : DisplayNode :=
  mkDisplay (dn_id n) (dn_data n) (dn_children n) (dn_type n) (Some l).

(** [{ ...step, action: a, role: r }]. *)
Definition withActionRole (step : ProcessStep) (a r : string) : ProcessStep :=
  mkStep (step_id step) (stepNumber step) (step_type step) a
    (step_description step) r (isEndState step) (branches step).

Definition loopAction (step : ProcessStep) : string :=
  "↩ Loop to Step " +:+ pretty (stepNumber step).

(** The terminal node returned when [visited.has(step.id)]; [suffix] is
    [Math.random().toString(36).substr(2, 9)]. *)
Definition loopNode (step : ProcessStep) (suffix : string) : DisplayNode :=
  mkDisplay ("loop-" +:+ step_id step +:+ "-" +:+ suffix)
    (StepData (withActionRole step (loopAction step) "Process Cycle"))
    [] dt_step None.

Definition missingNode (b : ProcessBranch) : DisplayNode :=
  mkDisplay ("missing-" +:+ branch_id b) (ActionData "Undefined Path")
    [] dt_placeholder (Some (branch_label b)).

(** [steps.forEach(s => idMap.set(s.id, s))]. *)
Definition buildIdMap (steps : list ProcessStep) : gmap string ProcessStep :=
  foldl (fun m s => <[step_id s := s]> m) ∅ steps.

(** [steps.find(s => s.stepNumber === n)]. *)
Definition findByNumber (steps : list ProcessStep) (n : Z)
    : option ProcessStep :=
  List.find (fun s => bool_decide (stepNumber s = n)) steps.

(** [steps.reduce((prev, curr) => prev.stepNumber < curr.stepNumber ? prev : curr)]
    on a non-empty array. *)
Definition firstStep (s0 : ProcessStep) (rest : list ProcessStep)
    : ProcessStep :=
  foldl (fun prev curr =>
           if (stepNumber prev <? stepNumber curr)%Z then prev else curr)
    s0 rest.

Section FlowProjector.

(** The successive results of [Math.random().toString(36).substr(2, 9)];
    the builder threads the number of draws made so far. *)
Variable randomSuffix : nat -> string.

Variable steps : list ProcessStep.
Variable idMap : gmap string ProcessStep.

(** The [step.branches.forEach] loop; [self] is the recursive call with
    the extended visited-set. *)
Fixpoint branch_loop (self : ProcessStep -> nat -> option (DisplayNode * nat))
    (bs : list ProcessBranch) (k : nat) : option (list DisplayNode * nat) :=
  match bs with
  | [] => Some ([], k)
  | b :: rest =>
      if JS.truthy_ostring (targetStepId b) then
        match idMap !! default "" (targetStepId b) with
        | Some targetStep =>
            '(childNode, k1) ← self targetStep k;
            '(more, k2) ← branch_loop self rest k1;
            Some (setLabel childNode (branch_label b) :: more, k2)
        | None => branch_loop self rest k
        end
      else
        '(more, k1) ← branch_loop self rest k;
        Some (missingNode b :: more, k1)
  end.

(** [buildTree].  [fuel] bounds the depth of the recursion; [None] is
    returned only when it runs out. *)
Fixpoint buildTree (fuel : nat) (step : ProcessStep) (visited : gset string)
    (k : nat) : option (DisplayNode * nat) :=
  match fuel with
  | O => None
  | S fuel' =>
      if decide (step_id step ∈ visited)
      then Some (loopNode step (randomSuffix k), S k)
      else
        let newVisited := visited ∪ {[step_id step]} in
        let node cs := mkDisplay (step_id step) (StepData step) cs dt_step None in
        match step_type step, branches step with
        | decision, Some bs =>
            '(cs, k1) ← branch_loop
                          (fun target => buildTree fuel' target newVisited) bs k;
            Some (node cs, k1)
        | _, _ =>
            if negb (JS.truthy_obool (isEndState step)) then
              match findByNumber steps (stepNumber step + 1) with
              | Some next =>
                  '(child, k1) ← buildTree fuel' next newVisited k;
                  Some (node [child], k1)
              | None => Some (node [], k)
              end
            else Some (node [], k)
        end
  end.

End FlowProjector.

(** The outcome of the projection inside the chart's [useMemo]. *)
Inductive FlowRoot :=
  | RootNull
  | RootTree (treeData : DisplayNode)
  | FuelExhausted.

Definition processFlowTree (randomSuffix : nat -> string)
    (steps : list ProcessStep) : FlowRoot :=
  match steps with
  | [] => RootNull
  | s0 :: rest =>
      match buildTree randomSuffix steps (buildIdMap steps)
              (S (length steps)) (firstStep s0 rest) ∅ 0 with
      | Some (treeData, _) => RootTree treeData
      | None => FuelExhausted
      end
  end.

(** All nodes of a display tree, in pre-order. *)
Fixpoint displayNodes (n : DisplayNode) : list DisplayNode :=
  n :: flat_map displayNodes (dn_children n).

(** A synthetic loop node: its id carries the "loop-" prefix and its data
    is a step whose role is the cycle marker. *)
Definition isLoopNode (n : DisplayNode) : bool :=
  JS.startsWith "loop-" (dn_id n) &&
  match dn_data n with
  | StepData s => bool_decide (step_role s = "Process Cycle")
                  && bool_decide (step_action s = loopAction s)
  | ActionData _ => false
  end.

(** The ids that the steps of a list carry. *)
Definition stepIds (steps : list ProcessStep) : gset string :=
  list_to_set (step_id <$> steps).

(** Two decisions that send each other back and forth. *)
Definition cyclicSteps : list ProcessStep :=
  [mkStep "s1" 1 decision "First check" "" "User" None
     (Some [mkBranch "b1" "Continue" (Some "s2")]);
   mkStep "s2" 2 decision "Second check" "" "User" None
     (Some [mkBranch "b2" "Start over" (Some "s1")])].

(** Two actions, each followed by a decision; the last decision returns
    to the first action. *)
Definition cyclicFlow : list ProcessStep :=
  [mkStep "a1" 1 action "Collect" "" "User" None None;
   mkStep "d1" 2 decision "Complete?" "" "User" None
     (Some [mkBranch "d1-y" "Yes" (Some "a2"); mkBranch "d1-n" "No" None]);
   mkStep "a2" 3 action "Review" "" "Lead" None None;
   mkStep "d2" 4 decision "Approved?" "" "Lead" None
     (Some [mkBranch "d2-n" "Rework" (Some "a1");
            mkBranch "d2-y" "Approve" (Some "end")]);
   mkStep "end" 5 action "Archive" "" "System" (Some true) None].

(** A decision with a dangling branch, an unresolved branch and a
    resolved one. *)
Definition danglingSteps : list ProcessStep :=
  [mkStep "d" 1 decision "Route" "" "User" None
     (Some [mkBranch "g" "Ghost" (Some "nowhere");
            mkBranch "u" "Later" None;
            mkBranch "r" "Go" (Some "t")]);
   mkStep "t" 2 action "Target" "" "User" (Some true) None].

(** A decision whose one branch has the empty string as its target, the
    value that the step editor writes when the target is cleared; no
    step has the empty id. *)
Definition emptyTargetSteps : list ProcessStep :=
  [mkStep "d" 1 decision "Route" "" "User" None
     (Some [mkBranch "e" "Cleared" (Some "")]);
   mkStep "t" 2 action "Target" "" "User" (Some true) None].


(** ** Mesh-to-tree projector *)

(** Modelled from the spec: the declarations of [SystemActor],
    [SystemInteraction] and [SystemsViewData] (types.ts) are not among
    the sources.  An actor has an id, a display name and a kind; an
    interaction has an id, a source and a target actor id, an activity
    label, a payload label and an optional cached diagram. *)
Inductive ActorType := person | system | external.

Definition actorTypeName (t : ActorType) : string :=
  match t with
  | person => "person"
  | system => "system"
  | external => "external"
  end.

Record SystemActor := mkActor {
  actor_id : string;
  actor_name : string;
  actor_type : ActorType
}.

(** Endpoints are actor ids: the declared type of [source] and [target]
    is a string, so the [typeof === 'object'] arms are not taken. *)
Record SystemInteraction := mkInteraction {
  interaction_id : string;
  i_source : string;
  i_target : string;
  activity : string;
  i_data : string;
  sequenceDiagram : option string
}.

Record SystemsViewData := mkSystems {
  actors : list SystemActor;
  interactions : list SystemInteraction
}.

(** [data.actors.find(a => a.id === x)]. *)
Definition findActor (data : SystemsViewData) (x : string)
    : option SystemActor :=
  List.find (fun a => bool_decide (actor_id a = x)) (actors data).

(** [if (dataFilter)]: an absent or empty filter is no filter. *)
Definition filterActive (dataFilter : option string) : bool :=
  JS.truthy_ostring dataFilter.

(** [link.data === dataFilter] for an active filter. *)
Definition matchesFilter (dataFilter : option string)
    (link : SystemInteraction) : bool :=
  bool_decide (Some (i_data link) = dataFilter).

(** The set of actors involved with the filtered data type. *)
Definition relevantActors (data : SystemsViewData)
    (dataFilter : option string) : gset string :=
  if filterActive dataFilter then
    foldl (fun acc i =>
             if matchesFilter dataFilter i
             then acc ∪ {[i_source i]} ∪ {[i_target i]}
             else acc)
      ∅ (interactions data)
  else ∅.

(** An entry of [childrenActors]. *)
Record ChildEntry := mkChild {
  child_actor : SystemActor;
  child_interaction : string
}.

Section MeshProjector.

Variable data : SystemsViewData.
Variable dataFilter : option string.

(** One round of [data.interactions.forEach] inside [buildNode]: the
    children collected so far and the shared visited-set. *)
Definition scanLink (actor : SystemActor)
    (acc : list ChildEntry * gset string) (link : SystemInteraction)
    : list ChildEntry * gset string :=
  let '(childrenActors, visited) := acc in
  if filterActive dataFilter && negb (matchesFilter dataFilter link)
  then acc
  else
    let s := i_source link in
    let t := i_target link in
    let '(targetId, prefix) :=
      if bool_decide (s = actor_id actor) && negb (bool_decide (t ∈ visited))
      then (Some t, "→ ")
      else if bool_decide (t = actor_id actor)
              && negb (bool_decide (s ∈ visited))
      then (Some s, "← ")
      else (None, "") in
    if JS.truthy_ostring targetId then
      let x := default "" targetId in
      match findActor data x with
      | Some targetActor =>
          if negb (filterActive dataFilter)
             || bool_decide (x ∈ relevantActors data dataFilter)
          then (childrenActors ++ [mkChild targetActor (prefix +:+ i_data link)],
                visited ∪ {[x]})
          else acc
      | None => acc
      end
    else acc.

Definition scanLinks (actor : SystemActor) (visited : gset string)
    : list ChildEntry * gset string :=
  foldl (scanLink actor) ([], visited) (interactions data).

(** [node.linkLabel = l]. *)
Definition setLinkLabel (node : MindMapData) (l : string) : MindMapData :=
  mkNode (id node) (label node) (description node) (nodeType node)
    (nature node) (source node) (cachedDetails node) (cachedProcess node)
    (detailsLocked node) (processLocked node) (collapsed node)
    (watchedNodeIds node) (isFlaggedForReview node) (flaggedSourceIds node)
    (Some l) (children node).

(** [childrenActors.map(c => ...)]: the children are built left to
    right, each seeing the visited-set its elder siblings left. *)
Fixpoint children_loop
    (self : SystemActor -> gset string -> option (MindMapData * gset string))
    (cs : list ChildEntry) (visited : gset string)
    : option (list MindMapData * gset string) :=
  match cs with
  | [] => Some ([], visited)
  | c :: rest =>
      '(node, visited1) ← self (child_actor c) visited;
      '(more, visited2) ← children_loop self rest visited1;
      Some (setLinkLabel node (child_interaction c) :: more, visited2)
  end.

(** [buildNode], the visited-set passed in and out.  [None] is returned
    only when [fuel] runs out. *)
Fixpoint buildNode (fuel : nat) (actor : SystemActor) (visited : gset string)
    : option (MindMapData * gset string) :=
  match fuel with
  | O => None
  | S fuel' =>
      let '(childrenActors, visited1) := scanLinks actor visited in
      '(cs, visited2) ← children_loop (buildNode fuel') childrenActors visited1;
      Some (mkNode (actor_id actor) (actor_name actor)
              (actorTypeName (actor_type actor))
              (match actor_type actor with
               | person => nt_info
               | _ => nt_process
               end)
              fact (Some src_ai) None None None None None None None None None
              (Some cs),
            visited2)
  end.

End MeshProjector.

(** The outcome of [buildSystemTree]: [null] when the root id names no
    actor, otherwise the tree. *)
Inductive MeshRoot :=
  | MeshNull
  | MeshTree (tree : MindMapData)
  | MeshFuelExhausted.

Definition buildSystemTree (data : SystemsViewData) (rootId : string)
    (dataFilter : option string) : MeshRoot :=
  match findActor data rootId with
  | None => MeshNull
  | Some rootActor =>
      match buildNode data dataFilter (S (length (actors data))) rootActor
              {[rootId]} with
      | Some (tree, _) => MeshTree tree
      | None => MeshFuelExhausted
      end
  end.

(** The interaction set of the mesh example: A→B (X), B→C (X), A→C (Y). *)
Definition meshExample : SystemsViewData :=
  mkSystems
    [mkActor "A" "A" system; mkActor "B" "B" system; mkActor "C" "C" system]
    [mkInteraction "i1" "A" "B" "sends" "X" None;
     mkInteraction "i2" "B" "C" "sends" "X" None;
     mkInteraction "i3" "A" "C" "sends" "Y" None].

(** *** Reading a projected mesh tree *)

(** The ids of the actors of the mesh. *)
Definition actorIds (data : SystemsViewData) : gset string :=
  list_to_set (actor_id <$> actors data).

Definition entryId (e : ChildEntry) : string := actor_id (child_actor e).

(** The ids strictly below the root of a tree, in pre-order. *)
Definition descIds (t : MindMapData) : list string :=
  flat_map node_ids (kids t).

(** The parent-child edges of a tree: the parent's id with the child. *)
Fixpoint edges (t : MindMapData) : list (string * MindMapData) :=
  match children t with
  | Some cs => map (fun c => (id t, c)) cs ++ flat_map edges cs
  | None => []
  end.

(** How often the actor [x] occurs in the tree. *)
Definition occurrences (x : string) (t : MindMapData) : nat :=
  length (filter (fun y => y = x) (node_ids t)).

(** [c] occurs strictly below a node with id [b]. *)
Definition properDescendant (c b : string) (t : MindMapData) : bool :=
  existsb (fun n => bool_decide (id n = b) && bool_decide (c ∈ descIds n))
    (nodes t).

(** [c] is the id of a child of the root of [t]. *)
Definition directChild (c : string) (t : MindMapData) : bool :=
  bool_decide (c ∈ id <$> kids t).

(** The interaction [link] passes the filter in force. *)
Definition passesFilter (dataFilter : option string)
    (link : SystemInteraction) : Prop :=
  filterActive dataFilter = true -> matchesFilter dataFilter link = true.

(** The tree edge from the node with id [p] to the child [c] renders an
    interaction of the mesh that passes the filter: an outgoing one,
    labelled with "→ " and its payload, or an incoming one, labelled with
    "← " and its payload. *)
Definition EdgeOK (data : SystemsViewData) (dataFilter : option string)
    (p : string) (c : MindMapData) : Prop :=
  exists link, link ∈ interactions data
    /\ passesFilter dataFilter link
    /\ ((i_source link = p /\ i_target link = id c
         /\ linkLabel c = Some ("→ " +:+ i_data link))
        \/ (i_target link = p /\ i_source link = id c
            /\ linkLabel c = Some ("← " +:+ i_data link))).

(** The actor [x] is an endpoint of an interaction whose payload is [f]. *)
Definition endpointOf (data : SystemsViewData) (f x : string) : Prop :=
  exists link, link ∈ interactions data
    /\ i_data link = f
    /\ (i_source link = x \/ i_target link = x).


Section MeshInvariants.

Variable data : SystemsViewData.
Variable dataFilter : option string.

(** What an entry of [childrenActors] records about its interaction. *)
Definition EntryOK (actor : SystemActor) (e : ChildEntry) : Prop :=
  exists link, link ∈ interactions data
    /\ passesFilter dataFilter link
    /\ ((i_source link = actor_id actor /\ i_target link = entryId e
         /\ child_interaction e = "→ " +:+ i_data link)
        \/ (i_target link = actor_id actor /\ i_source link = entryId e
            /\ child_interaction e = "← " +:+ i_data link)).

(** The state of the scan of the interactions of [actor], entered with
    the visited-set [v]. *)
Definition ScanInv (actor : SystemActor) (v : gset string)
    (acc : list ChildEntry * gset string) : Prop :=
  acc.2 = v ∪ list_to_set (entryId <$> acc.1)
  /\ NoDup (entryId <$> acc.1)
  /\ Forall (fun e => (entryId e ∉ v) /\ (entryId e ∈ actorIds data)
                      /\ EntryOK actor e) (acc.1).

(** What [buildNode] promises about the node it returns for [actor]
    and the visited-set it leaves. *)
Definition NodeSpec (actor : SystemActor) (v : gset string)
    (t : MindMapData) (v' : gset string) : Prop :=
  id t = actor_id actor
  /\ v' = v ∪ list_to_set (descIds t)
  /\ NoDup (descIds t)
  /\ (forall x, x ∈ descIds t -> (x ∉ v) /\ (x ∈ actorIds data))
  /\ Forall (fun e => EdgeOK data dataFilter e.1 e.2) (edges t).

End MeshInvariants.

(** ** Sample documents *)

(** A node with no optional property set, and one with a child array. *)
Definition bareNode (i l : string)
    (cs : option (list MindMapData)) : MindMapData :=
  mkNode i l "" nt_info fact None None None None None None None None None
    None cs.

(** A node that watches the ids [ws], with the flags [fs] already set. *)
Definition watcherNode (i : string) (ws : list string)
    (fs : option (list string)) (cs : option (list MindMapData))
    : MindMapData :=
  mkNode i i "" nt_info fact None None None None None None (Some ws) None fs
    None cs.

(** A root with one child that holds generated details, locked. *)
Definition detailedTree : MindMapData :=
  bareNode "root" "Root"
    (Some [mkNode "a" "A" "" nt_info fact None (Some "OLD TEXT") None
             (Some true) None None None None None None None]).

(** root
    ├─ a ─┬─ a1
    │     └─ a2
    └─ b  (watches a2) *)
Definition sampleTree : MindMapData :=
  bareNode "root" "Root"
    (Some [bareNode "a" "A"
             (Some [bareNode "a1" "A1" None; bareNode "a2" "A2" (Some [])]);
           watcherNode "b" ["a2"] None None]).

(** Eleven commits of one-node documents "0" .. "10" at times 0 .. 10. *)
Definition elevenCommits : list (MindMapData * string * Z) :=
  (fun i : nat => (bareNode (pretty i) "doc" None, "edit", Z.of_nat i))
    <$> seq 0 11.

(** A stack of three snapshots after two undos. *)
Definition rewoundState : AppState :=
  mkApp (Some (bareNode "0" "doc" None))
    [mkEntry (bareNode "0" "doc" None) "first" 0;
     mkEntry (bareNode "1" "doc" None) "second" 1;
     mkEntry (bareNode "2" "doc" None) "third" 2]
    0 true false false.

(** ** Reading the resolver's result *)

(** The labels from [root] down to the node [n], both included, along a
    chain of child links. *)
Inductive PathTo : MindMapData -> MindMapData -> list string -> Prop :=
  | path_here root : PathTo root root [label root]
  | path_below root c n ls :
      c ∈ kids root -> PathTo c n ls -> PathTo root n (label root :: ls).

(** The first node with the id [t] in the depth-first pre-order of the
    tree. *)
Definition firstWithId (t : string) (root : MindMapData)
    : option MindMapData :=
  List.find (fun n => bool_decide (id n = t)) (nodes root).

(** What a result [r] of the resolver, called on [root] for the id [t]
    with the path prefix [p], says: the node carries the id, the path is
    the prefix followed by the labels down to the node, and the parent is
    absent for the root itself and otherwise the node whose child the
    found node is. *)
Definition ResolvedAt (root : MindMapData) (t : string) (p : list string)
    (r : FindResult) : Prop :=
  id (found_node r) = t
  /\ exists ls, found_path r = p ++ ls
       /\ PathTo root (found_node r) ls
       /\ match found_parent r with
          | None => found_node r = root /\ ls = [label root]
          | Some par =>
              par ∈ nodes root /\ found_node r ∈ kids par
              /\ exists pre, ls = pre ++ [label par; label (found_node r)]
          end.


(** The live document is the snapshot the index points at; with an empty
    stack there is no document. *)
Definition Synced (st : AppState) : Prop :=
  mindMap st = entry_data <$> JS.at_index (history st) (historyIndex st).


(** ** Node deletion and additions through the pipeline *)

(** Where the child loop of the resolver ends for the target id: on a
    child itself, inside a child, or nowhere. *)
Inductive LoopHit :=
  | hit_child
  | hit_below (cs : list MindMapData)
  | hit_none.

(** The assignment [target.parent.children = target.parent.children
    .filter(c => c.id !== id)] through the parent reference that the
    resolver returned for a node below [root]: the search is retraced,
    and the child array of the node at which it ends is filtered. *)
Fixpoint remove_loop (self : MindMapData -> MindMapData) (targetId : string)
    (l : list MindMapData) : LoopHit :=
  match l with
  | [] => hit_none
  | child :: rest =>
      if decide (id child = targetId) then hit_child
      else if resolves child targetId then hit_below (self child :: rest)
      else match remove_loop self targetId rest with
           | hit_below cs => hit_below (child :: cs)
           | hit_child => hit_child
           | hit_none => hit_none
           end
  end.

Fixpoint removeAt (root : MindMapData) (targetId : string) : MindMapData :=
  match children root with
  | Some cs =>
      match remove_loop (fun child => removeAt child targetId) targetId cs with
      | hit_child =>
          set_children root
            (Some (List.filter (fun c => negb (bool_decide (id c = targetId))) cs))
      | hit_below cs' => set_children root (Some cs')
      | hit_none => root
      end
  | None => root
  end.

(** The [delete] branch of [handleNodeAction] for the clicked [node]. *)
Definition deleteNodeAction (st : AppState) (node : MindMapData) (now : Z)
    : AppState * list Effect :=
  match mindMap st with
  | None => (st, [])
  | Some current =>
      if decide (id current = id node) then
        (mkApp None [] (-1) (unsavedChanges st) (autoSave st) (isDevMode st),
         [LoggerInfo "Node Action: delete";
          LoggerInfo "Deleted Root Node (Map Reset)"])
      else
        let clone := deepClone current in
        match findNodeAndPath clone (id node) [] with
        | Some target =>
            match found_parent target with
            | Some _ =>
                let clone1 := removeAt clone (id node) in
                let clone2 := checkDependencies clone1 (id node) in
                app_bind
                  (st, [LoggerInfo "Node Action: delete";
                        RanCheckDependencies (id node)])
                  (fun st =>
                     commitToHistory st clone2
                       ("Deleted node: " +:+ label node) now)
            | None => (st, [LoggerInfo "Node Action: delete"])
            end
        | None => (st, [LoggerInfo "Node Action: delete"])
        end
  end.

(** [{ ...node, children: [...(node.children || []), ...newNodes] }]. *)
Definition appendChildren (newNodes : list MindMapData)
    (node : MindMapData) : NodeUpdate :=
  with_children (spread node) (Some (kids node ++ newNodes)).

Definition addedNodesDescription (n : nat) : string :=
  "Added " +:+ pretty n +:+ " nodes from Systems View".

(** What [handleAddToMindMap] does: the effects of the pipeline, then an
    entry of [logger.success]. *)
Inductive HandlerEffect :=
  | FromPipeline (e : Effect)
  | LoggerSuccess (message : string).

(** [handleAddToMindMap]; the success entry is logged after the update
    call whatever its outcome. *)
Definition handleAddToMindMap (st : AppState) (parentId : string)
    (newNodes : list MindMapData) (now : Z)
    : AppState * list HandlerEffect :=
  let '(st', effs) :=
    updateNodeInTree st parentId (appendChildren newNodes)
      (addedNodesDescription (length newNodes)) false false now in
  (st', (FromPipeline <$> effs) ++ [LoggerSuccess "Added nodes to map"]).

(** The update of the reset dialog:
    [{ ...n, cachedDetails: details ? undefined : n.cachedDetails,
       cachedProcess: process ? undefined : n.cachedProcess,
       detailsLocked: details ? false : n.detailsLocked,
       processLocked: process ? false : n.processLocked }]. *)
Definition resetContent (details process : bool) (n : MindMapData)
    : NodeUpdate :=
  with_processLocked
    (with_detailsLocked
       (with_cachedProcess
          (with_cachedDetails (spread n)
             (if details then None else cachedDetails n))
          (if process then None else cachedProcess n))
       (if details then Some false else detailsLocked n))
    (if process then Some false else processLocked n).

(** The confirm handler of the reset dialog opened for [node]. *)
Definition resetNodeAction (st : AppState) (node : MindMapData)
    (details process : bool) (now : Z) : AppState * list Effect :=
  updateNodeInTree st (id node) (resetContent details process)
    ("Cleared content for " +:+ label node) false true now.

(** What a node holds apart from its children and its review flags. *)
Definition nodeContent (n : MindMapData) :=
  (id n, label n, description n, nodeType n, nature n, source n,
   cachedDetails n, cachedProcess n, detailsLocked n, processLocked n,
   collapsed n, watchedNodeIds n, linkLabel n).


(** A write through the resolver's reference lands on the first node with
    the id [t]: the pre-order list of the old tree splits around that
    node's subtree, no node before it carries the id, and the new tree
    reads the same, under the view [g], outside the subtree, where it
    shows the subtree of [f] applied to that node. *)
Definition SegmentOf {X} (g : MindMapData -> X)
    (f : MindMapData -> MindMapData) (t : string)
    (root root' : MindMapData) : Prop :=
  exists victim NA NB,
    firstWithId t root = Some victim
    /\ nodes root = NA ++ nodes victim ++ NB
    /\ Forall (fun n => id n <> t) NA
    /\ g <$> nodes root' = (g <$> NA) ++ (g <$> nodes (f victim)) ++ (g <$> NB).

(** ** Search reveal *)

(** The assignment [node._collapsed = b]. *)
Definition setCollapsed (b : bool) (node : MindMapData) : MindMapData :=
  mkNode (id node) (label node) (description node) (nodeType node)
    (nature node) (source node) (cachedDetails node) (cachedProcess node)
    (detailsLocked node) (processLocked node) (Some b)
    (watchedNodeIds node) (isFlaggedForReview node) (flaggedSourceIds node)
    (linkLabel node) (children node).

(** One round of [idsToExpand.forEach] in [handleSearchReveal]: the
    clone and the [changed] flag. *)
Definition revealStep (acc : MindMapData * bool) (x : string)
    : MindMapData * bool :=
  match findNodeAndPath acc.1 x [] with
  | Some target =>
      if JS.truthy_obool (collapsed (found_node target))
      then (assignAt (setCollapsed false) acc.1 x, true)
      else acc
  | None => acc
  end.

(** [handleSearchReveal]: only the live document is replaced, and only
    when some node was expanded. *)
Definition handleSearchReveal (st : AppState) (idsToExpand : list string)
    : AppState :=
  match mindMap st with
  | None => st
  | Some prev =>
      let '(clone, changed) :=
        foldl revealStep (deepClone prev, false) idsToExpand in
      if changed
      then mkApp (Some clone) (history st) (historyIndex st)
             (unsavedChanges st) (autoSave st) (isDevMode st)
      else st
  end.

(** Whether the node is shown collapsed. *)
Definition collapsedFlag (n : MindMapData) : bool :=
  JS.truthy_obool (collapsed n).

(** The ids of a document in pre-order, each with its collapsed flag. *)
Definition collapseView (doc : MindMapData) : list (string * bool) :=
  (fun n => (id n, collapsedFlag n)) <$> nodes doc.

(** The first entry for [x], if any, switched to expanded. *)
Fixpoint expandFirst (x : string) (L : list (string * bool))
    : list (string * bool) :=
  match L with
  | [] => []
  | e :: r =>
      if decide (e.1 = x) then (e.1, false) :: r else e :: expandFirst x r
  end.

(** The flag of the first entry for [x]. *)
Fixpoint firstFlag (x : string) (L : list (string * bool)) : option bool :=
  match L with
  | [] => None
  | e :: r => if decide (e.1 = x) then Some e.2 else firstFlag x r
  end.

(** What a node holds apart from its children and its collapsed flag. *)
Definition uncollapsedContent (n : MindMapData) :=
  (id n, label n, description n, nodeType n, nature n, source n,
   cachedDetails n, cachedProcess n, detailsLocked n, processLocked n,
   watchedNodeIds n, isFlaggedForReview n, flaggedSourceIds n, linkLabel n).


(** What a branch holds apart from its target. *)
Definition branchShape (b : ProcessBranch) : string * string :=
  (branch_id b, branch_label b).

(** What a step holds apart from the targets of its branches. *)
Definition stepShape (s : ProcessStep) :=
  (step_id s, stepNumber s, step_type s, step_action s, step_description s,
   step_role s, isEndState s, fmap (M := list) branchShape <$> branches s).


(** ** Step editing in the process modal *)

(** [s.stepNumber = n]. *)
Definition withNumber (s : ProcessStep) (n : Z) : ProcessStep :=
  mkStep (step_id s) n (step_type s) (step_action s) (step_description s)
    (step_role s) (isEndState s) (branches s).

(** [newSteps.forEach((s, i) => s.stepNumber = i + 1)]. *)
Definition renumber (steps : list ProcessStep) : list ProcessStep :=
  imap (fun i s => withNumber s (Z.of_nat i + 1)) steps.

(** The step literal of [handleInsertStepAfter]; [uuid] is the result of
    [crypto.randomUUID()]. *)
Definition newStep (uuid : string) : ProcessStep :=
  mkStep uuid 0 action "New Step" "Describe step..." "User" None None.

(** Where [Array.prototype.splice(start, 0, x)] inserts in an array of
    [len] elements: a negative start counts from the end, and the result
    is clamped to the array. *)
Definition spliceStart (start : Z) (len : nat) : nat :=
  if (start <? 0)%Z then Z.to_nat (Z.max (Z.of_nat len + start) 0)
  else Z.to_nat (Z.min start (Z.of_nat len)).

(** [l.splice(start, 0, x)], as the resulting array. *)
Definition spliceIn {A} (l : list A) (start : Z) (x : A) : list A :=
  take (spliceStart start (length l)) l
    ++ x :: drop (spliceStart start (length l)) l.

(** [handleInsertStepAfter], as the new value of [steps]. *)
Definition handleInsertStepAfter (uuid : string) (steps : list ProcessStep)
    (index : Z) : list ProcessStep :=
  renumber (spliceIn steps (index + 1) (newStep uuid)).

(** [handleDeleteStep], as the new value of [steps]. *)
Definition handleDeleteStep (steps : list ProcessStep) (id : string)
    : list ProcessStep :=
  renumber (List.filter (fun s => negb (bool_decide (step_id s = id))) steps).

(** What a step holds apart from its number. *)
Definition unnumbered (s : ProcessStep) :=
  (step_id s, step_type s, step_action s, step_description s, step_role s,
   isEndState s, branches s).


(** ** Editing the mesh *)

(** [handleDeleteActor], as the argument of [onUpdate]: the actor list
    and the interaction list (the third component, [activities], is
    passed on as it is). *)
Definition handleDeleteActor (data : SystemsViewData) (actorId : string)
    : SystemsViewData :=
  mkSystems
    (List.filter (fun a => negb (bool_decide (actor_id a = actorId)))
       (actors data))
    (List.filter (fun i => negb (bool_decide (i_source i = actorId))
                           && negb (bool_decide (i_target i = actorId)))
       (interactions data)).

(** [handleDeleteInteraction], as the argument of [onUpdate]. *)
Definition handleDeleteInteraction (data : SystemsViewData) (x : string)
    : SystemsViewData :=
  mkSystems (actors data)
    (List.filter (fun i => negb (bool_decide (interaction_id i = x)))
       (interactions data)).

(** Every endpoint of every interaction names an actor of the mesh. *)
Definition EndpointsResolve (data : SystemsViewData) : Prop :=
  forall link, link ∈ interactions data ->
    i_source link ∈ actorIds data /\ i_target link ∈ actorIds data.


(** ** Adjacency matrix *)

(** The key of a matrix cell, [`${s}-${t}`]. *)
Definition cellKey (s t : string) : string := s +:+ "-" +:+ t.

Definition linkKey (link : SystemInteraction) : string :=
  cellKey (i_source link) (i_target link).

(** One round of [data.interactions.forEach] in [matrixData]. *)
Definition addToCell (m : gmap string (list SystemInteraction))
    (link : SystemInteraction) : gmap string (list SystemInteraction) :=
  let key := linkKey link in
  let m1 := if bool_decide (is_Some (m !! key)) then m else <[key := []]> m in
  match m1 !! key with
  | Some cell => <[key := cell ++ [link]]> m1
  | None => m1
  end.

(** The [cellMap] of [matrixData]. *)
Definition cellMap (data : SystemsViewData)
    : gmap string (list SystemInteraction) :=
  foldl addToCell ∅ (interactions data).

(** The cell the table and the CSV export read for a row and a column:
    [cellMap.get(`${row.id}-${col.id}`)]. *)
Definition matrixCell (data : SystemsViewData) (row col : string)
    : option (list SystemInteraction) :=
  cellMap data !! cellKey row col.

(** The string holds no hyphen. *)
Fixpoint hyphenFree (s : string) : bool :=
  match s with
  | EmptyString => true
  | String c r => negb (bool_decide (String c "" = "-")) && hyphenFree r
  end.

(** Two actors whose ids run into each other across the hyphen of the
    cell key, and one interaction between the first pair. *)
Definition hyphenMesh : SystemsViewData :=
  mkSystems
    [mkActor "a-b" "A B" system; mkActor "c" "C" system;
     mkActor "a" "A" system; mkActor "b-c" "B C" system]
    [mkInteraction "i1" "a-b" "c" "sends" "X" None].


(** ** Flattening the document for the mesh view *)

(** An entry of the flat list: [{ id, label, depth }]. *)
Record FlatNode := mkFlat {
  flat_id : string;
  flat_label : string;
  flat_depth : nat
}.

(** The [node.children.forEach] loop of [getAllNodes]; [self] is the
    recursive call on a child, one level down. *)
Fixpoint flatten_loop (self : MindMapData -> list FlatNode)
    (l : list MindMapData) (list_ : list FlatNode) : list FlatNode :=
  match l with
  | [] => list_
  | child :: rest => flatten_loop self rest (list_ ++ self child)
  end.

Fixpoint getAllNodes (node : MindMapData) (depth : nat) : list FlatNode :=
  let list_ := [mkFlat (id node) (label node) depth] in
  match children node with
  | Some cs =>
      flatten_loop (fun child => getAllNodes child (depth + 1)) cs list_
  | None => list_
  end.

(** [a.toLowerCase() === b.toLowerCase()]. *)
Definition sameLabel (a b : string) : bool :=
  bool_decide (JS.toLowerCase a = JS.toLowerCase b).

(** [findMatchingNode]: [getAllNodes(mindMap).find(...)]. *)
Definition findMatchingNode (mindMap : MindMapData) (lbl : string)
    : option FlatNode :=
  List.find (fun n => sameLabel (flat_label n) lbl) (getAllNodes mindMap 0).

(** The [for (const child of root.children)] loop of [findFullNode]. *)
Fixpoint fullNode_loop (self : MindMapData -> option MindMapData)
    (l : list MindMapData) : option MindMapData :=
  match l with
  | [] => None
  | child :: rest =>
      match self child with
      | Some found => Some found
      | None => fullNode_loop self rest
      end
  end.

(** [findFullNode] of [handleOpenLinkedNode], for the label [lbl]. *)
Fixpoint findFullNode (lbl : string) (root : MindMapData)
    : option MindMapData :=
  if sameLabel (label root) lbl then Some root
  else match children root with
       | Some cs => fullNode_loop (findFullNode lbl) cs
       | None => None
       end.


(** The actor [y] is a neighbour of [x] under the filter in force: an
    interaction that passes the filter joins the two, and [y] is the
    non-empty id of an actor of the mesh. *)
Definition Neighbour (data : SystemsViewData) (dataFilter : option string)
    (x y : string) : Prop :=
  exists link, link ∈ interactions data
    /\ passesFilter dataFilter link
    /\ ((i_source link = x /\ i_target link = y)
        \/ (i_target link = x /\ i_source link = y))
    /\ y ∈ actorIds data /\ y <> "".


(** ** Swimlane links *)

(** An entry of [calculatedLinks]; the nodes are read as the steps they
    extend with a position. *)
Record SwimLink := mkLink {
  link_source : ProcessStep;
  link_target : ProcessStep;
  link_label : option string
}.

(** The callback of [calculatedNodes.forEach] that fills
    [calculatedLinks]. *)
Definition linksFrom (steps : list ProcessStep)
    (nodeMap : gmap string ProcessStep) (node : ProcessStep)
    : list SwimLink :=
  (if bool_decide (step_type node = action)
      && negb (JS.truthy_obool (isEndState node))
   then match findByNumber steps (stepNumber node + 1) with
        | Some next => [mkLink node next None]
        | None => []
        end
   else [])
  ++ match step_type node, branches node with
     | decision, Some bs =>
         flat_map
           (fun b =>
              if JS.truthy_ostring (targetStepId b) then
                match nodeMap !! default "" (targetStepId b) with
                | Some target => [mkLink node target (Some (branch_label b))]
                | None => []
                end
              else [])
           bs
     | _, _ => []
     end.

(** The [links] of the swimlane chart. *)
Definition swimlaneLinks (steps : list ProcessStep) : list SwimLink :=
  flat_map (linksFrom steps (buildIdMap steps)) steps.

(** The id of the step a display node shows, if it shows one. *)
Definition shownStepId (n : DisplayNode) : option string :=
  match dn_data n with
  | StepData s => Some (step_id s)
  | ActionData _ => None
  end.

(** The ids of the steps shown by the children of a display node. *)
Definition childStepIds (n : DisplayNode) : list string :=
  omap shownStepId (dn_children n).

(** A decision that has no branch array, followed by an action. *)
Definition bareDecision : list ProcessStep :=
  [mkStep "q" 1 decision "Ready?" "" "User" None None;
   mkStep "r" 2 action "Run" "" "User" (Some true) None].


(** ** Session import *)

(** [collapseRecursive] of [handleImportSession]: the children first,
    then the node itself. *)
Fixpoint collapseRecursive (node : MindMapData) : MindMapData :=
  setCollapsed true
    (match children node with
     | Some cs => set_children node (Some (map collapseRecursive cs))
     | None => node
     end).

(** What [handleImportSession] writes for a file that holds a mind map:
    the collapsed map with its root expanded, a stack of that one
    snapshot, the index re-pointed at it, and nothing unsaved.
    [jsonSettings] is the auto-save flag of the file's settings, when the
    file has settings. *)
Definition importSession (st : AppState) (jsonMindMap : MindMapData)
    (jsonSettings : option bool) (now : Z) : AppState :=
  let importedMap := setCollapsed false (collapseRecursive jsonMindMap) in
  mkApp (Some importedMap) [mkEntry importedMap "Imported Session" now] 0
    false (default (autoSave st) jsonSettings) (isDevMode st).


(** ** Toggling a node's visibility *)

(** [{ ...n, _collapsed: !n._collapsed }]. *)
Definition toggleCollapsed (n : MindMapData) : NodeUpdate :=
  with_collapsed (spread n) (Some (negb (JS.truthy_obool (collapsed n)))).

(** The [expand] branch of [handleNodeAction] for the clicked [node]: a
    node that has children is toggled through the pipeline; for one
    without, the branch opens the expansion dialog and leaves this part
    of the state alone. *)
Definition expandAction (st : AppState) (node : MindMapData) (now : Z)
    : AppState * list Effect :=
  match mindMap st with
  | None => (st, [])
  | Some _ =>
      if (0 <? length (kids node))%nat then
        app_bind (st, [LoggerInfo "Node Action: expand"])
          (fun st =>
             updateNodeInTree st (id node) toggleCollapsed
               ("Toggled visibility: " +:+ label node) false false now)
      else (st, [LoggerInfo "Node Action: expand"])
  end.

(** The first entry for [x], if any, with its flag flipped. *)
Fixpoint toggleFirst (x : string) (L : list (string * bool))
    : list (string * bool) :=
  match L with
  | [] => []
  | e :: r =>
      if decide (e.1 = x) then (e.1, negb e.2) :: r else e :: toggleFirst x r
  end.


(** ** Every writer of the state *)

(** [handleStartTutorial]: the tutorial's map becomes the live document
    and the one entry of the stack; the unsaved mark is left alone. *)
Definition startTutorial (st : AppState) (data : MindMapData) (now : Z)
    : AppState :=
  mkApp (Some data) [mkEntry data "Tutorial Start" now] 0
    (unsavedChanges st) (autoSave st) (isDevMode st).

(** The settings dialog writes the auto-save flag. *)
Definition updateSettings (st : AppState) (newAutoSave : bool) : AppState :=
  mkApp (mindMap st) (history st) (historyIndex st) (unsavedChanges st)
    newAutoSave (isDevMode st).

(** [setIsDevMode(!isDevMode)]. *)
Definition toggleDevMode (st : AppState) : AppState :=
  mkApp (mindMap st) (history st) (historyIndex st) (unsavedChanges st)
    (autoSave st) (negb (isDevMode st)).

(** One transition of the state: a transition of the history manager, or
    one of the writers that go around it.  Search reveal replaces the
    live document without a commit; saving, the settings and the
    developer switch leave document and stack alone; import and the
    tutorial start a stack of one snapshot.  Every handler that writes
    this part of the state is a sequence of these (the mutation pipeline
    is a commit followed by an optional save, the deletion of the root
    and the end of the tutorial are a close). *)
Inductive AppStep : AppState -> AppState -> Prop :=
  | app_history st st' : HistoryStep st st' -> AppStep st st'
  | app_reveal st idsToExpand :
      AppStep st (handleSearchReveal st idsToExpand)
  | app_save st data : AppStep st (saveSessionFile st data).1
  | app_import st jsonMindMap jsonSettings now :
      AppStep st (importSession st jsonMindMap jsonSettings now)
  | app_tutorial st data now : AppStep st (startTutorial st data now)
  | app_settings st newAutoSave : AppStep st (updateSettings st newAutoSave)
  | app_devmode st : AppStep st (toggleDevMode st).

Inductive AppReachable : AppState -> Prop :=
  | app_init : AppReachable initialState
  | app_step st st' : AppReachable st -> AppStep st st' -> AppReachable st'.

(** The document with every collapsed flag removed. *)
Fixpoint withoutCollapsed (node : MindMapData) : MindMapData :=
  mkNode (id node) (label node) (description node) (nodeType node)
    (nature node) (source node) (cachedDetails node) (cachedProcess node)
    (detailsLocked node) (processLocked node) None
    (watchedNodeIds node) (isFlaggedForReview node) (flaggedSourceIds node)
    (linkLabel node)
    (match children node with
     | Some cs => Some (map withoutCollapsed cs)
     | None => None
     end).

(** [T] is [S] after search reveals: the two documents are the same
    apart from collapsed flags, and, node by node in pre-order, a node
    is collapsed in [T] only if it is in [S]. *)
Definition RevealedFrom (S T : MindMapData) : Prop :=
  withoutCollapsed S = withoutCollapsed T
  /\ Forall2 (fun s t => t.2 = true -> s.2 = true)
       (collapseView S) (collapseView T).

(** The live document is the snapshot at the index, or that snapshot
    after search reveals; there is neither when the stack is empty. *)
Definition Anchored (st : AppState) : Prop :=
  match mindMap st, JS.at_index (history st) (historyIndex st) with
  | Some T, Some e => RevealedFrom (entry_data e) T
  | None, None => True
  | _, _ => False
  end.

(** The state with the snapshot at the index as its live document. *)
Definition atSnapshot (st : AppState) : AppState :=
  mkApp (entry_data <$> JS.at_index (history st) (historyIndex st))
    (history st) (historyIndex st) (unsavedChanges st) (autoSave st)
    (isDevMode st).

(** A session imported from a file, with one node revealed by a search
    afterwards. *)
Definition revealedSession : AppState :=
  handleSearchReveal (importSession initialState sampleTree None 0) ["a"].


(** *** The path of a display node *)

(** The node that expands [step]: it carries the step under the step's
    own id. *)
Definition ExpandsStep (step : ProcessStep) (n : DisplayNode) : Prop :=
  dn_id n = step_id step /\ dn_data n = StepData step /\ dn_type n = dt_step.

(** A terminal loop node for [step]: no children, a synthetic "loop-" id
    and the step with the text "Loop to Step N" under the cycle role. *)
Definition LoopLeafOf (step : ProcessStep) (n : DisplayNode) : Prop :=
  (exists suffix, dn_id n = "loop-" +:+ step_id step +:+ "-" +:+ suffix)
  /\ dn_data n
     = StepData (withActionRole step
                   ("↩ Loop to Step " +:+ pretty (stepNumber step))
                   "Process Cycle")
  /\ dn_children n = [] /\ dn_type n = dt_step.

(** Every node of a display tree, in pre-order, with the ids of the
    nodes on the way down to it: the current path of the recursion that
    built it, which starts at [path]. *)
Fixpoint onPath (path : gset string) (n : DisplayNode)
    : list (gset string * DisplayNode) :=
  (path, n) :: flat_map (onPath (path ∪ {[dn_id n]})) (dn_children n).

(** What a node of a flow tree is, given its path: the expansion of a
    step that is not on the path, a loop leaf for a step that is, or a
    placeholder leaf. *)
Definition PathNodeOK (steps : list ProcessStep)
    (pn : gset string * DisplayNode) : Prop :=
  (exists s, s ∈ steps /\ ExpandsStep s pn.2 /\ step_id s ∉ pn.1)
  \/ (exists s, s ∈ steps /\ LoopLeafOf s pn.2 /\ step_id s ∈ pn.1)
  \/ (dn_type pn.2 = dt_placeholder /\ dn_children pn.2 = []).


(** * Properties *)

(** Induction on the document tree: a property holds of every node when it
    is inherited from the children. *)
Lemma MindMapData_tree_ind (P : MindMapData -> Prop) :
  (forall n, Forall P (kids n) -> P n) -> forall n, P n.
Proof.
  intros step.
  fix IH 1.
  intros n. apply step.
  destruct n as [? ? ? ? ? ? ? ? ? ? ? ? ? ? ? cs]. unfold kids; simpl.
  destruct cs as [cs|]; [|constructor].
  simpl. induction cs as [|c cs IHcs]; constructor; [apply IH | exact IHcs].
Qed.

Lemma nodes_unfold n : nodes n = n :: flat_map nodes (kids n).
Proof. destruct n as [? ? ? ? ? ? ? ? ? ? ? ? ? ? ? [cs|]]; reflexivity. Qed.

Lemma node_ids_unfold n :
  node_ids n = id n :: flat_map node_ids (kids n).
Proof.
  unfold node_ids. rewrite nodes_unfold, fmap_cons. f_equal.
  induction (kids n) as [|c cs IH]; [done|].
  cbn [flat_map]. by rewrite fmap_app, IH.
Qed.

Lemma calculateNodeNumber_unfold root targetId currentNumber :
  calculateNodeNumber root targetId currentNumber =
  if decide (id root = targetId) then Some currentNumber
  else match children root with
       | Some cs =>
           number_loop (fun child num => calculateNodeNumber child targetId num)
             currentNumber cs 0%nat
       | None => None
       end.
Proof. destruct root; reflexivity. Qed.

Lemma findNodeAndPath_unfold root targetId currentPath :
  findNodeAndPath root targetId currentPath =
  if decide (id root = targetId)
  then Some (mkFound root (currentPath ++ [label root]) None)
  else match children root with
       | Some cs =>
           find_loop
             (fun child =>
                findNodeAndPath child targetId (currentPath ++ [label root]))
             root targetId currentPath cs
       | None => None
       end.
Proof. destruct root; reflexivity. Qed.


(** ** Resolver and numbering *)

Lemma kids_Some n cs : children n = Some cs -> kids n = cs.
Proof. unfold kids. by intros ->. Qed.

Lemma kids_None n : children n = None -> kids n = [].
Proof. unfold kids. by intros ->. Qed.

Lemma number_loop_absent t cur (cs : list MindMapData) :
  Forall (fun c => forall num, t ∉ node_ids c ->
                   calculateNodeNumber c t num = None) cs ->
  t ∉ flat_map node_ids cs ->
  forall i, number_loop (fun c num => calculateNodeNumber c t num) cur cs i = None.
Proof.
  induction 1 as [|c cs Hc _ IH]; intros Hnot i; [done|].
  cbn [flat_map] in Hnot. rewrite elem_of_app in Hnot.
  cbn [number_loop]. rewrite Hc by tauto. apply IH. tauto.
Qed.

Lemma calculateNodeNumber_absent n t :
  forall num, t ∉ node_ids n -> calculateNodeNumber n t num = None.
Proof.
  induction n as [n IH] using MindMapData_tree_ind. intros num Hnot.
  rewrite node_ids_unfold, not_elem_of_cons in Hnot.
  destruct Hnot as [Hne Hnot].
  rewrite calculateNodeNumber_unfold.
  destruct (decide (id n = t)) as [Heq|_]; [by destruct Hne|].
  destruct (children n) as [cs|] eqn:Hcs; [|done].
  rewrite (kids_Some _ _ Hcs) in *. by apply number_loop_absent.
Qed.

Lemma find_loop_absent t root p (cs : list MindMapData) :
  Forall (fun c => forall q, t ∉ node_ids c ->
                   findNodeAndPath c t q = None) cs ->
  t ∉ flat_map node_ids cs ->
  forall q, find_loop (fun c => findNodeAndPath c t q) root t p cs = None.
Proof.
  induction 1 as [|c cs Hc _ IH]; intros Hnot q; [done|].
  cbn [flat_map] in Hnot. rewrite elem_of_app in Hnot.
  cbn [find_loop].
  destruct (decide (id c = t)) as [Heq|_].
  { exfalso. apply Hnot. left. rewrite node_ids_unfold, <- Heq. by left. }
  rewrite Hc by tauto. apply IH. tauto.
Qed.

Lemma findNodeAndPath_absent n t :
  forall p, t ∉ node_ids n -> findNodeAndPath n t p = None.
Proof.
  induction n as [n IH] using MindMapData_tree_ind. intros p Hnot.
  rewrite node_ids_unfold, not_elem_of_cons in Hnot.
  destruct Hnot as [Hne Hnot].
  rewrite findNodeAndPath_unfold.
  destruct (decide (id n = t)) as [Heq|_]; [by destruct Hne|].
  destruct (children n) as [cs|] eqn:Hcs; [|done].
  rewrite (kids_Some _ _ Hcs) in *. by apply find_loop_absent.
Qed.

Lemma find_loop_present t root p (cs : list MindMapData) :
  Forall (fun c => forall q, t ∈ node_ids c ->
                   is_Some (findNodeAndPath c t q)) cs ->
  t ∈ flat_map node_ids cs ->
  forall q, is_Some (find_loop (fun c => findNodeAndPath c t q) root t p cs).
Proof.
  induction 1 as [|c cs Hc _ IH]; intros Hin q.
  { by apply elem_of_nil in Hin. }
  cbn [flat_map] in Hin. rewrite elem_of_app in Hin.
  cbn [find_loop].
  destruct (decide (id c = t)) as [Heq|_]; [by eexists|].
  destruct (findNodeAndPath c t q) as [r|] eqn:Hr; [by eexists|].
  destruct Hin as [Hin|Hin]; [|by apply IH].
  specialize (Hc q Hin). rewrite Hr in Hc. by destruct Hc.
Qed.

Lemma findNodeAndPath_present n t :
  forall p, t ∈ node_ids n -> is_Some (findNodeAndPath n t p).
Proof.
  induction n as [n IH] using MindMapData_tree_ind. intros p Hin.
  rewrite node_ids_unfold, elem_of_cons in Hin.
  rewrite findNodeAndPath_unfold.
  destruct (decide (id n = t)) as [_|Hne]; [by eexists|].
  destruct Hin as [Heq|Hin]; [congruence|].
  destruct (children n) as [cs|] eqn:Hcs.
  - rewrite (kids_Some _ _ Hcs) in *. by apply find_loop_present.
  - rewrite (kids_None _ Hcs) in Hin. by apply elem_of_nil in Hin.
Qed.

(** C9: the outline number of the root is the sentinel "1.0" and an id
    that occurs nowhere in the tree has no number, for every tree; in a
    tree whose identifiers are unique, as they are within a document, the
    root's first child has the number "1.1" and that child's second child
    the number "1.1.2". *)
Theorem calculateNodeNumber_outline (T : MindMapData) :
  nodeNumber T (id T) = Some "1.0"
  /\ (forall t, t ∉ node_ids T -> nodeNumber T t = None)
  /\ (NoDup (node_ids T) ->
      (forall c rest, children T = Some (c :: rest) ->
         nodeNumber T (id c) = Some "1.1")
      /\ (forall c rest g1 g rest',
            children T = Some (c :: rest) ->
            children c = Some (g1 :: g :: rest') ->
            nodeNumber T (id g) = Some "1.1.2")).
Proof.
  unfold nodeNumber. split; [|split].
  - rewrite calculateNodeNumber_unfold. by rewrite decide_True.
  - intros t Hnot. by apply calculateNodeNumber_absent.
  - intros Huniq. split.
    + intros c rest Hcs.
      rewrite node_ids_unfold, (kids_Some _ _ Hcs) in Huniq.
      cbn [flat_map] in Huniq. rewrite (node_ids_unfold c) in Huniq.
      apply NoDup_cons in Huniq as [Hroot _].
      rewrite calculateNodeNumber_unfold, Hcs.
      rewrite decide_False
        by (intros E; apply Hroot; rewrite E; apply elem_of_app; left; by left).
      cbn [number_loop]. rewrite calculateNodeNumber_unfold.
      by rewrite decide_True.
    + intros c rest g1 g rest' Hcs Hgs.
      rewrite node_ids_unfold, (kids_Some _ _ Hcs) in Huniq.
      cbn [flat_map] in Huniq.
      rewrite (node_ids_unfold c), (kids_Some _ _ Hgs) in Huniq.
      cbn [flat_map] in Huniq. rewrite (node_ids_unfold g) in Huniq.
      apply NoDup_cons in Huniq as [Hroot Huniq].
      apply NoDup_app in Huniq as [Hc _].
      apply NoDup_cons in Hc as [Hcg Hc].
      apply NoDup_app in Hc as (_ & Hg1 & _).
      rewrite calculateNodeNumber_unfold, Hcs.
      rewrite decide_False.
      2:{ intros E. apply Hroot. rewrite E. apply elem_of_app. left.
          right. apply elem_of_app. right. apply elem_of_app. left. by left. }
      cbn [number_loop]. rewrite calculateNodeNumber_unfold, Hgs.
      rewrite decide_False.
      2:{ intros E. apply Hcg. rewrite E. apply elem_of_app. right.
          apply elem_of_app. left. by left. }
      cbn [number_loop].
      assert (id g ∉ node_ids g1) as Hfresh.
      { intros Hin. apply (Hg1 _ Hin). apply elem_of_app. left. by left. }
      rewrite (calculateNodeNumber_absent g1 _ _ Hfresh).
      rewrite calculateNodeNumber_unfold. by rewrite decide_True.
Qed.

Lemma calculateNodeNumber_outline_witness :
  nodeNumber sampleTree "a2" = Some "1.1.2"
  /\ nodeNumber sampleTree "a" = Some "1.1"
  /\ nodeNumber sampleTree "missing" = None.
Proof.
  assert (NoDup (node_ids sampleTree)) as Huniq.
  { apply (bool_decide_unpack _). vm_compute. exact I. }
  destruct (calculateNodeNumber_outline sampleTree)
    as (_ & Habsent & Hchildren).
  destruct (Hchildren Huniq) as (Hfirst & Hsecond).
  split; [|split].
  - exact (Hsecond _ _ _ (bareNode "a2" "A2" (Some [])) _ eq_refl eq_refl).
  - exact (Hfirst (bareNode "a" "A"
             (Some [bareNode "a1" "A1" None; bareNode "a2" "A2" (Some [])]))
             _ eq_refl).
  - apply Habsent. apply (bool_decide_unpack _). vm_compute. exact I.
Defined.

(** ** Mutation pipeline *)

(** C6: an update aimed at an id that the live document does not contain
    leaves the whole state as it was and performs nothing: no snapshot is
    committed, nothing is logged or saved, the update function and the
    dependency check are not called. *)
Theorem updateNodeInTree_silent_miss (st : AppState) (T : MindMapData)
    (nodeId : string) (updateFn : MindMapData -> NodeUpdate)
    (actionDescription : string) (shouldAutoSave triggerDependencyCheck : bool)
    (now : Z) :
  mindMap st = Some T ->
  nodeId ∉ node_ids T ->
  updateNodeInTree st nodeId updateFn actionDescription shouldAutoSave
    triggerDependencyCheck now = (st, []).
Proof.
  intros Hmap Hnot. unfold updateNodeInTree, deepClone. rewrite Hmap.
  by rewrite (findNodeAndPath_absent T nodeId [] Hnot).
Qed.

Lemma updateNodeInTree_silent_miss_witness :
  let st := mkApp (Some sampleTree) [mkEntry sampleTree "Initial Generation" 0]
              0 true false false in
  updateNodeInTree st "gone" spread "Update node" true true 1 = (st, []).
Proof.
  intros st.
  apply (updateNodeInTree_silent_miss st sampleTree "gone").
  - reflexivity.
  - apply (bool_decide_unpack _). vm_compute. exact I.
Defined.

(** ** Dependency propagation *)

Lemma traverse_eq c n :
  traverse c n =
  set_children (flagIfWatching c n) (map (traverse c) <$> children n).
Proof. destruct n as [? ? ? ? ? ? ? ? ? ? ? ? ? ? ? [cs|]]; reflexivity. Qed.

Lemma includes_true x l : JS.includes x l = true <-> x ∈ l.
Proof. unfold JS.includes. by rewrite bool_decide_eq_true. Qed.

Lemma includes_false x l : JS.includes x l = false <-> x ∉ l.
Proof. unfold JS.includes. by rewrite bool_decide_eq_false. Qed.

Lemma includes_snoc x l : JS.includes x (l ++ [x]) = true.
Proof. apply includes_true, elem_of_app. right. by left. Qed.

Lemma flagIfWatching_idemp c n :
  flagIfWatching c (flagIfWatching c n) = flagIfWatching c n.
Proof.
  destruct n as [? ? ? ? ? ? ? ? ? ? ? ws fl fs ? ?].
  unfold flagIfWatching, watches, flagsOf; simpl.
  destruct ws as [ws|]; simpl; [|done].
  destruct (JS.includes c ws); simpl; [|done].
  destruct (JS.includes c (default [] fs)) eqn:Hin; simpl.
  - by rewrite Hin.
  - by rewrite includes_snoc.
Qed.

Lemma flagIfWatching_set_children c n cs :
  flagIfWatching c (set_children n cs) = set_children (flagIfWatching c n) cs.
Proof. reflexivity. Qed.

Lemma set_children_twice n cs cs' :
  set_children (set_children n cs) cs' = set_children n cs'.
Proof. reflexivity. Qed.

Lemma traverse_idemp c n : traverse c (traverse c n) = traverse c n.
Proof.
  induction n as [n IH] using MindMapData_tree_ind.
  rewrite (traverse_eq c n) at 1. rewrite traverse_eq.
  rewrite flagIfWatching_set_children, flagIfWatching_idemp.
  rewrite set_children_twice. rewrite (traverse_eq c n). f_equal.
  unfold kids in IH. cbn [children set_children].
  destruct (children n) as [cs|]; [|done]. simpl in *. f_equal.
  rewrite map_map. apply map_ext_Forall. exact IH.
Qed.

Lemma nodes_traverse c n : nodes (traverse c n) = map (traverse c) (nodes n).
Proof.
  induction n as [n IH] using MindMapData_tree_ind.
  rewrite (nodes_unfold n), nodes_unfold. cbn [map]. f_equal.
  unfold kids in *. rewrite traverse_eq. cbn [children set_children].
  destruct (children n) as [cs|]; [|done]. simpl in *.
  induction IH as [|k ks Hk _ IHks]; [done|].
  cbn [map flat_map]. by rewrite map_app, Hk, IHks.
Qed.

Lemma traverse_watched c n :
  watchedNodeIds (traverse c n) = watchedNodeIds n.
Proof. by rewrite traverse_eq. Qed.

Lemma traverse_id c n : id (traverse c n) = id n.
Proof. by rewrite traverse_eq. Qed.

Lemma traverse_flagged c n :
  isFlaggedForReview (traverse c n) =
  if watches c n then Some true else isFlaggedForReview n.
Proof. by rewrite traverse_eq. Qed.

Lemma traverse_flags c n :
  flaggedSourceIds (traverse c n) =
  if watches c n && negb (JS.includes c (flagsOf n))
  then Some (flagsOf n ++ [c])
  else flaggedSourceIds n.
Proof. by rewrite traverse_eq. Qed.

Lemma count_occ_snoc_absent (c : string) l :
  c ∉ l -> count_occ String.string_dec (l ++ [c]) c = 1%nat.
Proof.
  intros Hnot. rewrite count_occ_app. simpl.
  destruct (String.string_dec c c); [|done].
  assert (count_occ String.string_dec l c = 0%nat) as ->; [|done].
  apply count_occ_not_In. by rewrite <- list_elem_of_In.
Qed.

(** C5: flagging is idempotent for a fixed changed id.  A second run
    returns the tree of the first run; in the result every node that
    watches the changed id is flagged for review and lists the id among
    its flag sources; and a run appends the id to a node's flag sources
    only when the node watches it and does not list it yet, so no run
    ever adds a second copy. *)
Theorem checkDependencies_idempotent (T : MindMapData) (c : string) :
  checkDependencies (checkDependencies T c) c = checkDependencies T c
  /\ Forall (fun n => watches c n = true ->
                      isFlaggedForReview n = Some true /\ c ∈ flagsOf n)
       (nodes (checkDependencies T c))
  /\ Forall2 (fun m n =>
                id n = id m
                /\ watchedNodeIds n = watchedNodeIds m
                /\ flagsOf n =
                   (if watches c m && negb (JS.includes c (flagsOf m))
                    then flagsOf m ++ [c] else flagsOf m)
                /\ (c ∉ flagsOf m -> watches c m = true ->
                    count_occ String.string_dec (flagsOf n) c = 1%nat))
       (nodes T) (nodes (checkDependencies T c)).
Proof.
  unfold checkDependencies. split; [apply traverse_idemp|].
  rewrite nodes_traverse. split.
  - apply Forall_fmap, Forall_forall. intros m _. simpl.
    unfold watches at 1. rewrite traverse_watched. fold (watches c m).
    intros Hw. rewrite traverse_flagged, Hw. split; [done|].
    unfold flagsOf at 1. rewrite traverse_flags, Hw. simpl.
    destruct (JS.includes c (flagsOf m)) eqn:Hin; simpl.
    + by apply includes_true.
    + apply elem_of_app. right. by left.
  - apply Forall2_fmap_r, Forall_Forall2_diag, Forall_forall. intros m _.
    unfold compose. rewrite traverse_id, traverse_watched. repeat split.
    + unfold flagsOf at 1. rewrite traverse_flags.
      by destruct (watches c m && negb (JS.includes c (flagsOf m))).
    + intros Hnot Hw. unfold flagsOf at 1. rewrite traverse_flags, Hw.
      apply includes_false in Hnot as Hf. rewrite Hf. simpl.
      by apply count_occ_snoc_absent.
Qed.

Lemma checkDependencies_idempotent_witness :
  flagsOf (watcherNode "b" ["a2"] None None) = []
  /\ (flagsOf <$> nodes (checkDependencies sampleTree "a2"))
     = [[]; []; []; []; ["a2"]]
  /\ checkDependencies (checkDependencies sampleTree "a2") "a2"
     = checkDependencies sampleTree "a2".
Proof.
  split; [reflexivity|]. split; [reflexivity|].
  exact (proj1 (checkDependencies_idempotent sampleTree "a2")).
Defined.

(** ** History manager *)

Lemma slice0_nonneg {A} (l : list A) (e : Z) :
  (0 <= e)%Z -> JS.slice0 l e = take (Z.to_nat e) l.
Proof.
  intros He. unfold JS.slice0.
  destruct (Z.ltb_spec e 0) as [?|_]; [lia|].
  destruct (Z.le_gt_cases e (Z.of_nat (length l))).
  - by rewrite Z.min_l.
  - rewrite Z.min_r, Nat2Z.id by lia. rewrite !take_ge; [done|lia|lia].
Qed.

Lemma slice0_length {A} (l : list A) (e : Z) :
  (length (JS.slice0 l e) <= length l)%nat.
Proof. unfold JS.slice0. rewrite length_take. lia. Qed.

Lemma slice0_all {A} (l : list A) (e : Z) :
  e = Z.of_nat (length l) -> JS.slice0 l e = l.
Proof.
  intros ->. rewrite slice0_nonneg by lia. rewrite Nat2Z.id.
  by apply take_ge.
Qed.

Lemma evictOldest_small l :
  (length l <= HISTORY_LIMIT)%nat -> evictOldest l = l.
Proof.
  intros Hl. unfold evictOldest.
  destruct (Nat.ltb_spec HISTORY_LIMIT (length l)); [lia|done].
Qed.

Lemma evictOldest_length l :
  (length l <= S HISTORY_LIMIT)%nat ->
  (length (evictOldest l) <= HISTORY_LIMIT)%nat.
Proof.
  intros Hl. unfold evictOldest.
  destruct (Nat.ltb_spec HISTORY_LIMIT (length l)); [|done].
  rewrite length_drop. lia.
Qed.

Lemma evictOldest_last l e : last (evictOldest (l ++ [e])) = Some e.
Proof.
  unfold evictOldest.
  destruct (Nat.ltb_spec HISTORY_LIMIT (length (l ++ [e]))) as [Hlt|_].
  - rewrite length_app in Hlt. unfold HISTORY_LIMIT in Hlt. simpl in Hlt.
    destruct l as [|x l]; [simpl in Hlt; lia|].
    simpl. rewrite drop_0. apply last_snoc.
  - apply last_snoc.
Qed.

Lemma commit_history st d desc now :
  history (commitToHistory st d desc now).1 =
  evictOldest (JS.slice0 (history st) (historyIndex st + 1)
               ++ [mkEntry d desc now]).
Proof. reflexivity. Qed.

Lemma commit_index st d desc now :
  historyIndex (commitToHistory st d desc now).1 =
  (Z.of_nat (length (history (commitToHistory st d desc now).1)) - 1)%Z.
Proof. reflexivity. Qed.

Lemma commit_length_bound st d desc now :
  (length (history st) <= HISTORY_LIMIT)%nat ->
  (length (history (commitToHistory st d desc now).1) <= HISTORY_LIMIT)%nat.
Proof.
  intros Hl. rewrite commit_history. apply evictOldest_length.
  rewrite length_app. simpl. pose proof (slice0_length (history st)
    (historyIndex st + 1)). lia.
Qed.

Lemma restore_history st index :
  history (restoreFromHistory st index).1 = history st.
Proof.
  unfold restoreFromHistory.
  destruct (_ && _); [|done]. by destruct (JS.at_index _ _).
Qed.

Lemma undo_history st : history (undo st).1 = history st.
Proof.
  unfold undo. destruct (_ <=? _)%Z; [done|]. apply restore_history.
Qed.

Lemma redo_history st : history (redo st).1 = history st.
Proof.
  unfold redo. destruct (_ <=? _)%Z; [done|]. apply restore_history.
Qed.

Lemma reachable_bounded st :
  Reachable st -> (length (history st) <= HISTORY_LIMIT)%nat.
Proof.
  induction 1 as [|st st' _ IH Hstep].
  - unfold HISTORY_LIMIT. simpl. lia.
  - destruct Hstep.
    + by apply commit_length_bound.
    + by rewrite restore_history.
    + by rewrite undo_history.
    + by rewrite redo_history.
    + unfold HISTORY_LIMIT. simpl. lia.
    + unfold HISTORY_LIMIT. simpl. lia.
Qed.

Lemma commitAll_snoc st cs c :
  commitAll st (cs ++ [c]) =
  (commitToHistory (commitAll st cs) c.1.1 c.1.2 c.2).1.
Proof. unfold commitAll. by rewrite foldl_app. Qed.

Lemma commitAll_history cs :
  history (commitAll initialState cs) =
    drop (length cs - HISTORY_LIMIT) (asEntry <$> cs)
  /\ historyIndex (commitAll initialState cs) =
     (Z.of_nat (length (history (commitAll initialState cs))) - 1)%Z.
Proof.
  induction cs as [|c cs [IHh IHi]] using rev_ind; [done|].
  rewrite commitAll_snoc. split; [|apply commit_index].
  rewrite commit_history.
  rewrite slice0_all by lia. rewrite IHh.
  rewrite fmap_app, length_app. cbn [fmap list_fmap length].
  fold (asEntry c).
  assert (length (asEntry <$> cs) = length cs) as Hlen by apply length_fmap.
  unfold evictOldest. rewrite length_app, length_drop, Hlen. cbn [length].
  destruct (Nat.ltb_spec HISTORY_LIMIT
              (length cs - (length cs - HISTORY_LIMIT) + 1)) as [Hlt|Hge].
  - unfold HISTORY_LIMIT in *.
    rewrite drop_app_le by (rewrite length_drop; lia).
    rewrite drop_drop.
    rewrite drop_app_le by lia. do 2 f_equal. lia.
  - unfold HISTORY_LIMIT in *.
    rewrite drop_app_le by lia. do 2 f_equal. lia.
Qed.

Lemma restore_index st index :
  (-1 <= historyIndex st <= Z.of_nat (length (history st)) - 1)%Z ->
  (-1 <= historyIndex (restoreFromHistory st index).1
      <= Z.of_nat (length (history (restoreFromHistory st index).1)) - 1)%Z.
Proof.
  intros Hst. unfold restoreFromHistory.
  destruct (_ && _) eqn:Hrange; [|done].
  destruct (JS.at_index _ _); [|done]. simpl.
  apply andb_true_iff in Hrange as [H0 H1]. lia.
Qed.

Lemma reachable_index st :
  Reachable st ->
  (-1 <= historyIndex st <= Z.of_nat (length (history st)) - 1)%Z.
Proof.
  induction 1 as [|st st' _ IH Hstep]; [simpl; lia|].
  destruct Hstep.
  - rewrite commit_index. lia.
  - by apply restore_index.
  - unfold undo. destruct (_ <=? _)%Z; [done|]. by apply restore_index.
  - unfold redo. destruct (_ <=? _)%Z; [done|]. by apply restore_index.
  - simpl. lia.
  - simpl. lia.
Qed.


(** C3: a commit made while the index is before the last entry keeps the
    snapshots up to the index, drops every later one, and appends the
    new snapshot; this holds in every state with a valid index and at most
    ten entries, so in every state the history manager can reach.  After
    commit, commit, undo, commit the stack holds the
    first and the third snapshot only. *)
Theorem commit_discards_redo_branch :
  (forall st newData description now,
     (-1 <= historyIndex st < Z.of_nat (length (history st)) - 1)%Z ->
     (length (history st) <= HISTORY_LIMIT)%nat ->
     history (commitToHistory st newData description now).1 =
       take (Z.to_nat (historyIndex st + 1)) (history st)
       ++ [mkEntry newData description now])
  /\ (forall st newData description now,
        Reachable st ->
        (historyIndex st < Z.of_nat (length (history st)) - 1)%Z ->
        history (commitToHistory st newData description now).1 =
          take (Z.to_nat (historyIndex st + 1)) (history st)
          ++ [mkEntry newData description now])
  /\ (forall d1 s1 t1 d2 s2 t2 d3 s3 t3,
        let a := (commitToHistory initialState d1 s1 t1).1 in
        let b := (commitToHistory a d2 s2 t2).1 in
        let c := (undo b).1 in
        let d := (commitToHistory c d3 s3 t3).1 in
        history c = [mkEntry d1 s1 t1; mkEntry d2 s2 t2]
        /\ historyIndex c = 0%Z
        /\ mindMap c = Some d1
        /\ history d = [mkEntry d1 s1 t1; mkEntry d3 s3 t3]
        /\ length (history d) = 2%nat
        /\ historyIndex d = 1%Z).
Proof.
  assert (forall st newData description now,
     (-1 <= historyIndex st < Z.of_nat (length (history st)) - 1)%Z ->
     (length (history st) <= HISTORY_LIMIT)%nat ->
     history (commitToHistory st newData description now).1 =
       take (Z.to_nat (historyIndex st + 1)) (history st)
       ++ [mkEntry newData description now]) as Htruncate.
  { intros st newData description now Hidx Hlen.
    rewrite commit_history. rewrite slice0_nonneg by lia.
    apply evictOldest_small. unfold HISTORY_LIMIT in *.
    rewrite length_app, length_take. simpl. lia. }
  split; [exact Htruncate|]. split.
  - intros st newData description now Hreach Hidx.
    apply Htruncate; [|by apply reachable_bounded].
    pose proof (reachable_index st Hreach). lia.
  - intros. repeat split; reflexivity.
Qed.

Lemma commit_discards_redo_branch_witness :
  history (commitToHistory rewoundState (bareNode "3" "doc" None) "fourth" 3).1
  = [mkEntry (bareNode "0" "doc" None) "first" 0;
     mkEntry (bareNode "3" "doc" None) "fourth" 3].
Proof.
  apply (proj1 commit_discards_redo_branch rewoundState).
  - simpl. lia.
  - unfold HISTORY_LIMIT. simpl. lia.
Defined.

(** C4: the stack never holds more than ten snapshots.  Eleven commits
    in a row from the empty history leave exactly ten entries, the first
    committed one being the one dropped; and every commit leaves the index
    on the last entry, which is the snapshot just committed. *)
Theorem history_capacity :
  HISTORY_LIMIT = 10%nat
  /\ (forall st, Reachable st -> (length (history st) <= HISTORY_LIMIT)%nat)
  /\ (forall cs, length cs = S HISTORY_LIMIT ->
        history (commitAll initialState cs) = drop 1 (asEntry <$> cs)
        /\ length (history (commitAll initialState cs)) = HISTORY_LIMIT)
  /\ (forall st newData description now,
        let st' := (commitToHistory st newData description now).1 in
        historyIndex st' = (Z.of_nat (length (history st')) - 1)%Z
        /\ last (history st') = Some (mkEntry newData description now)
        /\ mindMap st' = Some newData).
Proof.
  split; [reflexivity|]. split; [exact reachable_bounded|]. split.
  - intros cs Hlen. destruct (commitAll_history cs) as [Hh _].
    rewrite Hh, Hlen. unfold HISTORY_LIMIT.
    replace (11 - 10)%nat with 1%nat by lia. split; [done|].
    rewrite length_drop, length_fmap, Hlen. unfold HISTORY_LIMIT. lia.
  - intros st newData description now st'. subst st'.
    split; [apply commit_index|]. split; [|reflexivity].
    rewrite commit_history. apply evictOldest_last.
Qed.

Lemma history_capacity_witness :
  history (commitAll initialState elevenCommits)
  = drop 1 (asEntry <$> elevenCommits).
Proof.
  destruct history_capacity as (_ & _ & Heleven & _).
  apply (Heleven elevenCommits). reflexivity.
Defined.

(** ** Mutation pipeline: the update that lands *)

(** The complementary case: an id that the document contains is updated
    and the result committed. *)
Lemma updateNodeInTree_hit (st : AppState) (T : MindMapData)
    (nodeId : string) (updateFn : MindMapData -> NodeUpdate)
    (actionDescription : string) (shouldAutoSave triggerDependencyCheck : bool)
    (now : Z) :
  mindMap st = Some T ->
  nodeId ∈ node_ids T ->
  let r := updateNodeInTree st nodeId updateFn actionDescription
             shouldAutoSave triggerDependencyCheck now in
  exists doc,
    mindMap r.1 = Some doc
    /\ last (history r.1) = Some (mkEntry doc actionDescription now)
    /\ CalledUpdateFn nodeId ∈ r.2
    /\ LoggerInfo "Committed State to History" ∈ r.2.
Proof.
  intros Hmap Hin r. subst r. unfold updateNodeInTree, deepClone.
  rewrite Hmap.
  destruct (findNodeAndPath_present T nodeId [] Hin) as [target ->].
  set (clone1 := assignAt _ T nodeId).
  destruct triggerDependencyCheck.
  - exists (checkDependencies clone1 nodeId).
    unfold app_bind. cbn [commitToHistory].
    destruct (shouldAutoSave && _); cbn [fst snd saveSessionFile mindMap history];
      (split; [done|]); (split; [apply evictOldest_last|]);
      split; set_solver.
  - exists clone1.
    unfold app_bind. cbn [commitToHistory].
    destruct (shouldAutoSave && _); cbn [fst snd saveSessionFile mindMap history];
      (split; [done|]); (split; [apply evictOldest_last|]);
      split; set_solver.
Qed.

Example updateNodeInTree_renames_a2 :
  let st := mkApp (Some sampleTree) [mkEntry sampleTree "Initial Generation" 0]
              0 false false false in
  let rename n := with_label (spread n) "Renamed" in
  let r := updateNodeInTree st "a2" rename "Rename" false true 7 in
  ((fun doc => label <$> nodes doc) <$> mindMap r.1)
    = Some ["Root"; "A"; "A1"; "Renamed"; "b"]
  /\ ((fun doc => isFlaggedForReview <$> nodes doc) <$> mindMap r.1)
     = Some [None; None; None; None; Some true]
  /\ length (history r.1) = 2%nat
  /\ historyIndex r.1 = 1%Z
  /\ r.2 = [CalledUpdateFn "a2"; RanCheckDependencies "a2";
            LoggerInfo "Committed State to History"].
Proof. repeat split; vm_compute; reflexivity. Qed.


(** ** Decision auto-linker *)

Lemma append_cons a s t : String a s +:+ t = String a (s +:+ t).
Proof. reflexivity. Qed.

Lemma append_nil t : "" +:+ t = t.
Proof. reflexivity. Qed.

Lemma startsWith_spec p s :
  JS.startsWith p s = true <-> exists post, s = p +:+ post.
Proof.
  revert s. induction p as [|a p IH]; intros s; simpl.
  - split; [by exists s|done].
  - destruct s as [|b s].
    + split; [done|]. intros [post E]. by rewrite append_cons in E.
    + destruct (decide (a = b)) as [->|Hne].
      * rewrite IH. split; intros [post E]; exists post;
          rewrite append_cons in *; congruence.
      * split; [done|]. intros [post E]. rewrite append_cons in E.
        congruence.
Qed.

Lemma str_includes_spec k s :
  JS.str_includes k s = true <-> exists pre post, s = pre +:+ k +:+ post.
Proof.
  induction s as [|c s IH]; simpl.
  - rewrite orb_false_r, startsWith_spec. split.
    + intros [post E]. by exists "", post.
    + intros (pre & post & E). destruct pre; [by exists post|].
      by rewrite append_cons in E.
  - rewrite orb_true_iff, startsWith_spec, IH. split.
    + intros [[post E]|(pre & post & E)].
      * by exists "", post.
      * exists (String c pre), post. by rewrite append_cons, E.
    + intros (pre & post & E). destruct pre as [|a pre].
      * left. by exists post.
      * right. exists pre, post. rewrite append_cons in E. congruence.
Qed.

Lemma looksPositive_spec b :
  looksPositive b = true <-> containsKeyword (branch_label b).
Proof.
  unfold looksPositive, containsKeyword. rewrite existsb_exists. split.
  - intros (k & Hk & Hinc). apply str_includes_spec in Hinc as (pre & post & E).
    exists k, pre, post. by rewrite list_elem_of_In.
  - intros (k & pre & post & Hk & E). exists k. rewrite <- list_elem_of_In.
    split; [done|]. apply str_includes_spec. by exists pre, post.
Qed.

Lemma looksPositive_false b :
  looksPositive b = false <-> ~ containsKeyword (branch_label b).
Proof. rewrite <- looksPositive_spec. by destruct (looksPositive b). Qed.

Lemma findIndex_from_spec {A} (p : A -> bool) l i :
  (findIndex_from p l i = (-1)%Z /\ Forall (fun x => p x = false) l)
  \/ (exists j x, findIndex_from p l i = (i + Z.of_nat j)%Z
        /\ l !! j = Some x /\ p x = true
        /\ forall j' y, (j' < j)%nat -> l !! j' = Some y -> p y = false).
Proof.
  revert i. induction l as [|a l IH]; intros i; simpl.
  - left. by split.
  - destruct (p a) eqn:Hpa.
    + right. exists 0%nat, a. repeat split; [lia|done|]. intros; lia.
    + destruct (IH (i + 1)%Z) as [[E Hall]|(j & x & E & Hx & Hpx & Hmin)].
      * left. split; [done|]. by constructor.
      * right. exists (S j), x. repeat split; [lia|done|done|].
        intros [|j'] y Hlt Hy; simpl in Hy; [congruence|].
        apply (Hmin j'); [lia|done].
Qed.

Lemma targetIndex_chosen bs :
  bs <> [] ->
  exists b, bs !! Z.to_nat (targetIndex bs) = Some b
            /\ ChosenBranch bs (Z.to_nat (targetIndex bs)).
Proof.
  intros Hne. unfold targetIndex, findIndex.
  destruct (findIndex_from_spec looksPositive bs 0)
    as [[E Hall]|(j & x & E & Hx & Hpx & Hmin)]; rewrite E.
  - rewrite decide_False by (intros H; by apply H).
    destruct bs as [|b bs]; [done|]. exists b. split; [done|].
    right. split; [done|]. intros b' Hb'.
    apply looksPositive_false. rewrite Forall_forall in Hall. by apply Hall.
  - rewrite decide_True by lia.
    replace (Z.to_nat (0 + Z.of_nat j)) with j by lia.
    exists x. split; [done|]. left. exists x. split; [done|].
    split; [by apply looksPositive_spec|].
    intros j' b' Hlt Hb'. apply looksPositive_false. by apply (Hmin j').
Qed.

Lemma truthy_ostring_spec o :
  JS.truthy_ostring o = true <-> exists t, o = Some t /\ t <> "".
Proof.
  unfold JS.truthy_ostring, JS.truthy_string. destruct o as [t|].
  - destruct (decide (t = "")) as [->|Hne].
    + split; [done|]. intros (t & [= <-] & ?). done.
    + split; [|done]. by exists t.
  - split; [done|]. by intros (t & ? & _).
Qed.

Lemma hasLink_false bs :
  hasLink bs = false <-> forall b, b ∈ bs -> ~ hasTarget b.
Proof.
  unfold hasLink, hasTarget. split.
  - intros Hno b Hb Ht. apply truthy_ostring_spec in Ht.
    assert (existsb (fun b => JS.truthy_ostring (targetStepId b)) bs = true)
      as Hyes; [|congruence].
    apply existsb_exists. exists b. by rewrite <- list_elem_of_In.
  - intros Hall. apply not_true_iff_false. intros Hyes.
    apply existsb_exists in Hyes as (b & Hb & Ht).
    apply (Hall b); [by apply list_elem_of_In|].
    by apply truthy_ostring_spec.
Qed.

Lemma autoLinkStep_eligible steps i step bs next :
  step_type step = decision -> branches step = Some bs -> bs <> [] ->
  (forall b, b ∈ bs -> ~ hasTarget b) -> steps !! S i = Some next ->
  autoLinkStep steps i step =
  withBranches step (linkBranch bs (step_id next)).
Proof.
  intros Hty Hbs Hne Hno Hnext. unfold autoLinkStep.
  rewrite Hty, Hbs. replace (i + 1)%nat with (S i) by lia. rewrite Hnext.
  destruct (Nat.ltb_spec 0 (length bs)) as [_|Hlen];
    [|destruct bs; [done|simpl in Hlen; lia]].
  apply hasLink_false in Hno. by rewrite Hno.
Qed.

Lemma autoLinkStep_ineligible steps i step :
  ~ Eligible steps i step -> autoLinkStep steps i step = step.
Proof.
  intros Hnot. unfold autoLinkStep.
  destruct (step_type step) eqn:Hty; [done|].
  destruct (branches step) as [bs|] eqn:Hbs; [|done].
  destruct (Nat.ltb_spec 0 (length bs)) as [Hlen|_]; [|done].
  replace (i + 1)%nat with (S i) by lia.
  destruct (steps !! S i) as [next|] eqn:Hnext; [|done].
  destruct (hasLink bs) eqn:Hlink; [done|].
  exfalso. apply Hnot. split; [done|]. exists bs. split; [done|].
  split; [by destruct bs; [simpl in Hlen; lia|]|].
  split; [by apply hasLink_false|]. by eexists.
Qed.

Lemma autoLinkDecisions_lookup steps i :
  autoLinkDecisions steps !! i = autoLinkStep steps i <$> steps !! i.
Proof. unfold autoLinkDecisions. apply list_lookup_imap. Qed.

Lemma linkBranch_insert bs nextId b :
  bs !! Z.to_nat (targetIndex bs) = Some b ->
  linkBranch bs nextId =
  <[Z.to_nat (targetIndex bs) := withTarget b nextId]> bs.
Proof. intros Hb. unfold linkBranch. by rewrite Hb. Qed.

(** C7: the linker rewrites exactly the eligible steps.  A step that is
    not an eligible decision comes out as it went in.  An eligible one
    comes out with the target of one branch, the first with a positive
    label or else the first, set to the id of the step that follows, all
    other branches as before; with a non-empty following id the step does
    change.  Branches "Yes"/"No" link "Yes"; "Retry"/"Abort" link "Retry". *)
Theorem autoLinkDecisions_links_chosen_branch :
  (forall steps, length (autoLinkDecisions steps) = length steps)
  /\ (forall steps i step,
        steps !! i = Some step -> ~ Eligible steps i step ->
        autoLinkDecisions steps !! i = Some step)
  /\ (forall steps i step bs next,
        steps !! i = Some step ->
        step_type step = decision -> branches step = Some bs -> bs <> [] ->
        (forall b, b ∈ bs -> ~ hasTarget b) ->
        steps !! S i = Some next ->
        exists j b,
          ChosenBranch bs j /\ bs !! j = Some b
          /\ autoLinkDecisions steps !! i =
             Some (withBranches step (<[j := withTarget b (step_id next)]> bs))
          /\ (step_id next <> "" -> autoLinkDecisions steps !! i <> Some step))
  /\ (forall i n next,
        autoLinkDecisions [twoWayDecision i n "Yes" "No"; next] =
        [withBranches (twoWayDecision i n "Yes" "No")
           [mkBranch (i +:+ "-1") "Yes" (Some (step_id next));
            mkBranch (i +:+ "-2") "No" None];
         next])
  /\ (forall i n next,
        autoLinkDecisions [twoWayDecision i n "Retry" "Abort"; next] =
        [withBranches (twoWayDecision i n "Retry" "Abort")
           [mkBranch (i +:+ "-1") "Retry" (Some (step_id next));
            mkBranch (i +:+ "-2") "Abort" None];
         next]).
Proof.
  assert (forall d next, autoLinkStep [d; next] 1 next = next) as Hlast.
  { intros d next. unfold autoLinkStep. simpl.
    destruct (step_type next); [done|].
    destruct (branches next) as [bs|]; [|done]. by destruct (0 <? length bs)%nat. }
  split; [|split; [|split; [|split]]].
  - intros steps. unfold autoLinkDecisions. apply length_imap.
  - intros steps i step Hi Hnot.
    rewrite autoLinkDecisions_lookup, Hi. simpl.
    by rewrite autoLinkStep_ineligible.
  - intros steps i step bs next Hi Hty Hbs Hne Hno Hnext.
    destruct (targetIndex_chosen bs Hne) as (b & Hb & Hchosen).
    exists (Z.to_nat (targetIndex bs)), b.
    split; [done|]. split; [done|].
    rewrite autoLinkDecisions_lookup, Hi. simpl.
    rewrite (autoLinkStep_eligible steps i step bs next) by done.
    rewrite (linkBranch_insert bs _ b Hb). split; [done|].
    intros Hid [= Heq].
    assert (branches (withBranches step
              (<[Z.to_nat (targetIndex bs) := withTarget b (step_id next)]> bs))
            = Some bs) as Hsame by (by rewrite Heq).
    simpl in Hsame. injection Hsame as Hsame.
    assert (bs !! Z.to_nat (targetIndex bs)
            = Some (withTarget b (step_id next))) as Hb'.
    { apply lookup_lt_Some in Hb as Hlt.
      pose proof (list_lookup_insert_eq bs _
                    (withTarget b (step_id next)) Hlt) as Hins.
      by rewrite Hsame in Hins. }
    rewrite Hb in Hb'. injection Hb' as Hb'.
    apply (Hno b); [by eapply list_elem_of_lookup_2|].
    exists (step_id next). split; [by rewrite Hb'|done].
  - intros i n next. unfold autoLinkDecisions. cbn [imap].
    unfold compose. rewrite Hlast. reflexivity.
  - intros i n next. unfold autoLinkDecisions. cbn [imap].
    unfold compose. rewrite Hlast. reflexivity.
Qed.

Lemma autoLinkDecisions_links_chosen_branch_witness :
  autoLinkDecisions
    [mkStep "s1" 1 action "Submit" "" "User" None None;
     twoWayDecision "s2" 2 "Rejected" "Token valid";
     mkStep "s3" 3 action "Done" "" "User" (Some true) None] !! 1%nat
  = Some (withBranches (twoWayDecision "s2" 2 "Rejected" "Token valid")
            [mkBranch "s2-1" "Rejected" None;
             mkBranch "s2-2" "Token valid" (Some "s3")])
  /\ autoLinkDecisions
       [mkStep "s1" 1 action "Submit" "" "User" None None;
        twoWayDecision "s2" 2 "Rejected" "Token valid";
        mkStep "s3" 3 action "Done" "" "User" (Some true) None] !! 0%nat
     = Some (mkStep "s1" 1 action "Submit" "" "User" None None).
Proof.
  split; [reflexivity|].
  destruct autoLinkDecisions_links_chosen_branch as (_ & Hkeep & _).
  apply Hkeep; [reflexivity|].
  intros [Hty _]. discriminate Hty.
Defined.

(** ** Process flow projector *)

Lemma buildIdMap_from_lookup steps (m0 : gmap string ProcessStep) t ts :
  foldl (fun m s => <[step_id s := s]> m) m0 steps !! t = Some ts ->
  (ts ∈ steps /\ step_id ts = t) \/ m0 !! t = Some ts.
Proof.
  revert m0. induction steps as [|s steps IH]; intros m0; simpl; [by right|].
  intros H. apply IH in H as [[Hin Hid]|H].
  - left. split; [by right|done].
  - destruct (decide (step_id s = t)) as [<-|Hne].
    + rewrite lookup_insert_eq in H. injection H as <-. left. split; [by left|done].
    + rewrite lookup_insert_ne in H by done. by right.
Qed.

Lemma buildIdMap_lookup steps t ts :
  buildIdMap steps !! t = Some ts -> ts ∈ steps /\ step_id ts = t.
Proof.
  intros H. apply buildIdMap_from_lookup in H as [H|H]; [done|].
  by rewrite lookup_empty in H.
Qed.

Lemma buildIdMap_from_None steps (m0 : gmap string ProcessStep) t :
  foldl (fun m s => <[step_id s := s]> m) m0 steps !! t = None <->
  m0 !! t = None /\ t ∉ step_id <$> steps.
Proof.
  revert m0. induction steps as [|s steps IH]; intros m0; cbn [foldl].
  - split; [intros H; split; [done|apply not_elem_of_nil]|by intros [? _]].
  - rewrite IH, fmap_cons, not_elem_of_cons.
    destruct (decide (step_id s = t)) as [<-|Hne].
    + rewrite lookup_insert_eq. split; [by intros [? _]|]. by intros (_ & ? & _).
    + rewrite lookup_insert_ne by done. naive_solver.
Qed.

Lemma buildIdMap_None steps t :
  buildIdMap steps !! t = None <-> t ∉ step_id <$> steps.
Proof.
  unfold buildIdMap. rewrite buildIdMap_from_None, lookup_empty. naive_solver.
Qed.

Lemma stepIds_elem steps s : s ∈ steps -> step_id s ∈ stepIds steps.
Proof.
  intros Hin. unfold stepIds. apply elem_of_list_to_set.
  apply list_elem_of_fmap. by exists s.
Qed.

Lemma stepIds_size steps : (size (stepIds steps) <= length steps)%nat.
Proof.
  unfold stepIds. induction steps as [|s steps IH].
  - rewrite fmap_nil, list_to_set_nil, size_empty. simpl. lia.
  - rewrite fmap_cons, list_to_set_cons, size_union_alt, size_singleton.
    cbn [length].
    assert (size (list_to_set (step_id <$> steps) ∖ {[step_id s]}
                    : gset string)
            <= size (list_to_set (step_id <$> steps) : gset string))%nat
      by (apply subseteq_size; set_solver).
    lia.
Qed.

Lemma findByNumber_elem steps n s :
  findByNumber steps n = Some s -> s ∈ steps.
Proof.
  unfold findByNumber. intros H. apply find_some in H as [H _].
  by apply list_elem_of_In.
Qed.

Lemma firstStep_elem s0 rest : firstStep s0 rest ∈ s0 :: rest.
Proof.
  unfold firstStep. revert s0. induction rest as [|c rest IH]; intros s0; simpl.
  - by left.
  - destruct (stepNumber s0 <? stepNumber c)%Z.
    + specialize (IH s0). set_solver.
    + right. apply IH.
Qed.

Section FlowTotal.

Variable randomSuffix : nat -> string.
Variable steps : list ProcessStep.
Variable idMap : gmap string ProcessStep.
Hypothesis idMap_steps :
  forall t ts, idMap !! t = Some ts -> step_id ts ∈ stepIds steps.

Lemma branch_loop_total self bs :
  (forall ts k, step_id ts ∈ stepIds steps -> is_Some (self ts k)) ->
  forall k, is_Some (branch_loop idMap self bs k).
Proof.
  intros Hself. induction bs as [|b bs IH]; intros k; simpl; [by eexists|].
  destruct (JS.truthy_ostring (targetStepId b)).
  - destruct (idMap !! default "" (targetStepId b)) as [ts|] eqn:Hts; [|done].
    destruct (Hself ts k (idMap_steps _ _ Hts)) as [[c k1] ->]. simpl.
    destruct (IH k1) as [[more k2] ->]. by eexists.
  - destruct (IH k) as [[more k1] ->]. by eexists.
Qed.

Lemma buildTree_total fuel :
  forall step visited k,
    step_id step ∈ stepIds steps ->
    (size (stepIds steps ∖ visited) < fuel)%nat ->
    is_Some (buildTree randomSuffix steps idMap fuel step visited k).
Proof.
  induction fuel as [|fuel IH]; intros step visited k Hid Hsize; [lia|].
  cbn [buildTree].
  destruct (decide (step_id step ∈ visited)) as [|Hfresh]; [by eexists|].
  assert (size (stepIds steps ∖ (visited ∪ {[step_id step]})) < fuel)%nat
    as Hless.
  { eapply Nat.lt_le_trans; [|apply Nat.lt_succ_r, Hsize].
    apply subset_size. set_solver. }
  destruct (step_type step).
  - destruct (negb _); [|by eexists].
    destruct (findByNumber _ _) as [next|] eqn:Hnext; [|by eexists].
    destruct (IH next (visited ∪ {[step_id step]}) k) as [[c k1] ->];
      [by apply stepIds_elem, (findByNumber_elem _ _ _ Hnext)|done|].
    by eexists.
  - destruct (branches step) as [bs|].
    + destruct (branch_loop_total
                  (fun target => buildTree randomSuffix steps idMap fuel
                                   target (visited ∪ {[step_id step]}))
                  bs) with (k := k) as [[cs k1] ->]; [|by eexists].
      intros ts k' Hts. by apply IH.
    + destruct (negb _); [|by eexists].
      destruct (findByNumber _ _) as [next|] eqn:Hnext; [|by eexists].
      destruct (IH next (visited ∪ {[step_id step]}) k) as [[c k1] ->];
        [by apply stepIds_elem, (findByNumber_elem _ _ _ Hnext)|done|].
      by eexists.
Qed.

End FlowTotal.

Section FlowFuel.

Variable randomSuffix : nat -> string.
Variable steps : list ProcessStep.
Variable idMap : gmap string ProcessStep.

Lemma branch_loop_mono self self' bs :
  (forall ts k r, self ts k = Some r -> self' ts k = Some r) ->
  forall k r, branch_loop idMap self bs k = Some r ->
              branch_loop idMap self' bs k = Some r.
Proof.
  intros Hsub. induction bs as [|b bs IH]; intros k r; [done|].
  cbn [branch_loop].
  destruct (JS.truthy_ostring (targetStepId b)).
  - destruct (idMap !! default "" (targetStepId b)) as [ts|]; [|apply IH].
    destruct (self ts k) as [[c k1]|] eqn:Hc; [|done].
    rewrite (Hsub _ _ _ Hc). simpl.
    destruct (branch_loop idMap self bs k1) as [[more k2]|] eqn:Hmore; [|done].
    by rewrite (IH _ _ Hmore).
  - destruct (branch_loop idMap self bs k) as [[more k1]|] eqn:Hmore; [|done].
    by rewrite (IH _ _ Hmore).
Qed.

Lemma buildTree_S fuel step visited k :
  buildTree randomSuffix steps idMap (S fuel) step visited k =
  if decide (step_id step ∈ visited)
  then Some (loopNode step (randomSuffix k), S k)
  else
    let newVisited := visited ∪ {[step_id step]} in
    let node cs := mkDisplay (step_id step) (StepData step) cs dt_step None in
    match step_type step, branches step with
    | decision, Some bs =>
        '(cs, k1) ← branch_loop idMap
                      (fun target =>
                         buildTree randomSuffix steps idMap fuel target
                           newVisited) bs k;
        Some (node cs, k1)
    | _, _ =>
        if negb (JS.truthy_obool (isEndState step)) then
          match findByNumber steps (stepNumber step + 1) with
          | Some next =>
              '(child, k1) ← buildTree randomSuffix steps idMap fuel next
                               newVisited k;
              Some (node [child], k1)
          | None => Some (node [], k)
          end
        else Some (node [], k)
    end.
Proof. reflexivity. Qed.

Lemma buildTree_fuel_S fuel :
  forall step visited k r,
    buildTree randomSuffix steps idMap fuel step visited k = Some r ->
    buildTree randomSuffix steps idMap (S fuel) step visited k = Some r.
Proof.
  induction fuel as [|fuel IH]; intros step visited k r Hrun; [done|].
  rewrite buildTree_S in Hrun. rewrite buildTree_S. cbv zeta in *.
  destruct (decide (step_id step ∈ visited)); [done|].
  destruct (step_type step).
  - destruct (negb _); [|done].
    destruct (findByNumber _ _) as [next|]; [|done].
    destruct (buildTree _ _ _ fuel next _ k) as [[c k1]|] eqn:Hc; [|done].
    by rewrite (IH _ _ _ _ Hc).
  - destruct (branches step) as [bs|].
    + destruct (branch_loop idMap _ bs k) as [[cs k1]|] eqn:Hcs; [|done].
      erewrite branch_loop_mono; [exact Hrun| |exact Hcs].
      intros ts k' r'. apply IH.
    + destruct (negb _); [|done].
      destruct (findByNumber _ _) as [next|]; [|done].
      destruct (buildTree _ _ _ fuel next _ k) as [[c k1]|] eqn:Hc; [|done].
      by rewrite (IH _ _ _ _ Hc).
Qed.

Lemma buildTree_fuel_le fuel fuel' step visited k r :
  (fuel <= fuel')%nat ->
  buildTree randomSuffix steps idMap fuel step visited k = Some r ->
  buildTree randomSuffix steps idMap fuel' step visited k = Some r.
Proof.
  induction 1 as [|fuel' _ IH]; [done|].
  intros Hrun. by apply buildTree_fuel_S, IH.
Qed.

End FlowFuel.

Lemma processFlowTree_total randomSuffix steps :
  match steps with
  | [] => processFlowTree randomSuffix steps = RootNull
  | _ :: _ => exists treeData, processFlowTree randomSuffix steps = RootTree treeData
  end.
Proof.
  destruct steps as [|s0 rest]; [done|].
  unfold processFlowTree.
  destruct (buildTree_total randomSuffix (s0 :: rest) (buildIdMap (s0 :: rest)))
    with (fuel := S (length (s0 :: rest))) (step := firstStep s0 rest)
         (visited := (∅ : gset string)) (k := 0%nat) as [[t k] ->].
  - intros t ts Hts. apply buildIdMap_lookup in Hts as [Hin _].
    by apply stepIds_elem.
  - apply stepIds_elem, firstStep_elem.
  - apply Nat.lt_succ_r. etrans; [|apply stepIds_size].
    apply subseteq_size. set_solver.
  - by eexists.
Qed.

Lemma string_length_append a b :
  String.length (a +:+ b) = (String.length a + String.length b)%nat.
Proof.
  induction a as [|c a IH]; [done|].
  rewrite append_cons. simpl. by rewrite IH.
Qed.

Lemma loopNode_id_synthetic step suffix :
  dn_id (loopNode step suffix) <> step_id step.
Proof.
  simpl. intros E. apply (f_equal String.length) in E.
  rewrite !string_length_append in E. simpl in E. lia.
Qed.

Lemma loopNode_isLoopNode step suffix :
  isLoopNode (loopNode step suffix) = true.
Proof.
  unfold isLoopNode, loopNode, loopAction. cbn [dn_id dn_data].
  apply andb_true_intro. split; [reflexivity|].
  cbn [withActionRole step_role step_action stepNumber].
  by rewrite !bool_decide_eq_true_2.
Qed.

(** *** Loop nodes stand for steps on the path *)

Lemma onPath_unfold path n :
  onPath path n
  = (path, n) :: flat_map (onPath (path ∪ {[dn_id n]})) (dn_children n).
Proof. by destruct n. Qed.

Lemma loopNode_LoopLeafOf step suffix : LoopLeafOf step (loopNode step suffix).
Proof. split; [by exists suffix|done]. Qed.

Lemma PathNodeOK_setLabel steps path n l :
  Forall (PathNodeOK steps) (onPath path n) ->
  Forall (PathNodeOK steps) (onPath path (setLabel n l)).
Proof.
  rewrite !onPath_unfold. cbn [setLabel dn_id dn_children].
  intros [Hn Hrest]%Forall_cons. by constructor.
Qed.

Lemma buildTree_fresh randomSuffix steps idMap fuel step visited k n k' :
  buildTree randomSuffix steps idMap fuel step visited k = Some (n, k') ->
  step_id step ∉ visited ->
  ExpandsStep step n.
Proof.
  destruct fuel as [|fuel]; [done|]. rewrite buildTree_S. intros Hrun Hfresh.
  rewrite decide_False in Hrun by done. cbv zeta in Hrun.
  assert (forall r : option (DisplayNode * nat),
            r = Some (n, k') ->
            (forall cs k1,
               r = Some (mkDisplay (step_id step) (StepData step) cs dt_step
                           None, k1) -> ExpandsStep step n) ->
            (exists cs k1,
               r = Some (mkDisplay (step_id step) (StepData step) cs dt_step
                           None, k1)) ->
            ExpandsStep step n) as Hshape.
  { intros r Hr Hk (cs & k1 & Hcs). by apply (Hk cs k1). }
  assert (forall cs k1,
            Some (mkDisplay (step_id step) (StepData step) cs dt_step None, k1)
            = Some (n, k') -> ExpandsStep step n) as Hnode.
  { intros cs k1 [= <- _]. done. }
  destruct (step_type step).
  - destruct (negb _); [|by apply (Hnode [] k)].
    destruct (findByNumber _ _); [|by apply (Hnode [] k)].
    destruct (buildTree _ _ _ _ _ _ _) as [[child k1]|]; [|done].
    by apply (Hnode [child] k1).
  - destruct (branches step) as [bs|].
    + destruct (branch_loop _ _ _ _) as [[cs k1]|]; [|done].
      by apply (Hnode cs k1).
    + destruct (negb _); [|by apply (Hnode [] k)].
      destruct (findByNumber _ _); [|by apply (Hnode [] k)].
      destruct (buildTree _ _ _ _ _ _ _) as [[child k1]|]; [|done].
      by apply (Hnode [child] k1).
Qed.

Lemma buildTree_on_path randomSuffix steps idMap fuel step visited k n k' :
  buildTree randomSuffix steps idMap fuel step visited k = Some (n, k') ->
  step_id step ∈ visited ->
  n = loopNode step (randomSuffix k) /\ k' = S k.
Proof.
  destruct fuel as [|fuel]; [done|]. rewrite buildTree_S. intros Hrun Hin.
  rewrite decide_True in Hrun by done. by injection Hrun as <- <-.
Qed.

Lemma branch_loop_app (idMap : gmap string ProcessStep) self bs1 bs2 :
  forall k cs k',
    branch_loop idMap self (bs1 ++ bs2) k = Some (cs, k') ->
    exists cs1 j cs2,
      branch_loop idMap self bs1 k = Some (cs1, j)
      /\ branch_loop idMap self bs2 j = Some (cs2, k')
      /\ cs = cs1 ++ cs2.
Proof.
  induction bs1 as [|b bs1 IH]; intros k cs k' Hrun.
  - by exists [], k, cs.
  - cbn [app branch_loop] in *.
    destruct (JS.truthy_ostring (targetStepId b)).
    + destruct (idMap !! default "" (targetStepId b)) as [target|];
        [|by apply IH].
      destruct (self target k) as [[child k1]|]; [|done]. simpl in *.
      destruct (branch_loop idMap self (bs1 ++ bs2) k1) as [[more k2]|]
        eqn:Hmore; [|done].
      simpl in Hrun. injection Hrun as <- <-.
      destruct (IH _ _ _ Hmore) as (cs1 & j & cs2 & -> & H2 & ->).
      simpl. by exists (setLabel child (branch_label b) :: cs1), j, cs2.
    + destruct (branch_loop idMap self (bs1 ++ bs2) k) as [[more k1]|]
        eqn:Hmore; [|done].
      simpl in Hrun. injection Hrun as <- <-.
      destruct (IH _ _ _ Hmore) as (cs1 & j & cs2 & -> & H2 & ->).
      simpl. by exists (missingNode b :: cs1), j, cs2.
Qed.

Lemma branch_loop_resolved (idMap : gmap string ProcessStep) self b rest t
    target k cs k' :
  targetStepId b = Some t -> t <> "" -> idMap !! t = Some target ->
  branch_loop idMap self (b :: rest) k = Some (cs, k') ->
  exists child j more,
    self target k = Some (child, j)
    /\ branch_loop idMap self rest j = Some (more, k')
    /\ cs = setLabel child (branch_label b) :: more.
Proof.
  intros Ht Hne Htarget. cbn [branch_loop]. rewrite Ht.
  cbn [JS.truthy_ostring default from_option Datatypes.id].
  unfold JS.truthy_string. rewrite decide_False by done. rewrite Htarget.
  destruct (self target k) as [[child j]|] eqn:Hchild; [|done]. simpl.
  destruct (branch_loop idMap self rest j) as [[more k2]|] eqn:Hmore;
    [|done].
  simpl. intros [= <- <-]. by exists child, j, more.
Qed.

Lemma branch_loop_on_path steps (idMap : gmap string ProcessStep) self path :
  (forall t target, idMap !! t = Some target -> target ∈ steps) ->
  (forall target k n k',
     target ∈ steps -> self target k = Some (n, k') ->
     Forall (PathNodeOK steps) (onPath path n)) ->
  forall bs k cs k',
    branch_loop idMap self bs k = Some (cs, k') ->
    Forall (PathNodeOK steps) (flat_map (onPath path) cs).
Proof.
  intros Hmap Hself. induction bs as [|b bs IH]; intros k cs k' Hrun.
  - injection Hrun as <- <-. constructor.
  - cbn [branch_loop] in Hrun.
    destruct (JS.truthy_ostring (targetStepId b)).
    + destruct (idMap !! default "" (targetStepId b)) as [target|] eqn:Ht;
        [|by eapply IH].
      destruct (self target k) as [[child k1]|] eqn:Hchild; [|done].
      simpl in Hrun.
      destruct (branch_loop idMap self bs k1) as [[more k2]|] eqn:Hmore;
        [|done].
      simpl in Hrun. injection Hrun as <- <-.
      cbn [flat_map]. apply Forall_app. split; [|by eapply IH].
      apply PathNodeOK_setLabel. eapply Hself; [|exact Hchild].
      by eapply Hmap.
    + destruct (branch_loop idMap self bs k) as [[more k1]|] eqn:Hmore;
        [|done].
      simpl in Hrun. injection Hrun as <- <-.
      cbn [flat_map]. apply Forall_app. split; [|by eapply IH].
      rewrite onPath_unfold. cbn [missingNode dn_children flat_map].
      constructor; [|constructor]. right. right. done.
Qed.

Lemma buildTree_path_nodes randomSuffix steps fuel :
  forall step visited k n k',
    step ∈ steps ->
    buildTree randomSuffix steps (buildIdMap steps) fuel step visited k
    = Some (n, k') ->
    Forall (PathNodeOK steps) (onPath visited n).
Proof.
  induction fuel as [|fuel IH]; intros step visited k n k' Hstep Hrun;
    [done|].
  destruct (decide (step_id step ∈ visited)) as [Hin|Hfresh].
  { destruct (buildTree_on_path _ _ _ _ _ _ _ _ _ Hrun Hin) as [-> _].
    rewrite onPath_unfold. cbn [loopNode dn_children flat_map].
    constructor; [|constructor]. right. left. exists step. cbn [fst snd].
    split; [done|]. split; [apply loopNode_LoopLeafOf|done]. }
  pose proof (buildTree_fresh _ _ _ _ _ _ _ _ _ Hrun Hfresh) as Hexp.
  rewrite onPath_unfold. constructor.
  { left. exists step. cbn [fst snd]. by split. }
  destruct Hexp as (-> & _ & _).
  rewrite buildTree_S in Hrun. rewrite decide_False in Hrun by done.
  cbv zeta in Hrun.
  assert ((if negb (JS.truthy_obool (isEndState step)) then
             match findByNumber steps (stepNumber step + 1) with
             | Some next =>
                 '(child, k1) ← buildTree randomSuffix steps
                                  (buildIdMap steps) fuel next
                                  (visited ∪ {[step_id step]}) k;
                 Some (mkDisplay (step_id step) (StepData step) [child]
                         dt_step None, k1)
             | None =>
                 Some (mkDisplay (step_id step) (StepData step) [] dt_step
                         None, k)
             end
           else Some (mkDisplay (step_id step) (StepData step) [] dt_step
                        None, k)) = Some (n, k') ->
          Forall (PathNodeOK steps)
            (flat_map (onPath (visited ∪ {[step_id step]})) (dn_children n)))
    as Hchain.
  { destruct (negb _); [|intros [= <- _]; constructor].
    destruct (findByNumber _ _) as [next|] eqn:Hnext;
      [|intros [= <- _]; constructor].
    destruct (buildTree _ _ _ _ _ _ _) as [[child k1]|] eqn:Hchild; [|done].
    intros [= <- _]. cbn [dn_children flat_map]. rewrite app_nil_r.
    eapply IH; [|exact Hchild]. by eapply findByNumber_elem. }
  destruct (step_type step); [by apply Hchain|].
  destruct (branches step) as [bs|]; [|by apply Hchain].
  destruct (branch_loop _ _ bs k) as [[cs k1]|] eqn:Hcs; [|done].
  simpl in Hrun. injection Hrun as <- <-. cbn [dn_children].
  eapply branch_loop_on_path; [| |exact Hcs].
  - intros t target Ht. by apply buildIdMap_lookup in Ht as [? _].
  - intros target k0 n0 k0' Htarget. by apply IH.
Qed.

(** C2: the flow projection always returns, and it cuts a cycle exactly
    where it closes.  An empty step list has no root; any other list,
    whatever cycles its branches form, gives a tree.  The builder started
    at any step of the list, with any visited-set, returns a node, the
    same one for every recursion bound above the number of steps.  A step
    that is already on the current path is rendered as a terminal loop
    node: it has no children, its id is a synthetic "loop-" id different
    from the step's own, and its action text names the step's sequence
    number.  A step that is not on the path is expanded under its own
    id.  The child that a decision gets for a branch with a resolved
    target, and the child that an action gets for its successor, is the
    result of the builder on that step with the path extended by the
    parent: the loop node, with one random draw, when the step is on the
    extended path, and the step's expansion otherwise.  In the tree of a
    step list every node is therefore the expansion of a step that is
    not among the nodes above it, a loop leaf for a step that is, or a
    placeholder leaf.  The two cyclic examples give s1[s2[loop to s1]]
    and a1[d1[a2[d2[loop to a1, end]], placeholder]]. *)
Theorem buildTree_terminates_with_loop_nodes :
  (forall randomSuffix steps,
     match steps with
     | [] => processFlowTree randomSuffix steps = RootNull
     | _ :: _ =>
         exists treeData, processFlowTree randomSuffix steps = RootTree treeData
     end)
  /\ (forall randomSuffix steps step visited k,
        step ∈ steps ->
        exists r, forall fuel,
          (length steps < fuel)%nat ->
          buildTree randomSuffix steps (buildIdMap steps) fuel step visited k
          = Some r)
  /\ (forall randomSuffix steps idMap fuel step visited k,
        step_id step ∈ visited ->
        buildTree randomSuffix steps idMap (S fuel) step visited k =
          Some (loopNode step (randomSuffix k), S k)
        /\ dn_children (loopNode step (randomSuffix k)) = []
        /\ dn_id (loopNode step (randomSuffix k)) =
             "loop-" +:+ step_id step +:+ "-" +:+ randomSuffix k
        /\ dn_id (loopNode step (randomSuffix k)) <> step_id step
        /\ dn_data (loopNode step (randomSuffix k)) =
             StepData (withActionRole step
                         ("↩ Loop to Step " +:+ pretty (stepNumber step))
                         "Process Cycle")
        /\ isLoopNode (loopNode step (randomSuffix k)) = true)
  /\ (forall randomSuffix steps idMap fuel step visited k n k',
        buildTree randomSuffix steps idMap fuel step visited k = Some (n, k') ->
        step_id step ∉ visited ->
        ExpandsStep step n)
  /\ (forall randomSuffix steps idMap fuel step visited k n k'
             bs1 b bs2 t target,
        buildTree randomSuffix steps idMap (S fuel) step visited k
        = Some (n, k') ->
        step_id step ∉ visited ->
        step_type step = decision ->
        branches step = Some (bs1 ++ b :: bs2) ->
        targetStepId b = Some t -> t <> "" -> idMap !! t = Some target ->
        exists cs1 j child j' cs2,
          branch_loop idMap
            (fun tg => buildTree randomSuffix steps idMap fuel tg
                         (visited ∪ {[step_id step]})) bs1 k
          = Some (cs1, j)
          /\ buildTree randomSuffix steps idMap fuel target
               (visited ∪ {[step_id step]}) j = Some (child, j')
          /\ branch_loop idMap
               (fun tg => buildTree randomSuffix steps idMap fuel tg
                            (visited ∪ {[step_id step]})) bs2 j'
             = Some (cs2, k')
          /\ dn_children n = cs1 ++ setLabel child (branch_label b) :: cs2
          /\ (step_id target ∈ visited ∪ {[step_id step]} ->
              child = loopNode target (randomSuffix j) /\ j' = S j)
          /\ (step_id target ∉ visited ∪ {[step_id step]} ->
              ExpandsStep target child))
  /\ (forall randomSuffix steps idMap fuel step visited k n k' next,
        buildTree randomSuffix steps idMap (S fuel) step visited k
        = Some (n, k') ->
        step_id step ∉ visited ->
        (step_type step = action \/ branches step = None) ->
        JS.truthy_obool (isEndState step) = false ->
        findByNumber steps (stepNumber step + 1) = Some next ->
        exists child,
          buildTree randomSuffix steps idMap fuel next
            (visited ∪ {[step_id step]}) k = Some (child, k')
          /\ dn_children n = [child]
          /\ (step_id next ∈ visited ∪ {[step_id step]} ->
              child = loopNode next (randomSuffix k) /\ k' = S k)
          /\ (step_id next ∉ visited ∪ {[step_id step]} ->
              ExpandsStep next child))
  /\ (forall randomSuffix steps treeData,
        processFlowTree randomSuffix steps = RootTree treeData ->
        Forall (PathNodeOK steps) (onPath ∅ treeData))
  /\ (forall randomSuffix,
        exists treeData,
          processFlowTree randomSuffix cyclicSteps = RootTree treeData
          /\ existsb isLoopNode (displayNodes treeData) = true
          /\ dn_id <$> displayNodes treeData
             = ["s1"; "s2"; "loop-s1-" +:+ randomSuffix 0])
  /\ (forall randomSuffix,
        exists treeData,
          processFlowTree randomSuffix cyclicFlow = RootTree treeData
          /\ existsb isLoopNode (displayNodes treeData) = true
          /\ dn_id <$> displayNodes treeData
             = ["a1"; "d1"; "a2"; "d2"; "loop-a1-" +:+ randomSuffix 0;
                "end"; "missing-d1-n"]).
Proof.
  split; [exact processFlowTree_total|].
  split; [|split; [|split; [|split; [|split; [|split; [|split]]]]]].
  - intros randomSuffix steps step visited k Hstep.
    destruct (buildTree_total randomSuffix steps (buildIdMap steps))
      with (fuel := S (length steps)) (step := step) (visited := visited)
           (k := k) as [r Hr].
    + intros t ts Hts. apply buildIdMap_lookup in Hts as [Hin _].
      by apply stepIds_elem.
    + by apply stepIds_elem.
    + apply Nat.lt_succ_r. etrans; [|apply stepIds_size].
      apply subseteq_size. set_solver.
    + exists r. intros fuel Hfuel.
      apply (buildTree_fuel_le _ _ _ (S (length steps))); [lia|done].
  - intros randomSuffix steps idMap fuel step visited k Hvisited.
    cbn [buildTree]. rewrite decide_True by done.
    repeat split.
    + apply loopNode_id_synthetic.
    + apply loopNode_isLoopNode.
  - intros randomSuffix steps idMap fuel step visited k n k'.
    apply buildTree_fresh.
  - intros randomSuffix steps idMap fuel step visited k n k' bs1 b bs2 t
      target Hrun Hfresh Hty Hbs Ht Hne Htarget.
    rewrite buildTree_S in Hrun. rewrite decide_False in Hrun by done.
    cbv zeta in Hrun. rewrite Hty, Hbs in Hrun.
    destruct (branch_loop _ _ (bs1 ++ b :: bs2) k) as [[cs k1]|] eqn:Hcs;
      [|done].
    simpl in Hrun. injection Hrun as <- <-.
    apply branch_loop_app in Hcs as (cs1 & j & rest & Hcs1 & Hrest & ->).
    destruct (branch_loop_resolved _ _ _ _ _ _ _ _ _ Ht Hne Htarget Hrest)
      as (child & j' & cs2 & Hchild & Hcs2 & ->).
    exists cs1, j, child, j', cs2.
    split; [done|]. split; [done|]. split; [done|]. split; [done|]. split.
    + intros Hon. by apply (buildTree_on_path _ _ _ _ _ _ _ _ _ Hchild).
    + intros Hoff. by apply (buildTree_fresh _ _ _ _ _ _ _ _ _ Hchild).
  - intros randomSuffix steps idMap fuel step visited k n k' next
      Hrun Hfresh Hkind Hend Hnext.
    rewrite buildTree_S in Hrun. rewrite decide_False in Hrun by done.
    cbv zeta in Hrun.
    assert (('(child, k1) ← buildTree randomSuffix steps idMap fuel next
                              (visited ∪ {[step_id step]}) k;
             Some (mkDisplay (step_id step) (StepData step) [child] dt_step
                     None, k1)) = Some (n, k')) as Hchain.
    { rewrite Hend, Hnext in Hrun. cbn [negb] in Hrun.
      destruct Hkind as [Hty|Hbs]; [by rewrite Hty in Hrun|].
      rewrite Hbs in Hrun. by destruct (step_type step). }
    destruct (buildTree randomSuffix steps idMap fuel next _ k)
      as [[child k1]|] eqn:Hchild; [|done].
    simpl in Hchain. injection Hchain as <- <-.
    exists child. split; [done|]. split; [done|]. split.
    + intros Hon. by apply (buildTree_on_path _ _ _ _ _ _ _ _ _ Hchild).
    + intros Hoff. by apply (buildTree_fresh _ _ _ _ _ _ _ _ _ Hchild).
  - intros randomSuffix steps treeData Hrun. unfold processFlowTree in Hrun.
    destruct steps as [|s0 rest]; [done|].
    destruct (buildTree _ _ _ _ _ _ _) as [[t k]|] eqn:Hbuild; [|done].
    injection Hrun as <-.
    eapply buildTree_path_nodes; [|exact Hbuild]. apply firstStep_elem.
  - intros randomSuffix. eexists. split; [vm_compute; reflexivity|].
    split; vm_compute; reflexivity.
  - intros randomSuffix. eexists. split; [vm_compute; reflexivity|].
    split; vm_compute; reflexivity.
Qed.

Lemma buildTree_terminates_with_loop_nodes_witness :
  let s1 := mkStep "s1" 1 decision "First check" "" "User" None
              (Some [mkBranch "b1" "Continue" (Some "s2")]) in
  let s2 := mkStep "s2" 2 decision "Second check" "" "User" None
              (Some [mkBranch "b2" "Start over" (Some "s1")]) in
  buildTree (fun k => pretty k) cyclicSteps (buildIdMap cyclicSteps) 1 s1
    {[ "s1"; "s2" ]} 0
  = Some (loopNode s1 "0", 1%nat)
  /\ exists n k',
       buildTree (fun k => pretty k) cyclicSteps (buildIdMap cyclicSteps) 2
         s2 {[ "s1" ]} 0 = Some (n, k')
       /\ ExpandsStep s2 n
       /\ dn_children n = [setLabel (loopNode s1 "0") "Start over"]
       /\ k' = 1%nat.
Proof.
  intros s1 s2.
  destruct buildTree_terminates_with_loop_nodes
    as (_ & _ & Hloop & Hfresh & Hbranch & _).
  split.
  - refine (proj1 (Hloop (fun k => pretty k) _ _ 0%nat _ _ 0%nat _)).
    apply (bool_decide_unpack _). vm_compute. exact I.
  - assert (step_id s2 ∉ ({[ "s1" ]} : gset string)) as Hoff.
    { apply (bool_decide_unpack _). vm_compute. exact I. }
    destruct (buildTree (fun k => pretty k) cyclicSteps
                (buildIdMap cyclicSteps) 2 s2 {[ "s1" ]} 0)
      as [[n k']|] eqn:Hrun; [|vm_compute in Hrun; discriminate Hrun].
    exists n, k'. split; [done|].
    split; [exact (Hfresh _ _ _ _ _ _ _ _ _ Hrun Hoff)|].
    destruct (Hbranch (fun k => pretty k) cyclicSteps
                (buildIdMap cyclicSteps) 1%nat s2 {[ "s1" ]} 0%nat n k'
                [] (mkBranch "b2" "Start over" (Some "s1")) [] "s1" s1
                Hrun Hoff eq_refl eq_refl eq_refl)
      as (cs1 & j & child & j' & cs2 & H1 & _ & H2 & Hchildren & Hon & _).
    + discriminate.
    + vm_compute. reflexivity.
    + injection H1 as <- <-.
      destruct Hon as [-> ->].
      { apply (bool_decide_unpack _). vm_compute. exact I. }
      injection H2 as <- <-. done.
Defined.

Section DanglingBranch.

Variable randomSuffix : nat -> string.
Variable steps : list ProcessStep.
Variable idMap : gmap string ProcessStep.

Lemma branch_loop_dangling self b rest k t :
  targetStepId b = Some t -> t <> "" -> idMap !! t = None ->
  branch_loop idMap self (b :: rest) k = branch_loop idMap self rest k.
Proof.
  intros Ht Hne Hnone. cbn [branch_loop]. rewrite Ht. simpl.
  unfold JS.truthy_string. rewrite decide_False by done. by rewrite Hnone.
Qed.

Lemma branch_loop_unresolved self b rest k :
  JS.truthy_ostring (targetStepId b) = false ->
  branch_loop idMap self (b :: rest) k =
  '(more, k1) ← branch_loop idMap self rest k;
  Some (missingNode b :: more, k1).
Proof. intros Ht. cbn [branch_loop]. by rewrite Ht. Qed.

Lemma branch_loop_skip self bs1 b bs2 t :
  targetStepId b = Some t -> t <> "" -> idMap !! t = None ->
  forall k, branch_loop idMap self (bs1 ++ b :: bs2) k =
            branch_loop idMap self (bs1 ++ bs2) k.
Proof.
  intros Ht Hne Hnone. induction bs1 as [|a bs1 IH]; intros k.
  - by apply (branch_loop_dangling _ _ _ _ t).
  - cbn [app branch_loop].
    destruct (JS.truthy_ostring (targetStepId a)).
    + destruct (idMap !! default "" (targetStepId a)); [|apply IH].
      destruct (self p k) as [[c k1]|]; [|done]. simpl. by rewrite IH.
    + by rewrite IH.
Qed.

Lemma buildTree_children_skip fuel step visited k bs1 b bs2 t :
  step_type step = decision ->
  branches step = Some (bs1 ++ b :: bs2) ->
  targetStepId b = Some t -> t <> "" -> idMap !! t = None ->
  (fun r => (dn_children r.1, r.2))
    <$> buildTree randomSuffix steps idMap fuel step visited k =
  (fun r => (dn_children r.1, r.2))
    <$> buildTree randomSuffix steps idMap fuel
          (withBranches step (bs1 ++ bs2)) visited k.
Proof.
  intros Hty Hbs Ht Hne Hnone. destruct fuel as [|fuel]; [done|].
  cbn [buildTree withBranches step_id step_type branches].
  destruct (decide (step_id step ∈ visited)); [done|].
  rewrite Hty, Hbs. rewrite (branch_loop_skip _ _ _ _ t) by done.
  by destruct (branch_loop _ _ _ _) as [[cs k1]|].
Qed.

End DanglingBranch.

(** C10: a branch whose target is a non-empty id that no step of the list
    carries adds nothing to the tree: the children of its decision step,
    and the random draws made, are those of the same step without that
    branch.  A branch without a target, or with the empty string as its
    target, adds the "Undefined Path" placeholder, whether or not a step
    carries the empty id.  In the example the decision with a dangling,
    an unresolved and a resolved branch has two children, the placeholder
    of the unresolved branch and the target of the resolved one; the
    decision whose one branch has the empty target has the placeholder
    as its one child. *)
Theorem dangling_branch_is_omitted :
  (forall randomSuffix steps fuel step visited k bs1 b bs2 t,
     step_type step = decision ->
     branches step = Some (bs1 ++ b :: bs2) ->
     targetStepId b = Some t -> t <> "" ->
     t ∉ step_id <$> steps ->
     (fun r => (dn_children r.1, r.2))
       <$> buildTree randomSuffix steps (buildIdMap steps) fuel step visited k =
     (fun r => (dn_children r.1, r.2))
       <$> buildTree randomSuffix steps (buildIdMap steps) fuel
             (withBranches step (bs1 ++ bs2)) visited k)
  /\ (forall idMap self b rest k,
        targetStepId b = None \/ targetStepId b = Some "" ->
        branch_loop idMap self (b :: rest) k =
        '(more, k1) ← branch_loop idMap self rest k;
        Some (mkDisplay ("missing-" +:+ branch_id b)
                (ActionData "Undefined Path") [] dt_placeholder
                (Some (branch_label b)) :: more, k1))
  /\ (forall randomSuffix,
        exists treeData,
          processFlowTree randomSuffix danglingSteps = RootTree treeData
          /\ dn_id <$> dn_children treeData = ["missing-u"; "t"]
          /\ dn_label <$> dn_children treeData = [Some "Later"; Some "Go"]
          /\ dn_type <$> dn_children treeData = [dt_placeholder; dt_step])
  /\ (forall randomSuffix,
        exists treeData,
          processFlowTree randomSuffix emptyTargetSteps = RootTree treeData
          /\ dn_children treeData
             = [mkDisplay "missing-e" (ActionData "Undefined Path") []
                  dt_placeholder (Some "Cleared")]).
Proof.
  split; [|split; [|split]].
  - intros randomSuffix steps fuel step visited k bs1 b bs2 t
      Hty Hbs Ht Hne Hnot.
    eapply buildTree_children_skip; try done.
    by apply buildIdMap_None.
  - intros idMap self b rest k Ht.
    apply branch_loop_unresolved. by destruct Ht as [->| ->].
  - intros randomSuffix. eexists. split; [vm_compute; reflexivity|].
    repeat split.
  - intros randomSuffix. eexists. split; vm_compute; reflexivity.
Qed.

Lemma dangling_branch_is_omitted_witness :
  (fun r => (dn_id <$> dn_children r.1, r.2))
    <$> buildTree (fun k => pretty k) danglingSteps (buildIdMap danglingSteps) 3
          (mkStep "d" 1 decision "Route" "" "User" None
             (Some [mkBranch "u" "Later" None; mkBranch "r" "Go" (Some "t")]))
          ∅ 0
  = Some (["missing-u"; "t"], 0%nat)
  /\ (fun r => (dn_children r.1, r.2))
       <$> buildTree (fun k => pretty k) danglingSteps
             (buildIdMap danglingSteps) 3
             (mkStep "d" 1 decision "Route" "" "User" None
                (Some ([] ++ mkBranch "g" "Ghost" (Some "nowhere")
                          :: [mkBranch "u" "Later" None;
                              mkBranch "r" "Go" (Some "t")])))
             ∅ 0
     = (fun r => (dn_children r.1, r.2))
       <$> buildTree (fun k => pretty k) danglingSteps
             (buildIdMap danglingSteps) 3
             (withBranches
                (mkStep "d" 1 decision "Route" "" "User" None
                   (Some ([] ++ mkBranch "g" "Ghost" (Some "nowhere")
                             :: [mkBranch "u" "Later" None;
                                 mkBranch "r" "Go" (Some "t")])))
                ([] ++ [mkBranch "u" "Later" None;
                        mkBranch "r" "Go" (Some "t")]))
             ∅ 0.
Proof.
  split; [vm_compute; reflexivity|].
  destruct dangling_branch_is_omitted as (Hskip & _).
  apply (Hskip (fun k => pretty k) danglingSteps 3%nat _ ∅ 0%nat []
           (mkBranch "g" "Ghost" (Some "nowhere"))
           [mkBranch "u" "Later" None; mkBranch "r" "Go" (Some "t")]
           "nowhere").
  - reflexivity.
  - reflexivity.
  - reflexivity.
  - discriminate.
  - apply (bool_decide_unpack _). vm_compute. exact I.
Defined.

(** C10, as it was stated, fails for the empty string: it is a target
    that is not null and that no step carries, yet its branch is not left
    out; the decision gets the placeholder for it. *)
Lemma dangling_empty_target_counterexample :
  ~ (forall steps fuel step visited k bs1 b bs2 t,
       step_type step = decision ->
       branches step = Some (bs1 ++ b :: bs2) ->
       targetStepId b = Some t ->
       t ∉ step_id <$> steps ->
       (fun r => (dn_children r.1, r.2))
         <$> buildTree (fun _ => "x") steps (buildIdMap steps) fuel step
               visited k
       = (fun r => (dn_children r.1, r.2))
         <$> buildTree (fun _ => "x") steps (buildIdMap steps) fuel
               (withBranches step (bs1 ++ bs2)) visited k).
Proof.
  intros Hclaim.
  specialize (Hclaim emptyTargetSteps 3%nat
                (mkStep "d" 1 decision "Route" "" "User" None
                   (Some [mkBranch "e" "Cleared" (Some "")]))
                ∅ 0%nat [] (mkBranch "e" "Cleared" (Some "")) [] ""
                eq_refl eq_refl eq_refl).
  assert ("" ∉ step_id <$> emptyTargetSteps) as Hnone.
  { apply (bool_decide_unpack _). vm_compute. exact I. }
  specialize (Hclaim Hnone). vm_compute in Hclaim. discriminate Hclaim.
Qed.

(** ** Mesh-to-tree projector *)

Lemma descIds_unfold t : node_ids t = id t :: descIds t.
Proof. apply node_ids_unfold. Qed.

Lemma edges_unfold t :
  edges t = map (fun c => (id t, c)) (kids t) ++ flat_map edges (kids t).
Proof. destruct t as [? ? ? ? ? ? ? ? ? ? ? ? ? ? ? [cs|]]; reflexivity. Qed.

Lemma flat_map_node_ids_perm (ts : list MindMapData) :
  flat_map node_ids ts ≡ₚ (id <$> ts) ++ flat_map descIds ts.
Proof.
  induction ts as [|t ts IH]; [done|].
  cbn [flat_map]. rewrite fmap_cons, descIds_unfold, IH.
  simpl. constructor. rewrite !(assoc_L (++)).
  f_equiv. apply Permutation_app_comm.
Qed.

Lemma descIds_edges t :
  forall x, x ∈ descIds t -> exists e, e ∈ edges t /\ id e.2 = x.
Proof.
  induction t as [t IH] using MindMapData_tree_ind. intros x Hx.
  unfold descIds in Hx. rewrite edges_unfold.
  induction IH as [|c cs Hc _ IHcs]; [by apply elem_of_nil in Hx|].
  cbn [flat_map] in Hx. apply elem_of_app in Hx as [Hx|Hx].
  - rewrite descIds_unfold in Hx. apply elem_of_cons in Hx as [->|Hx].
    + exists (id t, c). split; [|done]. cbn [map]. by left.
    + destruct (Hc x Hx) as (e & He & Hid). exists e. split; [|done].
      apply elem_of_app. right. cbn [flat_map]. apply elem_of_app. by left.
  - destruct (IHcs Hx) as (e & He & Hid). exists e. split; [|done].
    apply elem_of_app in He as [He|He].
    + apply elem_of_app. left. cbn [map]. by right.
    + apply elem_of_app. right. cbn [flat_map]. apply elem_of_app. by right.
Qed.

Lemma findActor_Some data x a :
  findActor data x = Some a -> actor_id a = x /\ a ∈ actors data.
Proof.
  unfold findActor. intros H. apply find_some in H as [Hin Hid].
  apply bool_decide_eq_true in Hid. split; [done|by apply list_elem_of_In].
Qed.

Lemma actorIds_elem data a : a ∈ actors data -> actor_id a ∈ actorIds data.
Proof.
  intros Hin. apply elem_of_list_to_set, list_elem_of_fmap. by exists a.
Qed.

Lemma actorIds_size data : (size (actorIds data) <= length (actors data))%nat.
Proof.
  unfold actorIds. induction (actors data) as [|a l IH].
  - rewrite fmap_nil, list_to_set_nil, size_empty. simpl. lia.
  - rewrite fmap_cons, list_to_set_cons, size_union_alt, size_singleton.
    cbn [length].
    assert (size (list_to_set (actor_id <$> l) ∖ {[actor_id a]} : gset string)
            <= size (list_to_set (actor_id <$> l) : gset string))%nat
      by (apply subseteq_size; set_solver).
    lia.
Qed.

Section MeshProps.

Variable data : SystemsViewData.
Variable dataFilter : option string.

Lemma ScanInv_add actor v cs vis link ta prefix :
  ScanInv data dataFilter actor v (cs, vis) ->
  link ∈ interactions data -> passesFilter dataFilter link ->
  actor_id ta ∉ vis -> ta ∈ actors data ->
  ((i_source link = actor_id actor /\ i_target link = actor_id ta
    /\ prefix = "→ ")
   \/ (i_target link = actor_id actor /\ i_source link = actor_id ta
       /\ prefix = "← ")) ->
  ScanInv data dataFilter actor v
    (cs ++ [mkChild ta (prefix +:+ i_data link)], vis ∪ {[actor_id ta]}).
Proof.
  intros (Hvis & Hnd & Hall) Hlink Hpass Hfresh Hta Hdir.
  simpl in Hvis. subst vis. unfold ScanInv. cbn [fst snd].
  rewrite fmap_app, list_to_set_app_L. cbn [fmap list_fmap entryId child_actor].
  split; [set_solver|]. split.
  - apply NoDup_app. split; [done|]. split; [|apply NoDup_singleton].
    intros x Hx Hx'. apply list_elem_of_singleton in Hx'. subst x.
    apply Hfresh. set_solver.
  - apply Forall_app. split; [done|]. apply Forall_singleton.
    split; [set_solver|]. split; [by apply actorIds_elem|].
    exists link. split; [done|]. split; [done|].
    unfold entryId. cbn [child_actor child_interaction].
    destruct Hdir as [(? & ? & ->)|(? & ? & ->)]; [left|right]; done.
Qed.

Lemma scanLink_inv actor v acc link :
  link ∈ interactions data ->
  ScanInv data dataFilter actor v acc -> ScanInv data dataFilter actor v (scanLink data dataFilter actor acc link).
Proof.
  intros Hlink Hinv. destruct acc as [cs vis]. unfold scanLink.
  destruct (filterActive dataFilter && negb (matchesFilter dataFilter link))
    eqn:Hskip; [done|].
  assert (passesFilter dataFilter link) as Hpass.
  { intros Hact. rewrite Hact in Hskip. simpl in Hskip.
    by apply negb_false_iff in Hskip. }
  destruct (bool_decide (i_source link = actor_id actor)
            && negb (bool_decide (i_target link ∈ vis))) eqn:Hout.
  - apply andb_true_iff in Hout as [Hs Ht].
    apply bool_decide_eq_true in Hs.
    apply negb_true_iff, bool_decide_eq_false in Ht.
    cbv zeta. cbn [default from_option Datatypes.id].
    destruct (JS.truthy_ostring (Some (i_target link))); [|done].
    destruct (findActor data (i_target link)) as [ta|] eqn:Hta; [|done].
    apply findActor_Some in Hta as [Hid Hin].
    destruct (negb (filterActive dataFilter) || _); [|done].
    rewrite <- Hid. apply ScanInv_add; try done.
    + by rewrite Hid.
    + left. by rewrite Hid.
  - destruct (bool_decide (i_target link = actor_id actor)
              && negb (bool_decide (i_source link ∈ vis))) eqn:Hin'.
    + apply andb_true_iff in Hin' as [Ht Hs].
      apply bool_decide_eq_true in Ht.
      apply negb_true_iff, bool_decide_eq_false in Hs.
      cbv zeta. cbn [default from_option Datatypes.id].
      destruct (JS.truthy_ostring (Some (i_source link))); [|done].
      destruct (findActor data (i_source link)) as [ta|] eqn:Hta; [|done].
      apply findActor_Some in Hta as [Hid Hin].
      destruct (negb (filterActive dataFilter) || _); [|done].
      rewrite <- Hid. apply ScanInv_add; try done.
      * by rewrite Hid.
      * right. by rewrite Hid.
    + done.
Qed.

Lemma scanLinks_inv actor v :
  ScanInv data dataFilter actor v (scanLinks data dataFilter actor v).
Proof.
  unfold scanLinks.
  assert (ScanInv data dataFilter actor v ([], v)) as Hinit.
  { unfold ScanInv. simpl. split; [set_solver|].
    split; [apply NoDup_nil_2|apply Forall_nil_2]. }
  assert (Forall (fun l => l ∈ interactions data) (interactions data))
    as Hall by (by apply Forall_forall).
  revert Hinit Hall. generalize (@nil ChildEntry, v).
  generalize (interactions data) at 2 3.
  intros links. induction links as [|l links IH]; intros acc Hacc Hall.
  - done.
  - cbn [foldl]. apply Forall_cons in Hall as [Hl Hall].
    apply IH; [by apply scanLink_inv|done].
Qed.

Lemma descIds_setLinkLabel n l : descIds (setLinkLabel n l) = descIds n.
Proof. reflexivity. Qed.

Lemma edges_setLinkLabel n l : edges (setLinkLabel n l) = edges n.
Proof. destruct n as [? ? ? ? ? ? ? ? ? ? ? ? ? ? ? [cs|]]; reflexivity. Qed.

Lemma children_loop_spec self :
  (forall a v t v', self a v = Some (t, v') -> NodeSpec data dataFilter a v t v') ->
  forall cs v1 ts v2,
    children_loop self cs v1 = Some (ts, v2) ->
    Forall2 (fun e t => id t = entryId e
                        /\ linkLabel t = Some (child_interaction e)) cs ts
    /\ v2 = v1 ∪ list_to_set (flat_map descIds ts)
    /\ NoDup (flat_map descIds ts)
    /\ (forall x, x ∈ flat_map descIds ts ->
          (x ∉ v1) /\ (x ∈ actorIds data))
    /\ Forall (fun e => EdgeOK data dataFilter e.1 e.2) (flat_map edges ts).
Proof.
  intros Hself. induction cs as [|c cs IH]; intros v1 ts v2 Hrun.
  - injection Hrun as <- <-. cbn [flat_map].
    split; [constructor|]. split; [set_solver|].
    split; [apply NoDup_nil_2|]. split; [|constructor].
    intros x Hx. by apply elem_of_nil in Hx.
  - cbn [children_loop] in Hrun.
    destruct (self (child_actor c) v1) as [[n v1a]|] eqn:Hn; [|done].
    simpl in Hrun.
    destruct (children_loop self cs v1a) as [[more v2']|] eqn:Hmore; [|done].
    simpl in Hrun. injection Hrun as <- <-.
    apply Hself in Hn as (Hid & Hv1a & Hnd & Hfresh & Hedges).
    apply IH in Hmore as (Hpairs & Hv2 & Hnd' & Hfresh' & Hedges').
    cbn [flat_map]. rewrite descIds_setLinkLabel, edges_setLinkLabel.
    split; [by constructor|].
    split; [rewrite list_to_set_app_L; set_solver|].
    split.
    + apply NoDup_app. split; [done|]. split; [|done].
      intros x Hx Hx'. apply Hfresh' in Hx' as [Hx' _]. set_solver.
    + split.
      * intros x Hx. apply elem_of_app in Hx as [Hx|Hx]; [by apply Hfresh|].
        apply Hfresh' in Hx as [Hx ?]. split; [set_solver|done].
      * apply Forall_app. by split.
Qed.

Lemma buildNode_spec fuel :
  forall actor v t v',
    buildNode data dataFilter fuel actor v = Some (t, v') ->
    NodeSpec data dataFilter actor v t v'.
Proof.
  induction fuel as [|fuel IH]; intros actor v t v' Hrun; [done|].
  cbn [buildNode] in Hrun.
  pose proof (scanLinks_inv actor v) as Hscan.
  destruct (scanLinks data dataFilter actor v) as [cs v1].
  destruct Hscan as (Hv1 & Hnd & Hall). cbn [fst snd] in *.
  destruct (children_loop (buildNode data dataFilter fuel) cs v1)
    as [[ts v2]|] eqn:Hts; [|done].
  simpl in Hrun. injection Hrun as <- <-.
  apply (children_loop_spec _ IH) in Hts
    as (Hpairs & Hv2 & Hnd' & Hfresh' & Hedges').
  assert (id <$> ts = entryId <$> cs) as Hids.
  { clear -Hpairs. induction Hpairs as [|e t cs ts [Hid _] _ IHp]; [done|].
    by rewrite !fmap_cons, Hid, IHp. }
  unfold NodeSpec, descIds, kids. cbn [id children default].
  rewrite edges_unfold. unfold kids. cbn [id children default].
  split; [done|]. split; [|split; [|split]].
  - apply set_eq. intros x. rewrite Hv2, Hv1.
    rewrite !elem_of_union, !elem_of_list_to_set.
    rewrite (flat_map_node_ids_perm ts), elem_of_app, Hids. tauto.
  - rewrite (flat_map_node_ids_perm ts), Hids.
    apply NoDup_app. split; [done|]. split; [|done].
    intros x Hx Hx'. apply Hfresh' in Hx' as [Hx' _]. set_solver.
  - intros x Hx. rewrite (flat_map_node_ids_perm ts), Hids in Hx.
    apply elem_of_app in Hx as [Hx|Hx].
    + apply list_elem_of_fmap in Hx as (e & -> & He).
      rewrite Forall_forall in Hall. by destruct (Hall e He) as (? & ? & _).
    + apply Hfresh' in Hx as [Hx ?]. split; [set_solver|done].
  - apply Forall_app. split; [|done].
    apply Forall_fmap. unfold compose. cbn [fst snd].
    clear -Hpairs Hall. induction Hpairs as [|e t cs ts [Hid Hlbl] _ IHp];
      [constructor|].
    apply Forall_cons in Hall as [(_ & _ & link & Hlink & Hpass & Hdir) Hall].
    constructor; [|by apply IHp].
    exists link. split; [done|]. split; [done|].
    rewrite Hid, Hlbl.
    destruct Hdir as [(? & ? & ->)|(? & ? & ->)]; [left|right]; done.
Qed.

End MeshProps.

Section MeshTotal.

Variable data : SystemsViewData.
Variable dataFilter : option string.

Lemma children_loop_total self cs :
  (forall a v t v', self a v = Some (t, v') -> v ⊆ v') ->
  forall v1,
    (forall a v, v1 ⊆ v -> is_Some (self a v)) ->
    is_Some (children_loop self cs v1).
Proof.
  intros Hmono. induction cs as [|c cs IH]; intros v1 Hself; [by eexists|].
  cbn [children_loop].
  destruct (Hself (child_actor c) v1) as [[n v1a] Hn]; [done|].
  rewrite Hn. simpl. apply Hmono in Hn.
  destruct (IH v1a) as [[more v2] ->]; [|by eexists].
  intros a v Hv. apply Hself. set_solver.
Qed.

Lemma buildNode_mono fuel actor v t v' :
  buildNode data dataFilter fuel actor v = Some (t, v') -> v ⊆ v'.
Proof.
  intros H. apply buildNode_spec in H as (_ & -> & _). set_solver.
Qed.

Lemma buildNode_total fuel :
  forall actor v,
    (size (actorIds data ∖ v) < fuel)%nat ->
    is_Some (buildNode data dataFilter fuel actor v).
Proof.
  induction fuel as [|fuel IH]; intros actor v Hsize; [lia|].
  cbn [buildNode].
  pose proof (scanLinks_inv data dataFilter actor v) as Hscan.
  destruct (scanLinks data dataFilter actor v) as [[|e cs] v1].
  { by eexists. }
  destruct Hscan as (Hv1 & _ & Hall). cbn [fst snd] in *.
  apply Forall_cons in Hall as [(Hfresh & Hactor & _) _].
  rewrite fmap_cons, list_to_set_cons in Hv1.
  destruct (children_loop_total (buildNode data dataFilter fuel) (e :: cs))
    with (v1 := v1) as [[ts v2] ->]; [| |by eexists].
  - intros a w t w'. apply buildNode_mono.
  - intros a w Hw. apply IH.
    eapply Nat.lt_le_trans; [|apply Nat.lt_succ_r, Hsize].
    apply subset_size. set_solver.
Qed.

End MeshTotal.

Section MeshFuel.

Variable data : SystemsViewData.
Variable dataFilter : option string.

Lemma children_loop_mono self self' cs :
  (forall a v r, self a v = Some r -> self' a v = Some r) ->
  forall v r, children_loop self cs v = Some r ->
              children_loop self' cs v = Some r.
Proof.
  intros Hsub. induction cs as [|c cs IH]; intros v r; [done|].
  cbn [children_loop].
  destruct (self (child_actor c) v) as [[n v1]|] eqn:Hn; [|done].
  rewrite (Hsub _ _ _ Hn). simpl.
  destruct (children_loop self cs v1) as [[more v2]|] eqn:Hmore; [|done].
  by rewrite (IH _ _ Hmore).
Qed.

Lemma buildNode_S fuel actor visited :
  buildNode data dataFilter (S fuel) actor visited =
  let '(childrenActors, visited1) := scanLinks data dataFilter actor visited in
  '(cs, visited2) ← children_loop (buildNode data dataFilter fuel)
                      childrenActors visited1;
  Some (mkNode (actor_id actor) (actor_name actor)
          (actorTypeName (actor_type actor))
          (match actor_type actor with
           | person => nt_info
           | _ => nt_process
           end)
          fact (Some src_ai) None None None None None None None None None
          (Some cs),
        visited2).
Proof. reflexivity. Qed.

Lemma buildNode_fuel_S fuel :
  forall actor v r,
    buildNode data dataFilter fuel actor v = Some r ->
    buildNode data dataFilter (S fuel) actor v = Some r.
Proof.
  induction fuel as [|fuel IH]; intros actor v r Hrun; [done|].
  rewrite buildNode_S in Hrun. rewrite buildNode_S.
  destruct (scanLinks data dataFilter actor v) as [cs v1].
  destruct (children_loop (buildNode data dataFilter fuel) cs v1)
    as [[ts v2]|] eqn:Hts; [|done].
  by rewrite (children_loop_mono _ _ _ IH _ _ Hts).
Qed.

Lemma buildNode_fuel_le fuel fuel' actor v r :
  (fuel <= fuel')%nat ->
  buildNode data dataFilter fuel actor v = Some r ->
  buildNode data dataFilter fuel' actor v = Some r.
Proof.
  induction 1 as [|fuel' _ IH]; [done|].
  intros Hrun. by apply buildNode_fuel_S, IH.
Qed.

End MeshFuel.

Lemma buildSystemTree_spec data rootId dataFilter :
  match findActor data rootId with
  | None => buildSystemTree data rootId dataFilter = MeshNull
  | Some rootActor =>
      exists t, buildSystemTree data rootId dataFilter = MeshTree t
        /\ NodeSpec data dataFilter rootActor {[rootId]} t
             ({[rootId]} ∪ list_to_set (descIds t))
  end.
Proof.
  unfold buildSystemTree.
  destruct (findActor data rootId) as [rootActor|]; [|done].
  destruct (buildNode_total data dataFilter (S (length (actors data)))
              rootActor {[rootId]}) as [[t v'] Hrun].
  { apply Nat.lt_succ_r. etrans; [|apply actorIds_size].
    apply subseteq_size. set_solver. }
  rewrite Hrun. exists t. split; [done|].
  apply buildNode_spec in Hrun as Hspec.
  by destruct Hspec as (? & -> & ?).
Qed.

Lemma passesFilter_active f link :
  f <> "" -> passesFilter (Some f) link -> i_data link = f.
Proof.
  intros Hne Hpass.
  assert (filterActive (Some f) = true) as Hact.
  { unfold filterActive. simpl. unfold JS.truthy_string.
    by rewrite decide_False. }
  apply Hpass in Hact. unfold matchesFilter in Hact.
  apply bool_decide_eq_true in Hact. congruence.
Qed.

(** C1: the projection visits no actor twice, and in the example C is
    claimed by A.  Whenever the root id names an actor the result is a
    tree with that root in which every actor id occurs at most once.  For
    the interactions A→B (X), B→C (X), A→C (Y) rooted at A without filter,
    the children of A are B (→ X) and C (→ Y): C occurs once, as a direct
    child of A, and not below B, because the scan of A's interactions
    marks C before B is built. *)
Theorem buildSystemTree_visits_once :
  (forall data rootId dataFilter,
     match findActor data rootId with
     | None => buildSystemTree data rootId dataFilter = MeshNull
     | Some _ =>
         exists t, buildSystemTree data rootId dataFilter = MeshTree t
           /\ id t = rootId /\ NoDup (node_ids t)
     end)
  /\ (exists t, buildSystemTree meshExample "A" None = MeshTree t
        /\ occurrences "C" t = 1%nat
        /\ directChild "C" t = true
        /\ properDescendant "C" "B" t = false
        /\ id <$> kids t = ["B"; "C"]
        /\ linkLabel <$> kids t = [Some "→ X"; Some "→ Y"]
        /\ node_ids t = ["A"; "B"; "C"]).
Proof.
  split.
  - intros data rootId dataFilter.
    pose proof (buildSystemTree_spec data rootId dataFilter) as Hspec.
    destruct (findActor data rootId) as [rootActor|] eqn:Hroot; [|done].
    destruct Hspec as (t & Hrun & Hid & _ & Hnd & Hfresh & _).
    apply findActor_Some in Hroot as [Hrid _].
    exists t. split; [done|]. split; [congruence|].
    rewrite descIds_unfold. apply NoDup_cons. split; [|done].
    intros Hin. apply Hfresh in Hin as [Hin _]. apply Hin.
    rewrite Hid, Hrid. set_solver.
  - eexists. split; [vm_compute; reflexivity|].
    repeat split; vm_compute; reflexivity.
Qed.

Lemma buildSystemTree_visits_once_witness :
  exists t, buildSystemTree meshExample "C" (Some "X") = MeshTree t
    /\ id t = "C" /\ NoDup (node_ids t).
Proof.
  exact (proj1 buildSystemTree_visits_once meshExample "C" (Some "X")).
Defined.

(** C1, as it was stated, fails on the example: C is not below B. *)
Lemma buildSystemTree_C_below_B_counterexample :
  ~ (exists t, buildSystemTree meshExample "A" None = MeshTree t
       /\ occurrences "C" t = 1%nat
       /\ properDescendant "C" "B" t = true
       /\ directChild "C" t = false).
Proof.
  intros (t & Hrun & _ & Hbelow & _).
  vm_compute in Hrun. injection Hrun as <-.
  vm_compute in Hbelow. discriminate Hbelow.
Qed.

(** C8: under an active filter only interactions with the filtered
    payload become edges, and apart from the chosen root the tree holds
    only endpoints of such interactions.  Every edge of the tree joins
    the two endpoints of an interaction whose payload is the filter and
    is labelled with its direction and that payload; every actor of the
    tree other than the root is an endpoint of such an interaction; the
    tree exists whenever the root id names an actor.  For A→B (X),
    B→C (X), A→C (Y) rooted at A with filter Y the tree holds A and C. *)
Theorem buildSystemTree_filtered :
  (forall data rootId f t,
     f <> "" ->
     buildSystemTree data rootId (Some f) = MeshTree t ->
     Forall (fun e =>
               exists link, link ∈ interactions data
                 /\ i_data link = f
                 /\ ((i_source link = e.1 /\ i_target link = id e.2
                      /\ linkLabel e.2 = Some ("→ " +:+ f))
                     \/ (i_target link = e.1 /\ i_source link = id e.2
                         /\ linkLabel e.2 = Some ("← " +:+ f))))
       (edges t)
     /\ (forall x, x ∈ node_ids t -> x <> rootId -> endpointOf data f x))
  /\ (forall data rootId f,
        is_Some (findActor data rootId) ->
        exists t, buildSystemTree data rootId (Some f) = MeshTree t
                  /\ id t = rootId)
  /\ (exists t, buildSystemTree meshExample "A" (Some "Y") = MeshTree t
        /\ node_ids t = ["A"; "C"]
        /\ linkLabel <$> kids t = [Some "→ Y"]).
Proof.
  split; [|split].
  - intros data rootId f t Hne Hrun.
    pose proof (buildSystemTree_spec data rootId (Some f)) as Hspec.
    destruct (findActor data rootId) as [rootActor|] eqn:Hroot;
      [|congruence].
    destruct Hspec as (t' & Hrun' & Hid & _ & _ & _ & Hedges).
    rewrite Hrun in Hrun'. injection Hrun' as <-.
    apply findActor_Some in Hroot as [Hrid _].
    assert (Forall (fun e =>
               exists link, link ∈ interactions data
                 /\ i_data link = f
                 /\ ((i_source link = e.1 /\ i_target link = id e.2
                      /\ linkLabel e.2 = Some ("→ " +:+ f))
                     \/ (i_target link = e.1 /\ i_source link = id e.2
                         /\ linkLabel e.2 = Some ("← " +:+ f))))
              (edges t)) as Hmatching.
    { eapply Forall_impl; [exact Hedges|].
      intros e (link & Hlink & Hpass & Hdir).
      apply (passesFilter_active f link Hne) in Hpass.
      exists link. rewrite <- Hpass. by rewrite Hpass at 1. }
    split; [done|].
    intros x Hx Hnot. rewrite descIds_unfold in Hx.
    apply elem_of_cons in Hx as [->|Hx]; [congruence|].
    apply descIds_edges in Hx as (e & He & <-).
    rewrite Forall_forall in Hmatching.
    destruct (Hmatching e He) as (link & Hlink & Hdata & Hdir).
    exists link. split; [done|]. split; [done|].
    destruct Hdir as [(_ & ? & _)|(_ & ? & _)]; [by right|by left].
  - intros data rootId f [rootActor Hroot].
    pose proof (buildSystemTree_spec data rootId (Some f)) as Hspec.
    rewrite Hroot in Hspec. destruct Hspec as (t & Hrun & Hid & _).
    apply findActor_Some in Hroot as [Hrid _].
    exists t. split; [done|congruence].
  - eexists. split; [vm_compute; reflexivity|].
    split; vm_compute; reflexivity.
Qed.

Lemma buildSystemTree_filtered_witness :
  exists t, buildSystemTree meshExample "C" (Some "Y") = MeshTree t
    /\ (forall x, x ∈ node_ids t -> x <> "C" -> endpointOf meshExample "Y" x).
Proof.
  destruct buildSystemTree_filtered as (Hsound & _).
  eexists. split; [vm_compute; reflexivity|].
  refine (proj2 (Hsound meshExample "C" "Y" _ _ _)).
  - discriminate.
  - vm_compute. reflexivity.
Defined.

(** C8, as it was stated, fails for the root: with filter Y and root B,
    B is in the tree although no Y interaction touches it. *)
Lemma buildSystemTree_root_counterexample :
  ~ (forall x t,
       buildSystemTree meshExample "B" (Some "Y") = MeshTree t ->
       ~ endpointOf meshExample "Y" x ->
       x ∉ node_ids t).
Proof.
  intros Hclaim.
  destruct (buildSystemTree meshExample "B" (Some "Y")) as [|t|] eqn:Hrun;
    [vm_compute in Hrun; discriminate Hrun| |
     vm_compute in Hrun; discriminate Hrun].
  apply (Hclaim "B" t eq_refl).
  - intros (link & Hlink & Hdata & Hends).
    apply list_elem_of_In in Hlink. simpl in Hlink.
    destruct Hlink as [<-|[<-|[<-|[]]]]; simpl in *;
      try discriminate; destruct Hends; discriminate.
  - vm_compute in Hrun. injection Hrun as <-.
    rewrite descIds_unfold. by left.
Qed.

(** * Further properties of the code *)

(** ** Resolver *)

Lemma find_app_first {A} (P : A -> bool) l1 l2 :
  List.find P (l1 ++ l2) =
  match List.find P l1 with
  | Some x => Some x
  | None => List.find P l2
  end.
Proof.
  induction l1 as [|a l1 IH]; [done|]. simpl. by destruct (P a).
Qed.

Lemma find_loop_first t root p q (cs : list MindMapData) :
  Forall (fun c => found_node <$> findNodeAndPath c t q
                   = firstWithId t c) cs ->
  found_node <$> find_loop (fun c => findNodeAndPath c t q) root t p cs
  = List.find (fun n => bool_decide (id n = t)) (flat_map nodes cs).
Proof.
  induction 1 as [|c cs Hc _ IH]; [done|].
  cbn [find_loop flat_map]. rewrite find_app_first.
  unfold firstWithId in Hc. rewrite (nodes_unfold c) in *.
  cbn [List.find] in *.
  destruct (decide (id c = t)) as [Heq|Hne].
  - by rewrite bool_decide_eq_true_2.
  - rewrite bool_decide_eq_false_2 in * by done.
    rewrite <- Hc. by destruct (findNodeAndPath c t q).
Qed.

Lemma findNodeAndPath_firstWithId t :
  forall root p, found_node <$> findNodeAndPath root t p = firstWithId t root.
Proof.
  induction root as [root IH] using MindMapData_tree_ind.
  intros p. rewrite findNodeAndPath_unfold. unfold firstWithId.
  rewrite nodes_unfold. cbn [List.find].
  destruct (decide (id root = t)) as [Heq|Hne].
  - by rewrite bool_decide_eq_true_2.
  - rewrite bool_decide_eq_false_2 by done.
    unfold kids in *. destruct (children root) as [cs|]; [|done].
    apply find_loop_first. simpl in IH.
    eapply Forall_impl; [exact IH|]. intros c Hc. apply Hc.
Qed.

Lemma findNodeAndPath_found t root p r :
  findNodeAndPath root t p = Some r ->
  id (found_node r) = t /\ found_node r ∈ nodes root.
Proof.
  intros Hr. pose proof (findNodeAndPath_firstWithId t root p) as Hfirst.
  rewrite Hr in Hfirst. simpl in Hfirst. symmetry in Hfirst.
  unfold firstWithId in Hfirst. apply find_some in Hfirst as [Hin Hid].
  apply bool_decide_eq_true in Hid. split; [done|].
  by apply list_elem_of_In.
Qed.

(** X1: the resolver returns the first node, in depth-first pre-order,
    that carries the target id; it finds a node exactly when the id
    occurs in the tree. *)
Theorem findNodeAndPath_first_preorder (root : MindMapData) (t : string)
    (p : list string) :
  found_node <$> findNodeAndPath root t p = firstWithId t root
  /\ (is_Some (findNodeAndPath root t p) <-> t ∈ node_ids root)
  /\ (forall r, findNodeAndPath root t p = Some r ->
        id (found_node r) = t /\ found_node r ∈ nodes root).
Proof.
  split; [apply findNodeAndPath_firstWithId|]. split.
  - split.
    + intros [r Hr]. destruct (decide (t ∈ node_ids root)) as [|Hnot]; [done|].
      by rewrite (findNodeAndPath_absent root t p Hnot) in Hr.
    + apply findNodeAndPath_present.
  - intros r. apply findNodeAndPath_found.
Qed.

Lemma findNodeAndPath_first_preorder_witness :
  (label <$> (found_node <$> findNodeAndPath sampleTree "a2" []))
    = Some "A2"
  /\ id (bareNode "a2" "A2" (Some [])) = "a2".
Proof.
  split; [reflexivity|].
  destruct (findNodeAndPath_first_preorder sampleTree "a2" [])
    as (_ & _ & Hid).
  exact (proj1 (Hid (mkFound (bareNode "a2" "A2" (Some []))
                       ["Root"; "A"; "A2"]
                       (Some (bareNode "a" "A"
                                (Some [bareNode "a1" "A1" None;
                                       bareNode "a2" "A2" (Some [])]))))
                  eq_refl)).
Defined.

Lemma nodes_child root c n : c ∈ kids root -> n ∈ nodes c -> n ∈ nodes root.
Proof.
  intros Hc Hn. rewrite nodes_unfold. right.
  apply list_elem_of_In, in_flat_map. exists c.
  split; by apply list_elem_of_In.
Qed.

Lemma find_loop_resolved t root p (cs : list MindMapData) r :
  Forall (fun c => c ∈ kids root) cs ->
  Forall (fun c => forall q r, findNodeAndPath c t q = Some r ->
                               ResolvedAt c t q r) cs ->
  find_loop (fun c => findNodeAndPath c t (p ++ [label root])) root t p cs
    = Some r ->
  ResolvedAt root t p r /\ is_Some (found_parent r).
Proof.
  intros Hkids IH. revert Hkids.
  induction IH as [|c cs Hc _ IHcs]; intros Hkids Hrun; [done|].
  apply Forall_cons in Hkids as [Hck Hkids].
  cbn [find_loop] in Hrun.
  destruct (decide (id c = t)) as [Heq|Hne].
  - injection Hrun as <-. split; [|by eexists].
    split; [done|]. cbn [found_path found_node found_parent].
    exists [label root; label c]. split; [done|].
    split; [apply path_below with c; [done|constructor]|].
    split; [rewrite nodes_unfold; by left|]. split; [done|]. by exists [].
  - destruct (findNodeAndPath c t (p ++ [label root])) as [r'|] eqn:Hr';
      [|by apply IHcs].
    injection Hrun as <-.
    destruct (Hc _ _ Hr') as (Hid & ls & Hpath & Hto & Hpar).
    destruct (found_parent r') as [par|] eqn:Hparent.
    + split; [|by eexists]. split; [done|].
      exists (label root :: ls).
      split; [by rewrite Hpath, <- (assoc_L (++))|].
      split; [by apply path_below with c|]. rewrite Hparent.
      destruct Hpar as (Hin & Hkid & pre & Hpre).
      split; [by apply nodes_child with c|]. split; [done|].
      exists (label root :: pre). by rewrite Hpre.
    + destruct Hpar as [Hnode _]. congruence.
Qed.

Lemma findNodeAndPath_resolved t :
  forall root p r, findNodeAndPath root t p = Some r -> ResolvedAt root t p r.
Proof.
  induction root as [root IH] using MindMapData_tree_ind.
  intros p r Hr. rewrite findNodeAndPath_unfold in Hr.
  destruct (decide (id root = t)) as [Heq|Hne].
  - injection Hr as <-. split; [done|].
    exists [label root]. split; [done|]. split; [constructor|done].
  - destruct (children root) as [cs|] eqn:Hcs; [|done].
    rewrite (kids_Some _ _ Hcs) in IH.
    eapply find_loop_resolved; [|exact IH|exact Hr].
    rewrite (kids_Some _ _ Hcs). by apply Forall_forall.
Qed.

Lemma PathTo_last root n ls :
  PathTo root n ls -> last ls = Some (label n) /\ head ls = Some (label root).
Proof.
  induction 1 as [root|root c n ls Hc Hto [IHl IHh]]; [done|].
  split; [|done]. destruct ls as [|l ls]; [done|]. exact IHl.
Qed.

(** X2: a result of the resolver, called without a prefix, holds the
    labels from the root down to the found node along child links: the
    path is never empty, starts with the root's label and ends with the
    found node's label. *)
Theorem findNodeAndPath_path (root : MindMapData) (t : string)
    (r : FindResult) :
  findNodeAndPath root t [] = Some r ->
  PathTo root (found_node r) (found_path r)
  /\ (0 < length (found_path r))%nat
  /\ head (found_path r) = Some (label root)
  /\ last (found_path r) = Some (label (found_node r)).
Proof.
  intros Hr. apply findNodeAndPath_resolved in Hr
    as (_ & ls & Hpath & Hto & _).
  simpl in Hpath. rewrite Hpath.
  destruct (PathTo_last _ _ _ Hto) as [Hlast Hhead].
  split; [done|]. split; [|done].
  destruct ls; [done|simpl; lia].
Qed.

Lemma findNodeAndPath_path_witness :
  exists r, findNodeAndPath sampleTree "a2" [] = Some r
    /\ found_path r = ["Root"; "A"; "A2"]
    /\ last (found_path r) = Some (label (found_node r)).
Proof.
  eexists. split; [reflexivity|]. split; [reflexivity|].
  exact (proj2 (proj2 (proj2
           (findNodeAndPath_path sampleTree "a2" _ eq_refl)))).
Defined.

(** X3: the parent reference of a result is absent exactly when the
    found node is the tree's root; otherwise it is a node of the tree
    that has the found node among its children, and the path ends with
    the parent's label followed by the node's. *)
Theorem findNodeAndPath_parent (root : MindMapData) (t : string)
    (p : list string) (r : FindResult) :
  findNodeAndPath root t p = Some r ->
  (found_parent r = None <-> id root = t)
  /\ (found_parent r = None -> found_node r = root)
  /\ (forall par, found_parent r = Some par ->
        par ∈ nodes root /\ found_node r ∈ kids par
        /\ exists pre,
             found_path r = p ++ pre ++ [label par; label (found_node r)]).
Proof.
  intros Hr. pose proof (findNodeAndPath_resolved t root p r Hr)
    as (Hid & ls & Hpath & Hto & Hpar).
  split; [|split].
  - split.
    + intros Hnone. rewrite Hnone in Hpar. destruct Hpar as [<- _]. done.
    + intros Heq. rewrite findNodeAndPath_unfold in Hr.
      rewrite decide_True in Hr by done. by injection Hr as <-.
  - intros Hnone. rewrite Hnone in Hpar. by destruct Hpar.
  - intros par Hsome. rewrite Hsome in Hpar.
    destruct Hpar as (Hin & Hkid & pre & Hpre).
    split; [done|]. split; [done|]. exists pre. by rewrite Hpath, Hpre.
Qed.

Lemma findNodeAndPath_parent_witness :
  exists r, findNodeAndPath sampleTree "a1" [] = Some r
    /\ (label <$> found_parent r) = Some "A"
    /\ (found_parent r = None -> found_node r = sampleTree).
Proof.
  eexists. split; [reflexivity|]. split; [reflexivity|].
  exact (proj1 (proj2 (findNodeAndPath_parent sampleTree "a1" [] _ eq_refl))).
Defined.

(** ** Numbering *)

Lemma childNumber_nonempty cur i : childNumber cur i <> "".
Proof.
  unfold childNumber. intros E. apply (f_equal String.length) in E.
  rewrite !string_length_append in E. simpl in E. lia.
Qed.

Lemma truthy_string_true s : s <> "" -> JS.truthy_string s = true.
Proof. intros H. unfold JS.truthy_string. by rewrite decide_False. Qed.

Lemma number_loop_hit t cur (pre : list MindMapData) k post j r :
  (forall c, c ∈ pre -> t ∉ node_ids c) ->
  calculateNodeNumber k t (childNumber cur (j + length pre)) = Some r ->
  r <> "" ->
  number_loop (fun c num => calculateNodeNumber c t num) cur
    (pre ++ k :: post) j = Some r.
Proof.
  revert j. induction pre as [|a pre IH]; intros j Habsent Hk Hr.
  - cbn [app number_loop]. simpl in Hk. rewrite Nat.add_0_r in Hk.
    by rewrite Hk, truthy_string_true.
  - cbn [app number_loop].
    rewrite calculateNodeNumber_absent by (apply Habsent; by left).
    apply IH; [|by rewrite <- Hk; do 2 f_equal; simpl; lia|done].
    intros c Hc. apply Habsent. by right.
Qed.

Lemma flat_map_split {A B} (f : A -> list B) (l : list A) (y : B) :
  y ∈ flat_map f l -> exists pre k post, l = pre ++ k :: post /\ y ∈ f k.
Proof.
  intros Hy. apply list_elem_of_In, in_flat_map in Hy as (k & Hk & Hy).
  apply list_elem_of_In, list_elem_of_split in Hk as (pre & post & ->).
  exists pre, k, post. split; [done|]. by apply list_elem_of_In.
Qed.

Lemma node_ids_elem n root : n ∈ nodes root -> id n ∈ node_ids root.
Proof. intros H. apply list_elem_of_fmap. by exists n. Qed.

Lemma NoDup_flat_map_before (pre : list MindMapData) k post x :
  NoDup (flat_map node_ids (pre ++ k :: post)) ->
  x ∈ node_ids k ->
  forall c, c ∈ pre -> x ∉ node_ids c.
Proof.
  intros Hnd Hx c Hc Hxc.
  rewrite flat_map_app in Hnd. apply NoDup_app in Hnd as (_ & Hdisj & _).
  apply (Hdisj x).
  - apply list_elem_of_In, in_flat_map. exists c.
    split; by apply list_elem_of_In.
  - cbn [flat_map]. apply elem_of_app. by left.
Qed.

Lemma NoDup_flat_map_part (pre : list MindMapData) k post :
  NoDup (flat_map node_ids (pre ++ k :: post)) -> NoDup (node_ids k).
Proof.
  intros Hnd. rewrite flat_map_app in Hnd.
  apply NoDup_app in Hnd as (_ & _ & Hnd). cbn [flat_map] in Hnd.
  by apply NoDup_app in Hnd as (Hnd & _).
Qed.

Lemma calculateNodeNumber_present t :
  forall root cur,
    cur <> "" -> t ∈ node_ids root ->
    exists r, calculateNodeNumber root t cur = Some r /\ r <> "".
Proof.
  induction root as [root IH] using MindMapData_tree_ind.
  intros cur Hcur Hin. rewrite calculateNodeNumber_unfold.
  destruct (decide (id root = t)) as [Heq|Hne]; [by exists cur|].
  rewrite node_ids_unfold in Hin. apply elem_of_cons in Hin as [Heq|Hin];
    [congruence|].
  destruct (children root) as [cs|] eqn:Hcs;
    [|rewrite (kids_None _ Hcs) in Hin; by apply elem_of_nil in Hin].
  rewrite (kids_Some _ _ Hcs) in *.
  clear Hcs Hne. generalize 0%nat.
  induction IH as [|c cs Hc _ IHcs]; intros j;
    [by apply elem_of_nil in Hin|].
  cbn [number_loop].
  destruct (decide (t ∈ node_ids c)) as [Htc|Htc].
  - destruct (Hc (childNumber cur j) (childNumber_nonempty _ _) Htc)
      as (r & -> & Hr).
    exists r. by rewrite truthy_string_true.
  - rewrite calculateNodeNumber_absent by done. apply IHcs.
    cbn [flat_map] in Hin. apply elem_of_app in Hin as [|]; [done|done].
Qed.

(** X4: a node has an outline number exactly when its id occurs in the
    tree, which is exactly when the resolver finds it; the number is
    never the empty string, so the fallback that callers apply to a
    missing number is taken only for ids outside the tree. *)
Theorem nodeNumber_defined_iff_present (T : MindMapData) (t : string) :
  (is_Some (nodeNumber T t) <-> t ∈ node_ids T)
  /\ (is_Some (nodeNumber T t) <-> is_Some (findNodeAndPath T t []))
  /\ (forall r, nodeNumber T t = Some r -> r <> "").
Proof.
  assert (is_Some (nodeNumber T t) <-> t ∈ node_ids T) as Hiff.
  { unfold nodeNumber. split.
    - intros [r Hr]. destruct (decide (t ∈ node_ids T)) as [|Hnot]; [done|].
      by rewrite calculateNodeNumber_absent in Hr.
    - intros Hin.
      destruct (calculateNodeNumber_present t T "1.0") as (r & Hr & _);
        [done|done|by eexists]. }
  split; [done|]. split.
  - rewrite Hiff. split.
    + apply findNodeAndPath_present.
    + intros [r Hr]. destruct (decide (t ∈ node_ids T)) as [|Hnot]; [done|].
      by rewrite findNodeAndPath_absent in Hr.
  - intros r Hr. unfold nodeNumber in Hr.
    destruct (decide (t ∈ node_ids T)) as [Hin|Hnot].
    + destruct (calculateNodeNumber_present t T "1.0") as (r' & Hr' & Hne);
        [done|done|]. congruence.
    + by rewrite calculateNodeNumber_absent in Hr.
Qed.

Lemma nodeNumber_defined_iff_present_witness :
  nodeNumber sampleTree "b" = Some "1.2" /\ "1.2" <> "".
Proof.
  split; [reflexivity|].
  exact (proj2 (proj2 (nodeNumber_defined_iff_present sampleTree "b"))
           "1.2" eq_refl).
Defined.

Lemma NoDup_ids_same (l : list MindMapData) a b :
  NoDup (id <$> l) -> a ∈ l -> b ∈ l -> id a = id b -> a = b.
Proof.
  induction l as [|x l IH]; intros Hnd Ha Hb Hid;
    [by apply elem_of_nil in Ha|].
  rewrite fmap_cons in Hnd. apply NoDup_cons in Hnd as [Hx Hnd].
  apply elem_of_cons in Ha as [->|Ha]; apply elem_of_cons in Hb as [->|Hb].
  - done.
  - exfalso. apply Hx. rewrite Hid. apply list_elem_of_fmap. by exists b.
  - exfalso. apply Hx. rewrite <- Hid. apply list_elem_of_fmap. by exists a.
  - by apply IH.
Qed.

Lemma kids_node_ids n c : c ∈ kids n -> id c ∈ flat_map node_ids (kids n).
Proof.
  intros Hc. apply list_elem_of_In, in_flat_map. exists c.
  split; [by apply list_elem_of_In|].
  apply list_elem_of_In. rewrite node_ids_unfold. by left.
Qed.

Lemma nodes_self n : n ∈ nodes n.
Proof. rewrite nodes_unfold. by left. Qed.

Lemma nodes_trans m :
  forall root n, n ∈ nodes root -> m ∈ nodes n -> m ∈ nodes root.
Proof.
  induction root as [root IH] using MindMapData_tree_ind.
  intros n Hn Hm. rewrite nodes_unfold in Hn.
  apply elem_of_cons in Hn as [->|Hn]; [done|].
  apply flat_map_split in Hn as (pre & k & post & Hk & Hnk).
  rewrite Hk in IH. apply Forall_app in IH as [_ IH].
  apply Forall_cons in IH as [IHk _].
  apply nodes_child with k; [rewrite Hk; set_solver|].
  by apply IHk with n.
Qed.

Lemma nodes_kid root n c : n ∈ nodes root -> c ∈ kids n -> c ∈ nodes root.
Proof.
  intros Hn Hc. apply nodes_trans with n; [done|].
  apply nodes_child with c; [done|apply nodes_self].
Qed.

Lemma calculateNodeNumber_child :
  forall root cur n p i c,
    NoDup (node_ids root) -> n ∈ nodes root -> kids n !! i = Some c ->
    calculateNodeNumber root (id n) cur = Some p ->
    calculateNodeNumber root (id c) cur = Some (childNumber p i).
Proof.
  induction root as [root IH] using MindMapData_tree_ind.
  intros cur n p i c Hnd Hn Hc Hp.
  assert (c ∈ kids n) as Hck by (by eapply list_elem_of_lookup_2).
  rewrite calculateNodeNumber_unfold in Hp.
  destruct (decide (id root = id n)) as [Heq|Hne].
  - (* the node is the root of this subtree *)
    injection Hp as <-.
    assert (n = root) as ->.
    { apply (NoDup_ids_same (nodes root)); [done|done| |done].
      rewrite nodes_unfold. by left. }
    rewrite node_ids_unfold in Hnd. apply NoDup_cons in Hnd as [Hroot Hnd].
    rewrite calculateNodeNumber_unfold.
    rewrite decide_False
      by (intros E; apply Hroot; rewrite E; by apply kids_node_ids).
    destruct (children root) as [cs|] eqn:Hcs;
      [|rewrite (kids_None _ Hcs) in Hc; done].
    rewrite (kids_Some _ _ Hcs) in *.
    apply list_elem_of_split_length in Hc as (pre & post & -> & ->).
    apply number_loop_hit.
    + apply (NoDup_flat_map_before pre c post); [done|].
      rewrite node_ids_unfold. by left.
    + rewrite calculateNodeNumber_unfold. by rewrite decide_True.
    + apply childNumber_nonempty.
  - (* the node lies below one of the children *)
    rewrite nodes_unfold in Hn. apply elem_of_cons in Hn as [->|Hn]; [done|].
    rewrite node_ids_unfold in Hnd. apply NoDup_cons in Hnd as [Hroot Hnd].
    destruct (children root) as [cs|] eqn:Hcs; [|done].
    rewrite (kids_Some _ _ Hcs) in *.
    apply flat_map_split in Hn as (pre & k & post & -> & Hnk).
    assert (forall x, x ∈ node_ids k -> forall c', c' ∈ pre -> x ∉ node_ids c')
      as Hbefore by (intros x Hx; by apply (NoDup_flat_map_before pre k post)).
    assert (id n ∈ node_ids k) as Hidn by (by apply node_ids_elem).
    assert (c ∈ nodes k) as Hcnodes by (by apply nodes_kid with n).
    assert (id c ∈ node_ids k) as Hidc by (by apply node_ids_elem).
    destruct (calculateNodeNumber_present (id n) k
                (childNumber cur (0 + length pre)))
      as (p' & Hp' & Hp'ne); [apply childNumber_nonempty|done|].
    rewrite (number_loop_hit (id n) cur pre k post 0 p') in Hp
      by (try done; by apply Hbefore).
    injection Hp as <-.
    apply Forall_app in IH as [_ IH]. apply Forall_cons in IH as [IHk _].
    specialize (IHk _ n p' i c (NoDup_flat_map_part _ _ _ Hnd) Hnk Hc Hp').
    rewrite calculateNodeNumber_unfold.
    rewrite decide_False.
    2:{ intros E. apply Hroot. rewrite E.
        apply list_elem_of_In, in_flat_map. exists k.
        split; apply list_elem_of_In; [|done].
        apply elem_of_app. right. by left. }
    rewrite Hcs. apply number_loop_hit; [by apply Hbefore|done|].
    apply childNumber_nonempty.
Qed.

(** X5: in a tree with unique ids the numbering follows the tree: when a
    node of the tree has the number p, its i-th child (counting from 0)
    has the number p followed by a dot and i+1, with the root's "1.0"
    read as "1". *)
Theorem nodeNumber_of_child (T n c : MindMapData) (i : nat) (p : string) :
  NoDup (node_ids T) -> n ∈ nodes T -> kids n !! i = Some c ->
  nodeNumber T (id n) = Some p ->
  nodeNumber T (id c) = Some (childNumber p i)
  /\ childNumber p i =
     (if decide (p = "1.0") then "1" else p) +:+ "." +:+ pretty (S i).
Proof.
  intros Hnd Hn Hc Hp. split.
  - by apply (calculateNodeNumber_child T "1.0" n p i c).
  - unfold childNumber. by rewrite Nat.add_1_r.
Qed.

Lemma nodeNumber_of_child_witness :
  nodeNumber sampleTree "a2" = Some (childNumber "1.1" 1)
  /\ childNumber "1.1" 1 = "1.1.2".
Proof.
  split; [|reflexivity].
  refine (proj1 (nodeNumber_of_child sampleTree
            (bareNode "a" "A"
               (Some [bareNode "a1" "A1" None; bareNode "a2" "A2" (Some [])]))
            (bareNode "a2" "A2" (Some [])) 1 "1.1" _ _ _ _)).
  - apply (bool_decide_unpack _). vm_compute. exact I.
  - rewrite nodes_unfold. right. simpl. by left.
  - reflexivity.
  - reflexivity.
Defined.

(** ** Dependency propagation, continued *)

Lemma flagIfWatching_not_watching c m :
  watches c m = false -> flagIfWatching c m = m.
Proof.
  intros Hw. unfold flagIfWatching. rewrite Hw. simpl. clear Hw.
  destruct m; reflexivity.
Qed.

Lemma set_children_same m : set_children m (children m) = m.
Proof. destruct m; reflexivity. Qed.

Lemma traverse_no_watcher c :
  forall T, Forall (fun m => watches c m = false) (nodes T) -> traverse c T = T.
Proof.
  induction T as [T IH] using MindMapData_tree_ind. intros Hall.
  rewrite nodes_unfold in Hall. apply Forall_cons in Hall as [Hroot Hall].
  rewrite traverse_eq, flagIfWatching_not_watching by done.
  assert (map (traverse c) <$> children T = children T) as ->;
    [|apply set_children_same].
  unfold kids in *. destruct (children T) as [cs|]; [|done]. simpl in *.
  f_equal. induction IH as [|k ks Hk _ IHks]; [done|].
  cbn [flat_map] in Hall. apply Forall_app in Hall as [Hk' Hks'].
  cbn [map]. by rewrite Hk, IHks.
Qed.

(** X6: the dependency check keeps the shape of the tree and only ever
    adds flags.  The node ids, in pre-order, are unchanged; when no node
    watches the changed id the tree comes back as it went in; a node that
    does not watch the id keeps its review flag and flag sources as they
    were (so a flag does not cascade to the watchers of a flagged node);
    and no node loses a review flag or a flag source. *)
Theorem checkDependencies_only_adds_flags (T : MindMapData) (c : string) :
  node_ids (checkDependencies T c) = node_ids T
  /\ (Forall (fun m => watches c m = false) (nodes T) ->
      checkDependencies T c = T)
  /\ Forall2 (fun m n =>
                (watches c m = false ->
                 isFlaggedForReview n = isFlaggedForReview m
                 /\ flaggedSourceIds n = flaggedSourceIds m)
                /\ (isFlaggedForReview m = Some true ->
                    isFlaggedForReview n = Some true)
                /\ flagsOf m `prefix_of` flagsOf n)
       (nodes T) (nodes (checkDependencies T c)).
Proof.
  unfold checkDependencies. split; [|split].
  - unfold node_ids. rewrite nodes_traverse, <- list_fmap_compose.
    apply list_fmap_ext. intros i m _. apply traverse_id.
  - apply traverse_no_watcher.
  - rewrite nodes_traverse.
    apply Forall2_fmap_r, Forall_Forall2_diag, Forall_forall. intros m _.
    unfold compose. unfold flagsOf at 2.
    rewrite traverse_flagged, traverse_flags. split; [|split].
    + intros Hw. by rewrite Hw.
    + intros Hf. by destruct (watches c m).
    + destruct (watches c m && negb (JS.includes c (flagsOf m))); simpl.
      * by apply prefix_app_r.
      * done.
Qed.

Lemma checkDependencies_only_adds_flags_witness :
  checkDependencies sampleTree "a1" = sampleTree.
Proof.
  apply (proj1 (proj2 (checkDependencies_only_adds_flags sampleTree "a1"))).
  apply (bool_decide_unpack _). vm_compute. exact I.
Defined.

(** ** History manager, continued *)

Lemma at_index_nat {A} (l : list A) (i : Z) :
  (0 <= i)%Z -> JS.at_index l i = l !! Z.to_nat i.
Proof.
  intros Hi. unfold JS.at_index. by destruct (Z.ltb_spec i 0); [lia|].
Qed.

Lemma at_index_last {A} (l : list A) :
  JS.at_index l (Z.of_nat (length l) - 1) = last l.
Proof.
  unfold JS.at_index. destruct l as [|a l]; [done|].
  destruct (Z.ltb_spec (Z.of_nat (length (a :: l)) - 1) 0) as [Hlt|_];
    [simpl in Hlt; lia|].
  rewrite last_lookup. f_equal. simpl. lia.
Qed.

Lemma commit_synced st d desc now :
  Synced (commitToHistory st d desc now).1.
Proof.
  unfold Synced. rewrite commit_index, at_index_last, commit_history.
  by rewrite evictOldest_last.
Qed.

Lemma restore_synced st index :
  Synced st -> Synced (restoreFromHistory st index).1.
Proof.
  intros Hst. unfold restoreFromHistory.
  destruct (_ && _); [|done].
  destruct (JS.at_index (history st) index) as [e|] eqn:He; [|done].
  unfold Synced. simpl. by rewrite He.
Qed.

Lemma reachable_synced st : Reachable st -> Synced st.
Proof.
  induction 1 as [|st st' _ IH Hstep]; [done|].
  destruct Hstep.
  - apply commit_synced.
  - by apply restore_synced.
  - unfold undo. destruct (_ <=? _)%Z; [done|]. by apply restore_synced.
  - unfold redo. destruct (_ <=? _)%Z; [done|]. by apply restore_synced.
  - done.
  - done.
Qed.

Lemma commitAll_reachable st cs :
  Reachable st -> Reachable (commitAll st cs).
Proof.
  revert st. induction cs as [|c cs IH]; intros st Hst; [done|].
  apply IH. eapply reach_step; [exact Hst|apply step_commit].
Qed.

(** X7: in every state that commits, restores, undo, redo, a session
    start or a close can produce, the index lies between -1 and the last
    position of the stack, and the live document is the snapshot at the
    index; there is a live document exactly when the stack is not
    empty. *)
Theorem history_index_names_live_document (st : AppState) :
  Reachable st ->
  (-1 <= historyIndex st <= Z.of_nat (length (history st)) - 1)%Z
  /\ mindMap st = entry_data <$> JS.at_index (history st) (historyIndex st)
  /\ (history st = [] <-> mindMap st = None).
Proof.
  intros Hreach. pose proof (reachable_index st Hreach) as Hidx.
  pose proof (reachable_synced st Hreach) as Hsync.
  split; [done|]. split; [done|].
  assert (history st = [] <-> historyIndex st = (-1)%Z) as Hempty.
  { clear Hsync Hidx. induction Hreach as [|st st' Hreach IH Hstep]; [done|].
    destruct Hstep.
    - rewrite commit_index.
      destruct (history (commitToHistory st data description0 now).1);
        [done|]. split; [done|]. simpl. lia.
    - unfold restoreFromHistory. destruct (_ && _) eqn:Hr; [|done].
      destruct (JS.at_index _ _); [|done]. simpl.
      apply andb_true_iff in Hr as [H0%Z.leb_le H1%Z.ltb_lt].
      split; [intros E; rewrite E in H1; simpl in H1; lia|lia].
    - unfold undo. destruct (_ <=? _)%Z eqn:Hu; [done|].
      unfold restoreFromHistory. destruct (_ && _) eqn:Hr; [|done].
      destruct (JS.at_index _ _); [|done]. simpl.
      apply andb_true_iff in Hr as [H0%Z.leb_le H1%Z.ltb_lt].
      split; [intros E; rewrite E in H1; simpl in H1; lia|lia].
    - unfold redo. destruct (_ <=? _)%Z eqn:Hu; [done|].
      unfold restoreFromHistory. destruct (_ && _) eqn:Hr; [|done].
      destruct (JS.at_index _ _); [|done]. simpl.
      apply andb_true_iff in Hr as [H0%Z.leb_le H1%Z.ltb_lt].
      split; [intros E; rewrite E in H1; simpl in H1; lia|lia].
    - done.
    - done. }
  rewrite Hsync. split.
  - intros E. rewrite E. unfold JS.at_index. by destruct (_ <? _)%Z.
  - intros Hnone. apply Hempty.
    destruct (decide (historyIndex st = (-1)%Z)) as [|Hne]; [done|].
    rewrite at_index_nat in Hnone by lia.
    destruct (lookup_lt_is_Some_2 (history st) (Z.to_nat (historyIndex st)))
      as [e He]; [lia|].
    by rewrite He in Hnone.
Qed.

Lemma history_index_names_live_document_witness :
  mindMap (commitAll initialState elevenCommits)
  = entry_data <$> JS.at_index (history (commitAll initialState elevenCommits))
                     (historyIndex (commitAll initialState elevenCommits)).
Proof.
  refine (proj1 (proj2 (history_index_names_live_document _ _))).
  apply commitAll_reachable, reach_init.
Defined.

Lemma undo_at st j x :
  historyIndex st = Z.of_nat (S j) -> history st !! j = Some x ->
  (undo st).1 =
  mkApp (Some (entry_data x)) (history st) (Z.of_nat j) (unsavedChanges st)
    (autoSave st) (isDevMode st).
Proof.
  intros Hidx Hx. unfold undo. rewrite Hidx.
  destruct (Z.leb_spec (Z.of_nat (S j)) 0) as [|_]; [lia|].
  unfold restoreFromHistory.
  replace (Z.of_nat (S j) - 1)%Z with (Z.of_nat j) by lia.
  apply lookup_lt_Some in Hx as Hlt.
  destruct (Z.leb_spec 0 (Z.of_nat j)) as [_|]; [|lia].
  destruct (Z.ltb_spec (Z.of_nat j) (Z.of_nat (length (history st))))
    as [_|]; [|lia].
  simpl. rewrite at_index_nat, Nat2Z.id, Hx by lia. done.
Qed.

Lemma redo_at st j y :
  historyIndex st = Z.of_nat j -> history st !! S j = Some y ->
  (redo st).1 =
  mkApp (Some (entry_data y)) (history st) (Z.of_nat (S j)) (unsavedChanges st)
    (autoSave st) (isDevMode st).
Proof.
  intros Hidx Hy. unfold redo. rewrite Hidx.
  apply lookup_lt_Some in Hy as Hlt.
  destruct (Z.leb_spec (Z.of_nat (length (history st)) - 1) (Z.of_nat j))
    as [|_]; [lia|].
  unfold restoreFromHistory.
  replace (Z.of_nat j + 1)%Z with (Z.of_nat (S j)) by lia.
  destruct (Z.leb_spec 0 (Z.of_nat (S j))) as [_|]; [|lia].
  destruct (Z.ltb_spec (Z.of_nat (S j)) (Z.of_nat (length (history st))))
    as [_|]; [|lia].
  simpl. rewrite at_index_nat, Nat2Z.id, Hy by lia. done.
Qed.

Lemma evictOldest_two_last l x e :
  exists m, evictOldest (l ++ [x] ++ [e]) = m ++ [x; e].
Proof.
  unfold evictOldest.
  destruct (Nat.ltb_spec HISTORY_LIMIT (length (l ++ [x] ++ [e]))) as [Hlt|_].
  - destruct l as [|a l].
    + unfold HISTORY_LIMIT in Hlt. simpl in Hlt. lia.
    + exists l. simpl. by rewrite drop_0.
  - by exists l.
Qed.



(** ** Node deletion *)

Lemma resolves_iff root t : resolves root t = true <-> t ∈ node_ids root.
Proof.
  unfold resolves. split.
  - destruct (findNodeAndPath root t []) eqn:Hr; [|done]. intros _.
    destruct (decide (t ∈ node_ids root)) as [|Hnot]; [done|].
    by rewrite findNodeAndPath_absent in Hr.
  - intros Hin. by destruct (findNodeAndPath_present root t [] Hin) as [r ->].
Qed.

Lemma firstWithId_absent t root :
  t ∉ node_ids root -> firstWithId t root = None.
Proof.
  intros Hnot. rewrite <- (findNodeAndPath_firstWithId t root []).
  by rewrite findNodeAndPath_absent.
Qed.

Lemma find_flat_map_absent t (pre : list MindMapData) :
  (forall c, c ∈ pre -> t ∉ node_ids c) ->
  List.find (fun n => bool_decide (id n = t)) (flat_map nodes pre) = None.
Proof.
  induction pre as [|c pre IH]; intros Habs; [done|].
  cbn [flat_map]. rewrite find_app_first.
  fold (firstWithId t c). rewrite firstWithId_absent by (apply Habs; by left).
  apply IH. intros c' Hc'. apply Habs. by right.
Qed.

Lemma firstWithId_below t root pre k post :
  id root <> t -> kids root = pre ++ k :: post ->
  (forall c, c ∈ pre -> t ∉ node_ids c) ->
  t ∈ node_ids k ->
  firstWithId t root = firstWithId t k.
Proof.
  intros Hne Hk Habs Hin. unfold firstWithId at 1.
  rewrite nodes_unfold, Hk. cbn [List.find].
  rewrite bool_decide_eq_false_2 by done.
  rewrite flat_map_app, find_app_first, find_flat_map_absent by done.
  cbn [flat_map]. rewrite find_app_first. fold (firstWithId t k).
  destruct (firstWithId t k) eqn:Hf; [done|].
  exfalso. rewrite <- (findNodeAndPath_firstWithId t k []) in Hf.
  destruct (findNodeAndPath_present k t [] Hin) as [r Hr].
  by rewrite Hr in Hf.
Qed.

(** How the retraced search ends on a child list that holds the id. *)
Lemma remove_loop_segment t (cs : list MindMapData) :
  Forall (fun c =>
            NoDup (node_ids c) -> id c <> t -> t ∈ node_ids c ->
            exists victim A B,
              firstWithId t c = Some victim
              /\ node_ids c = A ++ node_ids victim ++ B
              /\ node_ids (removeAt c t) = A ++ B
              /\ id (removeAt c t) = id c) cs ->
  NoDup (flat_map node_ids cs) ->
  t ∈ flat_map node_ids cs ->
  (exists pre v post,
     cs = pre ++ v :: post /\ id v = t
     /\ (forall c, c ∈ pre -> t ∉ node_ids c)
     /\ remove_loop (fun c => removeAt c t) t cs = hit_child)
  \/ (exists pre k post victim A B,
        cs = pre ++ k :: post /\ id k <> t
        /\ (forall c, c ∈ pre -> t ∉ node_ids c)
        /\ remove_loop (fun c => removeAt c t) t cs
           = hit_below (pre ++ removeAt k t :: post)
        /\ firstWithId t k = Some victim
        /\ node_ids k = A ++ node_ids victim ++ B
        /\ node_ids (removeAt k t) = A ++ B).
Proof.
  induction 1 as [|c cs Hc _ IH]; intros Hnd Hin;
    [by apply elem_of_nil in Hin|].
  cbn [flat_map] in Hnd, Hin. apply NoDup_app in Hnd as (Hndc & _ & Hndcs).
  cbn [remove_loop].
  destruct (decide (id c = t)) as [Heq|Hne].
  - left. exists [], c, cs. repeat split; try done.
    intros c' Hc'. by apply elem_of_nil in Hc'.
  - destruct (resolves c t) eqn:Hres.
    + right. apply resolves_iff in Hres.
      destruct (Hc Hndc Hne Hres) as (victim & A & B & Hv & Hids & Hrem & _).
      exists [], c, cs, victim, A, B. repeat split; try done.
      intros c' Hc'. by apply elem_of_nil in Hc'.
    + assert (t ∉ node_ids c) as Habs.
      { intros Hin'. apply resolves_iff in Hin'. congruence. }
      apply elem_of_app in Hin as [Hin|Hin]; [done|].
      destruct (IH Hndcs Hin) as
        [(pre & v & post & -> & Hid & Hpre & Hloop)
        |(pre & k & post & victim & A & B & -> & Hid & Hpre & Hloop
            & Hv & Hids & Hrem)].
      * left. exists (c :: pre), v, post. rewrite Hloop.
        repeat split; try done.
        intros c' Hc'. apply elem_of_cons in Hc' as [->|Hc']; [done|].
        by apply Hpre.
      * right. exists (c :: pre), k, post, victim, A, B. rewrite Hloop.
        repeat split; try done.
        intros c' Hc'. apply elem_of_cons in Hc' as [->|Hc']; [done|].
        by apply Hpre.
Qed.

Lemma removeAt_unfold root t :
  removeAt root t =
  match children root with
  | Some cs =>
      match remove_loop (fun child => removeAt child t) t cs with
      | hit_child =>
          set_children root
            (Some (List.filter (fun c => negb (bool_decide (id c = t))) cs))
      | hit_below cs' => set_children root (Some cs')
      | hit_none => root
      end
  | None => root
  end.
Proof. destruct root; reflexivity. Qed.

Lemma filter_keeps_all (l : list MindMapData) t :
  (forall c, c ∈ l -> id c <> t) ->
  List.filter (fun c => negb (bool_decide (id c = t))) l = l.
Proof.
  induction l as [|c l IH]; intros Hall; [done|].
  cbn [List.filter]. rewrite bool_decide_eq_false_2 by (apply Hall; by left).
  simpl. f_equal. apply IH. intros c' Hc'. apply Hall. by right.
Qed.

Lemma node_ids_set_children n cs :
  node_ids (set_children n (Some cs)) = id n :: flat_map node_ids cs.
Proof. by rewrite node_ids_unfold. Qed.

Lemma removeAt_segment t :
  forall root,
    NoDup (node_ids root) -> id root <> t -> t ∈ node_ids root ->
    exists victim A B,
      firstWithId t root = Some victim
      /\ node_ids root = A ++ node_ids victim ++ B
      /\ node_ids (removeAt root t) = A ++ B
      /\ id (removeAt root t) = id root.
Proof.
  induction root as [root IH] using MindMapData_tree_ind.
  intros Hnd Hne Hin.
  rewrite node_ids_unfold in Hnd, Hin.
  apply NoDup_cons in Hnd as [_ Hnd].
  apply elem_of_cons in Hin as [Heq|Hin]; [congruence|].
  rewrite removeAt_unfold.
  destruct (children root) as [cs|] eqn:Hcs;
    [|rewrite (kids_None _ Hcs) in Hin; by apply elem_of_nil in Hin].
  rewrite (kids_Some _ _ Hcs) in *.
  destruct (remove_loop_segment t cs IH Hnd Hin) as
    [(pre & v & post & Hsplit & Hid & Hpre & Hloop)
    |(pre & k & post & victim & A & B & Hsplit & Hid & Hpre & Hloop
        & Hv & Hids & Hrem)]; rewrite Hloop.
  - (* the node is a child of this root *)
    exists v, (id root :: flat_map node_ids pre), (flat_map node_ids post).
    assert (t ∈ node_ids v) as Htv by (rewrite node_ids_unfold, Hid; by left).
    split; [|split; [|split]].
    + rewrite (firstWithId_below t root pre v post); try done.
      * unfold firstWithId. rewrite nodes_unfold. cbn [List.find].
        by rewrite bool_decide_eq_true_2.
      * by rewrite (kids_Some _ _ Hcs).
    + rewrite node_ids_unfold, (kids_Some _ _ Hcs), Hsplit, flat_map_app.
      cbn [flat_map]. by rewrite <- ?(assoc_L (++)).
    + rewrite node_ids_set_children. f_equal.
      rewrite Hsplit at 1. rewrite List.filter_app. cbn [List.filter].
      rewrite bool_decide_eq_true_2 by done. simpl.
      rewrite !filter_keeps_all, flat_map_app; [done| |].
      * intros c Hc E. subst cs.
        rewrite flat_map_app in Hnd. apply NoDup_app in Hnd as (_ & _ & Hnd).
        cbn [flat_map] in Hnd. apply NoDup_app in Hnd as (_ & Hdisj & _).
        apply (Hdisj t Htv). apply list_elem_of_In, in_flat_map.
        exists c. split; [by apply list_elem_of_In|].
        apply list_elem_of_In. rewrite node_ids_unfold, E. by left.
      * intros c Hc E. apply (Hpre c Hc). rewrite node_ids_unfold, E.
        by left.
    + done.
  - (* the node lies below the child [k] *)
    exists victim, (id root :: flat_map node_ids pre ++ A),
      (B ++ flat_map node_ids post).
    assert (t ∈ node_ids k) as Htk.
    { rewrite Hids. apply elem_of_app. right. apply elem_of_app. left.
      unfold firstWithId in Hv. apply find_some in Hv as [_ Hv].
      apply bool_decide_eq_true in Hv. rewrite node_ids_unfold, Hv. by left. }
    split; [|split; [|split]].
    + rewrite (firstWithId_below t root pre k post); try done.
      by rewrite (kids_Some _ _ Hcs).
    + rewrite node_ids_unfold, (kids_Some _ _ Hcs), Hsplit, flat_map_app.
      cbn [flat_map]. rewrite Hids.
      rewrite <- !(assoc_L (++)). cbn [app].
      by rewrite <- ?(assoc_L (++)).
    + rewrite node_ids_set_children, flat_map_app. cbn [flat_map].
      rewrite Hrem. rewrite <- !(assoc_L (++)). cbn [app].
      by rewrite <- ?(assoc_L (++)).
    + done.
Qed.

Lemma node_ids_traverse c T : node_ids (traverse c T) = node_ids T.
Proof.
  unfold node_ids. rewrite nodes_traverse, <- list_fmap_compose.
  apply list_fmap_ext. intros i m _. apply traverse_id.
Qed.

Lemma traverse_flags_watchers c T :
  Forall (fun n => watches c n = true -> isFlaggedForReview n = Some true)
    (nodes (traverse c T)).
Proof.
  rewrite nodes_traverse. apply Forall_fmap, Forall_forall. intros m _.
  simpl. unfold watches at 1. rewrite traverse_watched. fold (watches c m).
  intros Hw. by rewrite traverse_flagged, Hw.
Qed.

Lemma segment_removed (A V B : list string) :
  NoDup (A ++ V ++ B) ->
  NoDup (A ++ B)
  /\ forall x, x ∈ A ++ B <-> (x ∈ A ++ V ++ B /\ x ∉ V).
Proof.
  intros Hnd. apply NoDup_app in Hnd as (HA & HdisjA & Hnd).
  apply NoDup_app in Hnd as (HV & HdisjV & HB).
  split.
  - apply NoDup_app. split; [done|]. split; [|done].
    intros x Hx Hx'. apply (HdisjA x Hx). apply elem_of_app. by right.
  - intros x. rewrite !elem_of_app. split.
    + intros [Hx|Hx].
      * split; [by left|]. intros Hv. apply (HdisjA x Hx).
        apply elem_of_app. by left.
      * split; [right; by right|]. intros Hv. by apply (HdisjV x Hv).
    + intros [[Hx|[Hx|Hx]] Hnot]; [by left|done|by right].
Qed.

(** X10: deleting a node other than the root, in a document with unique
    ids, commits a document from which exactly the ids of the deleted
    node and its descendants are gone: the root stays, every other id
    stays, ids remain unique, every node that watches the deleted id is
    flagged for review, and the new snapshot is the last entry of the
    stack under the description "Deleted node: " followed by the label. *)
Theorem deleteNodeAction_removes_subtree (st : AppState)
    (T node : MindMapData) (now : Z) :
  mindMap st = Some T -> NoDup (node_ids T) ->
  id node <> id T -> id node ∈ node_ids T ->
  exists doc victim,
    mindMap (deleteNodeAction st node now).1 = Some doc
    /\ firstWithId (id node) T = Some victim
    /\ id doc = id T
    /\ (forall x, x ∈ node_ids doc <->
                  (x ∈ node_ids T /\ x ∉ node_ids victim))
    /\ NoDup (node_ids doc)
    /\ last (history (deleteNodeAction st node now).1)
       = Some (mkEntry doc ("Deleted node: " +:+ label node) now)
    /\ Forall (fun n => watches (id node) n = true ->
                        isFlaggedForReview n = Some true) (nodes doc).
Proof.
  intros Hmap Hnd Hne Hin.
  destruct (removeAt_segment (id node) T Hnd (not_eq_sym Hne) Hin)
    as (victim & A & B & Hv & Hids & Hrem & Hid).
  exists (checkDependencies (removeAt T (id node)) (id node)), victim.
  unfold deleteNodeAction, deepClone. rewrite Hmap.
  rewrite decide_False by (by apply not_eq_sym).
  destruct (findNodeAndPath_present T (id node) [] Hin) as [target Htarget].
  rewrite Htarget.
  assert (is_Some (found_parent target)) as [par Hpar].
  { destruct (findNodeAndPath_resolved _ _ _ _ Htarget)
      as (Hidt & ls & _ & _ & Hparent).
    destruct (found_parent target); [by eexists|].
    destruct Hparent as [Hroot _]. rewrite Hroot in Hidt. congruence. }
  rewrite Hpar. unfold app_bind. cbn [commitToHistory fst snd mindMap history].
  unfold checkDependencies. rewrite node_ids_traverse, Hrem.
  rewrite Hids in Hnd. destruct (segment_removed A _ B Hnd) as [Hnd' Hiff].
  split; [done|]. split; [done|].
  split; [by rewrite traverse_id|].
  split; [by rewrite Hids|]. split; [done|].
  split; [apply evictOldest_last|apply traverse_flags_watchers].
Qed.

Lemma deleteNodeAction_removes_subtree_witness :
  let st := mkApp (Some sampleTree) [mkEntry sampleTree "Initial Generation" 0]
              0 false false false in
  exists doc,
    mindMap (deleteNodeAction st (bareNode "a" "A" None) 5).1 = Some doc
    /\ node_ids doc = ["root"; "b"]
    /\ NoDup (node_ids doc).
Proof.
  intros st.
  destruct (deleteNodeAction_removes_subtree st sampleTree
              (bareNode "a" "A" None) 5)
    as (doc & victim & Hdoc & _ & _ & _ & Hnd & _).
  - reflexivity.
  - apply (bool_decide_unpack _). vm_compute. exact I.
  - discriminate.
  - apply (bool_decide_unpack _). vm_compute. exact I.
  - exists doc. split; [done|]. split; [|done].
    vm_compute in Hdoc. by injection Hdoc as <-.
Defined.

(** X11: deleting the root discards the document together with the whole
    history, so that afterwards undo, redo and a restore of any index
    change nothing; a delete aimed at an id that the document does not
    contain leaves the state as it was. *)
Theorem deleteNodeAction_root_and_miss (st : AppState)
    (T node : MindMapData) (now : Z) :
  mindMap st = Some T ->
  (id node = id T ->
     let st' := (deleteNodeAction st node now).1 in
     mindMap st' = None /\ history st' = []
     /\ undo st' = (st', []) /\ redo st' = (st', [])
     /\ forall index, restoreFromHistory st' index = (st', []))
  /\ (id node ∉ node_ids T -> (deleteNodeAction st node now).1 = st).
Proof.
  intros Hmap. split.
  - intros Hid. unfold deleteNodeAction. rewrite Hmap.
    rewrite decide_True by done. cbn [fst].
    repeat split. intros index. unfold restoreFromHistory.
    cbn [history length].
    by destruct (Z.leb_spec 0 index), (Z.ltb_spec index (Z.of_nat 0));
      try lia.
  - intros Hnot. unfold deleteNodeAction, deepClone. rewrite Hmap.
    rewrite decide_False.
    + by rewrite findNodeAndPath_absent.
    + intros E. apply Hnot. rewrite node_ids_unfold, E. by left.
Qed.

Lemma deleteNodeAction_root_and_miss_witness :
  let st := mkApp (Some sampleTree) [mkEntry sampleTree "Initial Generation" 0]
              0 false false false in
  history (deleteNodeAction st (bareNode "root" "Root" None) 5).1 = []
  /\ (deleteNodeAction st (bareNode "gone" "Gone" None) 5).1 = st.
Proof.
  intros st.
  destruct (deleteNodeAction_root_and_miss st sampleTree
              (bareNode "root" "Root" None) 5 eq_refl) as (Hroot & _).
  destruct (deleteNodeAction_root_and_miss st sampleTree
              (bareNode "gone" "Gone" None) 5 eq_refl) as (_ & Hmiss).
  split.
  - exact (proj1 (proj2 (Hroot eq_refl))).
  - apply Hmiss. apply (bool_decide_unpack _). vm_compute. exact I.
Defined.

(** ** Mutation pipeline, continued *)

Lemma assignAt_unfold f root t :
  assignAt f root t =
  if decide (id root = t) then f root
  else match children root with
       | Some cs =>
           set_children root
             (Some (assign_loop (fun child => assignAt f child t) f t cs))
       | None => root
       end.
Proof. destruct root; reflexivity. Qed.

Lemma fmap_flat_map_nodes {X} (g : MindMapData -> X) (l1 l2 : list MindMapData) :
  g <$> flat_map nodes (l1 ++ l2)
  = (g <$> flat_map nodes l1) ++ (g <$> flat_map nodes l2).
Proof. by rewrite flat_map_app, fmap_app. Qed.

Section AssignSegment.

Context {X : Type}.
Variable g : MindMapData -> X.
Hypothesis g_ignores_children : forall n cs, g (set_children n cs) = g n.
Variable f : MindMapData -> MindMapData.
Variable t : string.

Lemma nodes_without_id (pre : list MindMapData) :
  (forall c, c ∈ pre -> t ∉ node_ids c) ->
  Forall (fun n => id n <> t) (flat_map nodes pre).
Proof.
  intros Habs. apply Forall_forall. intros n Hn E.
  apply list_elem_of_In, in_flat_map in Hn as (c & Hc & Hn).
  apply (Habs c); [by apply list_elem_of_In|].
  rewrite <- E. apply node_ids_elem. by apply list_elem_of_In.
Qed.

Lemma assign_loop_segment (cs : list MindMapData) :
  Forall (fun c => t ∈ node_ids c -> SegmentOf g f t c (assignAt f c t)) cs ->
  t ∈ flat_map node_ids cs ->
  exists pre k k' post,
    cs = pre ++ k :: post
    /\ (forall c, c ∈ pre -> t ∉ node_ids c)
    /\ t ∈ node_ids k
    /\ assign_loop (fun c => assignAt f c t) f t cs = pre ++ k' :: post
    /\ SegmentOf g f t k k'.
Proof.
  induction 1 as [|c cs Hc _ IH]; intros Hin;
    [by apply elem_of_nil in Hin|].
  cbn [assign_loop].
  destruct (decide (id c = t)) as [Heq|Hne].
  - exists [], c, (f c), cs.
    split; [done|]. split; [intros c' Hc'; by apply elem_of_nil in Hc'|].
    split; [rewrite node_ids_unfold, Heq; by left|]. split; [done|].
    exists c, [], []. split.
    + unfold firstWithId. rewrite nodes_unfold. cbn [List.find].
      by rewrite bool_decide_eq_true_2.
    + split; [by rewrite app_nil_r|]. split; [constructor|].
      by rewrite fmap_nil, app_nil_r.
  - destruct (resolves c t) eqn:Hres.
    + apply resolves_iff in Hres.
      exists [], c, (assignAt f c t), cs.
      split; [done|]. split; [intros c' Hc'; by apply elem_of_nil in Hc'|].
      split; [done|]. split; [done|]. by apply Hc.
    + assert (t ∉ node_ids c) as Habs.
      { intros Hin'. apply resolves_iff in Hin'. congruence. }
      cbn [flat_map] in Hin. apply elem_of_app in Hin as [Hin|Hin]; [done|].
      destruct (IH Hin) as (pre & k & k' & post & -> & Hpre & Hk & Hloop & Hseg).
      exists (c :: pre), k, k', post. rewrite Hloop.
      split; [done|]. split; [|done].
      intros c' Hc'. apply elem_of_cons in Hc' as [->|Hc']; [done|].
      by apply Hpre.
Qed.

Lemma assignAt_segment_nodes :
  forall root, t ∈ node_ids root -> SegmentOf g f t root (assignAt f root t).
Proof.
  induction root as [root IH] using MindMapData_tree_ind. intros Hin.
  rewrite assignAt_unfold.
  destruct (decide (id root = t)) as [Heq|Hne].
  - exists root, [], []. split.
    + unfold firstWithId. rewrite nodes_unfold. cbn [List.find].
      by rewrite bool_decide_eq_true_2.
    + split; [by rewrite app_nil_r|]. split; [constructor|].
      by rewrite fmap_nil, app_nil_r.
  - rewrite node_ids_unfold in Hin.
    apply elem_of_cons in Hin as [Heq|Hin]; [congruence|].
    destruct (children root) as [cs|] eqn:Hcs;
      [|rewrite (kids_None _ Hcs) in Hin; by apply elem_of_nil in Hin].
    rewrite (kids_Some _ _ Hcs) in *.
    destruct (assign_loop_segment cs IH Hin)
      as (pre & k & k' & post & Hsplit & Hpre & Hk & Hloop
            & victim & NA & NB & Hv & Hold & Hfresh & Hnew).
    exists victim, (root :: flat_map nodes pre ++ NA),
      (NB ++ flat_map nodes post).
    split; [|split; [|split]].
    + rewrite (firstWithId_below t root pre k post); try done.
      by rewrite (kids_Some _ _ Hcs).
    + rewrite nodes_unfold, (kids_Some _ _ Hcs), Hsplit, flat_map_app.
      cbn [flat_map]. rewrite Hold. cbn [app]. f_equal.
      by rewrite <- !(assoc_L (++)).
    + constructor; [done|]. apply Forall_app. split; [|done].
      by apply nodes_without_id.
    + rewrite Hloop, nodes_unfold.
      rewrite (kids_Some (set_children root _) (pre ++ k' :: post) eq_refl).
      rewrite fmap_cons, g_ignores_children.
      rewrite fmap_flat_map_nodes. cbn [flat_map].
      rewrite !fmap_app, Hnew. rewrite fmap_cons. cbn [app]. f_equal.
      rewrite !fmap_app. repeat rewrite <- app_assoc. reflexivity.
Qed.

Lemma assignAt_segment :
  forall root,
    t ∈ node_ids root ->
    exists victim A B,
      firstWithId t root = Some victim
      /\ g <$> nodes root = A ++ (g <$> nodes victim) ++ B
      /\ g <$> nodes (assignAt f root t)
         = A ++ (g <$> nodes (f victim)) ++ B.
Proof.
  intros root Hin.
  destruct (assignAt_segment_nodes root Hin)
    as (victim & NA & NB & Hv & Hold & _ & Hnew).
  exists victim, (g <$> NA), (g <$> NB).
  split; [done|]. split; [|done]. by rewrite Hold, !fmap_app.
Qed.

End AssignSegment.

Lemma traverse_content c n : nodeContent (traverse c n) = nodeContent n.
Proof. by rewrite traverse_eq. Qed.

Lemma content_traverse c T :
  nodeContent <$> nodes (traverse c T) = nodeContent <$> nodes T.
Proof.
  rewrite nodes_traverse, <- list_fmap_compose.
  apply list_fmap_ext. intros i m _. apply traverse_content.
Qed.

(** X12: an update through the pipeline touches one subtree only.  When
    the id occurs in the document, the committed document lists, in
    pre-order, the same node contents (every field but the children and
    the review flags) as before, except that the stretch of the first
    node carrying the id and its descendants is replaced by the stretch
    of the merged node; this holds with and without the dependency
    check.  The merged node takes every own property of the update
    object, also one that holds [undefined], and keeps its own value
    only where the update has no such property.  The new snapshot is the
    last entry of the stack. *)
Theorem updateNodeInTree_touches_one_subtree (st : AppState)
    (T : MindMapData) (nodeId : string)
    (updateFn : MindMapData -> NodeUpdate) (actionDescription : string)
    (shouldAutoSave triggerDependencyCheck : bool) (now : Z) :
  mindMap st = Some T -> nodeId ∈ node_ids T ->
  exists doc victim A B,
    mindMap (updateNodeInTree st nodeId updateFn actionDescription
               shouldAutoSave triggerDependencyCheck now).1 = Some doc
    /\ firstWithId nodeId T = Some victim
    /\ nodeContent <$> nodes T = A ++ (nodeContent <$> nodes victim) ++ B
    /\ nodeContent <$> nodes doc
       = A ++ (nodeContent
                 <$> nodes (objectAssign victim (updateFn victim))) ++ B
    /\ last (history (updateNodeInTree st nodeId updateFn actionDescription
                        shouldAutoSave triggerDependencyCheck now).1)
       = Some (mkEntry doc actionDescription now).
Proof.
  intros Hmap Hin.
  destruct (assignAt_segment nodeContent (fun n cs => eq_refl)
              (fun node => objectAssign node (updateFn node)) nodeId T Hin)
    as (victim & A & B & Hv & Hold & Hnew).
  unfold updateNodeInTree, deepClone. rewrite Hmap.
  destruct (findNodeAndPath_present T nodeId [] Hin) as [target ->].
  set (clone1 := assignAt _ T nodeId) in *.
  destruct triggerDependencyCheck.
  - exists (checkDependencies clone1 nodeId), victim, A, B.
    assert (nodeContent <$> nodes (checkDependencies clone1 nodeId)
            = A ++ (nodeContent
                      <$> nodes (objectAssign victim (updateFn victim))) ++ B)
      as Hnew' by (unfold checkDependencies; by rewrite content_traverse).
    unfold app_bind. cbn [commitToHistory].
    destruct (shouldAutoSave && _);
      cbn [fst snd saveSessionFile mindMap history];
      (split; [done|]); (split; [done|]); (split; [done|]);
      (split; [done|apply evictOldest_last]).
  - exists clone1, victim, A, B.
    unfold app_bind. cbn [commitToHistory].
    destruct (shouldAutoSave && _);
      cbn [fst snd saveSessionFile mindMap history];
      (split; [done|]); (split; [done|]); (split; [done|]);
      (split; [done|apply evictOldest_last]).
Qed.

Lemma updateNodeInTree_touches_one_subtree_witness :
  let st := mkApp (Some detailedTree)
              [mkEntry detailedTree "Initial Generation" 0]
              0 false false false in
  exists doc,
    mindMap (resetNodeAction st (bareNode "a" "A" None) true false 3).1
    = Some doc
    /\ cachedDetails <$> nodes doc = [None; None]
    /\ detailsLocked <$> nodes doc = [None; Some false].
Proof.
  intros st.
  destruct (updateNodeInTree_touches_one_subtree st detailedTree "a"
              (resetContent true false) "Cleared content for A"
              false true 3) as (doc & _ & _ & _ & Hdoc & _).
  - reflexivity.
  - apply (bool_decide_unpack _). vm_compute. exact I.
  - exists doc. split; [exact Hdoc|].
    vm_compute in Hdoc. injection Hdoc as <-. split; reflexivity.
Defined.

Lemma updateNodeInTree_miss st T nodeId updateFn actionDescription
    shouldAutoSave triggerDependencyCheck now :
  mindMap st = Some T -> nodeId ∉ node_ids T ->
  updateNodeInTree st nodeId updateFn actionDescription shouldAutoSave
    triggerDependencyCheck now = (st, []).
Proof.
  intros Hmap Hnot. unfold updateNodeInTree, deepClone. rewrite Hmap.
  by rewrite (findNodeAndPath_absent T nodeId [] Hnot).
Qed.

Lemma assignProp_spread {A} (x : option A) : assignProp (Some <$> x) x = x.
Proof. by destruct x. Qed.

Lemma objectAssign_spread n : objectAssign n (spread n) = n.
Proof.
  unfold objectAssign, spread. cbn. rewrite !assignProp_spread.
  by destruct n.
Qed.

Lemma objectAssign_appendChildren newNodes n :
  objectAssign n (appendChildren newNodes n)
  = set_children n (Some (kids n ++ newNodes)).
Proof.
  unfold objectAssign, appendChildren, set_children. cbn.
  by rewrite !assignProp_spread.
Qed.

Lemma node_ids_appendChildren newNodes n :
  node_ids (set_children n (Some (kids n ++ newNodes)))
  = node_ids n ++ flat_map node_ids newNodes.
Proof.
  rewrite node_ids_set_children, flat_map_app.
  by rewrite (node_ids_unfold n).
Qed.

(** X13: adding nodes from the systems view appends them after the
    existing children of the first node that carries the parent id: the
    ids of the committed document are the old ones with the ids of the
    new nodes inserted directly after the parent's subtree, so nothing
    is lost or reordered.  When the parent id is not in the document the
    state is left as it was, and the handler still logs its success
    entry. *)
Theorem handleAddToMindMap_appends (st : AppState) (T : MindMapData)
    (parentId : string) (newNodes : list MindMapData) (now : Z) :
  mindMap st = Some T ->
  (parentId ∈ node_ids T ->
     exists doc parent A B,
       mindMap (handleAddToMindMap st parentId newNodes now).1 = Some doc
       /\ firstWithId parentId T = Some parent
       /\ node_ids T = A ++ node_ids parent ++ B
       /\ node_ids doc
          = A ++ (node_ids parent ++ flat_map node_ids newNodes) ++ B
       /\ node_ids doc ≡ₚ node_ids T ++ flat_map node_ids newNodes
       /\ last (history (handleAddToMindMap st parentId newNodes now).1)
          = Some (mkEntry doc
                    ("Added " +:+ pretty (length newNodes)
                     +:+ " nodes from Systems View") now))
  /\ (parentId ∉ node_ids T ->
        handleAddToMindMap st parentId newNodes now
        = (st, [LoggerSuccess "Added nodes to map"])).
Proof.
  intros Hmap. split.
  - intros Hin.
    destruct (assignAt_segment id (fun n cs => eq_refl)
                (fun node => objectAssign node (appendChildren newNodes node))
                parentId T Hin) as (parent & A & B & Hv & Hold & Hnew).
    rewrite objectAssign_appendChildren in Hnew.
    fold (node_ids T) in Hold. fold (node_ids parent) in Hold.
    fold (node_ids (set_children parent (Some (kids parent ++ newNodes))))
      in Hnew.
    rewrite node_ids_appendChildren in Hnew.
    unfold handleAddToMindMap, updateNodeInTree, deepClone. rewrite Hmap.
    destruct (findNodeAndPath_present T parentId [] Hin) as [target ->].
    set (doc := assignAt _ T parentId) in *.
    exists doc, parent, A, B. unfold app_bind. cbn.
    split; [done|]. split; [done|]. split; [done|].
    split; [exact Hnew|]. split; [|apply evictOldest_last].
    unfold node_ids at 1. rewrite Hnew, Hold.
    rewrite <- !(assoc_L (++)). do 2 f_equiv. apply Permutation_app_comm.
  - intros Hnot. unfold handleAddToMindMap.
    by rewrite (updateNodeInTree_miss st T) by done.
Qed.

Lemma handleAddToMindMap_appends_witness :
  let st := mkApp (Some sampleTree) [mkEntry sampleTree "Initial Generation" 0]
              0 false false false in
  (exists doc,
     mindMap (handleAddToMindMap st "a" [bareNode "n1" "New" (Some [])] 4).1
     = Some doc
     /\ node_ids doc = ["root"; "a"; "a1"; "a2"; "n1"; "b"])
  /\ handleAddToMindMap st "zz" [bareNode "n1" "New" (Some [])] 4
     = (st, [LoggerSuccess "Added nodes to map"]).
Proof.
  intros st.
  destruct (handleAddToMindMap_appends st sampleTree "a"
              [bareNode "n1" "New" (Some [])] 4 eq_refl) as (Hhit & _).
  destruct (handleAddToMindMap_appends st sampleTree "zz"
              [bareNode "n1" "New" (Some [])] 4 eq_refl) as (_ & Hmiss).
  split.
  - destruct Hhit as (doc & _ & _ & _ & Hdoc & _).
    + apply (bool_decide_unpack _). vm_compute. exact I.
    + exists doc. split; [done|].
      vm_compute in Hdoc. by injection Hdoc as <-.
  - apply Hmiss. apply (bool_decide_unpack _). vm_compute. exact I.
Defined.

(** ** Search reveal *)

Lemma expandFirst_absent x L :
  firstFlag x L = None -> expandFirst x L = L.
Proof.
  induction L as [|e L IH]; [done|]. cbn [firstFlag expandFirst].
  destruct (decide (e.1 = x)); [done|]. intros H. by rewrite IH.
Qed.

Lemma expandFirst_off x L :
  firstFlag x L = Some false -> expandFirst x L = L.
Proof.
  induction L as [|e L IH]; [done|]. cbn [firstFlag expandFirst].
  destruct (decide (e.1 = x)).
  - intros [= He]. destruct e as [y b]. simpl in *. by subst.
  - intros H. by rewrite IH.
Qed.

Lemma firstFlag_expandFirst x y L :
  firstFlag y (expandFirst x L) =
  if decide (y = x) then (fun _ => false) <$> firstFlag y L
  else firstFlag y L.
Proof.
  induction L as [|e L IH]; [by destruct (decide (y = x))|].
  cbn [expandFirst firstFlag].
  destruct (decide (e.1 = x)) as [Hex|Hex]; cbn [firstFlag fst snd].
  - destruct (decide (e.1 = y)) as [Hey|Hey].
    + by rewrite decide_True by congruence.
    + by rewrite decide_False by congruence.
  - destruct (decide (e.1 = y)) as [Hey|Hey].
    + by rewrite decide_False by congruence.
    + exact IH.
Qed.

Lemma firstFlag_view x (l : list MindMapData) :
  firstFlag x ((fun n => (id n, collapsedFlag n)) <$> l)
  = collapsedFlag <$> List.find (fun n => bool_decide (id n = x)) l.
Proof.
  induction l as [|n l IH]; [done|].
  rewrite fmap_cons. cbn [firstFlag List.find fst snd].
  destruct (decide (id n = x)).
  - by rewrite bool_decide_eq_true_2.
  - by rewrite bool_decide_eq_false_2.
Qed.

Lemma firstFlag_collapseView x doc :
  firstFlag x (collapseView doc) = collapsedFlag <$> firstWithId x doc.
Proof. apply firstFlag_view. Qed.

Lemma expandFirst_segment x (A : list (string * bool)) b R :
  Forall (fun e => e.1 <> x) A ->
  expandFirst x (A ++ (x, b) :: R) = A ++ (x, false) :: R.
Proof.
  induction 1 as [|e A He _ IH]; cbn [app expandFirst fst].
  - by rewrite decide_True.
  - by rewrite decide_False, IH.
Qed.

Lemma revealStep_views doc ch x :
  collapseView (revealStep (doc, ch) x).1 = expandFirst x (collapseView doc)
  /\ uncollapsedContent <$> nodes (revealStep (doc, ch) x).1
     = uncollapsedContent <$> nodes doc.
Proof.
  unfold revealStep. cbn [fst].
  pose proof (findNodeAndPath_firstWithId x doc []) as Hfirst.
  destruct (findNodeAndPath doc x []) as [target|] eqn:Htarget.
  - simpl in Hfirst. symmetry in Hfirst.
    destruct (JS.truthy_obool (collapsed (found_node target))) eqn:Hflag.
    + cbn [fst].
      assert (x ∈ node_ids doc) as Hin.
      { destruct (decide (x ∈ node_ids doc)) as [|Hnot]; [done|].
        by rewrite findNodeAndPath_absent in Htarget. }
      split.
      * destruct (assignAt_segment_nodes
                    (fun n => (id n, collapsedFlag n)) (fun n cs => eq_refl)
                    (setCollapsed false) x doc Hin)
          as (victim & NA & NB & Hv & Hold & Hfresh & Hnew).
        assert (victim = found_node target) as -> by congruence.
        unfold collapseView. rewrite Hnew, Hold, !fmap_app.
        rewrite (nodes_unfold (found_node target)).
        rewrite (nodes_unfold (setCollapsed false (found_node target))).
        rewrite !fmap_cons.
        assert (id (found_node target) = x) as Hid.
        { unfold firstWithId in Hv. apply find_some in Hv as [_ Hv].
          by apply bool_decide_eq_true in Hv. }
        cbn [id collapsedFlag collapsed JS.truthy_obool setCollapsed].
        rewrite Hid. cbn [app].
        rewrite expandFirst_segment; [done|].
        apply Forall_fmap. eapply Forall_impl; [exact Hfresh|]. done.
      * destruct (assignAt_segment uncollapsedContent (fun n cs => eq_refl)
                    (setCollapsed false) x doc Hin)
          as (victim & A & B & Hv & Hold & Hnew).
        rewrite Hnew, Hold. do 2 f_equal.
        by rewrite (nodes_unfold victim),
          (nodes_unfold (setCollapsed false victim)).
    + cbn [fst]. split; [|done]. symmetry. apply expandFirst_off.
      rewrite firstFlag_collapseView, Hfirst. simpl.
      by unfold collapsedFlag; rewrite Hflag.
  - cbn [fst]. split; [|done]. symmetry. apply expandFirst_absent.
    by rewrite firstFlag_collapseView, <- Hfirst.
Qed.

Lemma foldl_revealStep_views ids :
  forall doc ch,
    collapseView (foldl revealStep (doc, ch) ids).1
    = foldl (fun L x => expandFirst x L) (collapseView doc) ids
    /\ uncollapsedContent <$> nodes (foldl revealStep (doc, ch) ids).1
       = uncollapsedContent <$> nodes doc.
Proof.
  induction ids as [|x ids IH]; intros doc ch; [done|].
  cbn [foldl].
  destruct (revealStep_views doc ch x) as [Hview Hcontent].
  destruct (revealStep (doc, ch) x) as [doc1 ch1]. cbn [fst] in *.
  destruct (IH doc1 ch1) as [IHview IHcontent].
  by rewrite IHview, IHcontent, Hview, Hcontent.
Qed.

Lemma foldl_expandFirst_off ids :
  forall L x,
    x ∈ ids \/ firstFlag x L <> Some true ->
    firstFlag x (foldl (fun L x => expandFirst x L) L ids) <> Some true.
Proof.
  induction ids as [|y ids IH]; intros L x Hx.
  - destruct Hx as [Hx|Hx]; [by apply elem_of_nil in Hx|done].
  - cbn [foldl]. apply IH.
    destruct (decide (x ∈ ids)) as [|Hnot]; [by left|]. right.
    rewrite firstFlag_expandFirst.
    destruct (decide (x = y)) as [->|Hne].
    + by destruct (firstFlag y L).
    + destruct Hx as [Hx|Hx]; [|done].
      apply elem_of_cons in Hx as [|]; done.
Qed.

Lemma revealStep_unchanged doc x :
  (forall n, firstWithId x doc = Some n -> collapsedFlag n = false) ->
  forall ch, revealStep (doc, ch) x = (doc, ch).
Proof.
  intros Hoff ch. unfold revealStep. cbn [fst].
  pose proof (findNodeAndPath_firstWithId x doc []) as Hfirst.
  destruct (findNodeAndPath doc x []) as [target|]; [|done].
  simpl in Hfirst. symmetry in Hfirst. apply Hoff in Hfirst.
  unfold collapsedFlag in Hfirst. by rewrite Hfirst.
Qed.

Lemma foldl_revealStep_unchanged ids doc ch :
  (forall x n, x ∈ ids -> firstWithId x doc = Some n ->
               collapsedFlag n = false) ->
  foldl revealStep (doc, ch) ids = (doc, ch).
Proof.
  induction ids as [|x ids IH]; intros Hoff; [done|].
  cbn [foldl]. rewrite revealStep_unchanged.
  - apply IH. intros y n Hy. apply Hoff. by right.
  - intros n. apply Hoff. by left.
Qed.

Lemma revealStep_flag doc x :
  (revealStep (doc, true) x).2 = true
  /\ ((revealStep (doc, false) x).2 = false ->
      (revealStep (doc, false) x).1 = doc).
Proof.
  unfold revealStep. cbn [fst].
  destruct (findNodeAndPath doc x []) as [target|]; [|done].
  by destruct (JS.truthy_obool _).
Qed.

Lemma foldl_revealStep_true ids :
  forall doc, (foldl revealStep (doc, true) ids).2 = true.
Proof.
  induction ids as [|x ids IH]; intros doc; [done|].
  cbn [foldl]. pose proof (proj1 (revealStep_flag doc x)) as Ht.
  destruct (revealStep (doc, true) x) as [doc1 ch1]. simpl in Ht. subst ch1.
  apply IH.
Qed.

Lemma foldl_revealStep_false ids :
  forall doc,
    (foldl revealStep (doc, false) ids).2 = false ->
    (foldl revealStep (doc, false) ids).1 = doc.
Proof.
  induction ids as [|x ids IH]; intros doc; [done|].
  cbn [foldl]. pose proof (proj2 (revealStep_flag doc x)) as Hf.
  destruct (revealStep (doc, false) x) as [doc1 [|]]; simpl in Hf.
  - rewrite foldl_revealStep_true. discriminate.
  - rewrite (Hf eq_refl). apply IH.
Qed.

(** X14: revealing a list of ids only ever expands.  The stack and the
    index are untouched; every node keeps all it holds apart from the
    collapsed flag; in pre-order, the collapsed flags of the new document
    are those of the old one with, for each listed id in turn, the first
    node carrying it switched to expanded; so the first node carrying any
    listed id is expanded afterwards, and a second call with the same
    list changes nothing. *)
Theorem handleSearchReveal_only_expands (st : AppState) (T : MindMapData)
    (ids : list string) :
  mindMap st = Some T ->
  history (handleSearchReveal st ids) = history st
  /\ historyIndex (handleSearchReveal st ids) = historyIndex st
  /\ (exists doc,
        mindMap (handleSearchReveal st ids) = Some doc
        /\ uncollapsedContent <$> nodes doc = uncollapsedContent <$> nodes T
        /\ collapseView doc
           = foldl (fun L x => expandFirst x L) (collapseView T) ids
        /\ (forall x n, x ∈ ids -> firstWithId x doc = Some n ->
                        collapsedFlag n = false))
  /\ handleSearchReveal (handleSearchReveal st ids) ids
     = handleSearchReveal st ids.
Proof.
  intros Hmap.
  destruct (foldl_revealStep_views ids T false) as [Hview Hcontent].
  pose proof (foldl_revealStep_false ids T) as Hsame.
  assert (forall doc,
            collapseView doc
            = foldl (fun L x => expandFirst x L) (collapseView T) ids ->
            forall x n, x ∈ ids -> firstWithId x doc = Some n ->
                        collapsedFlag n = false) as Hoff.
  { intros doc Hdoc x n Hx Hn.
    pose proof (foldl_expandFirst_off ids (collapseView T) x (or_introl Hx))
      as Hflag.
    rewrite <- Hdoc, firstFlag_collapseView, Hn in Hflag. simpl in Hflag.
    by destruct (collapsedFlag n). }
  destruct (foldl revealStep (T, false) ids) as [doc [|]] eqn:Hrun;
    cbn [fst snd] in *.
  - assert (handleSearchReveal st ids
            = mkApp (Some doc) (history st) (historyIndex st)
                (unsavedChanges st) (autoSave st) (isDevMode st)) as ->.
    { unfold handleSearchReveal, deepClone. by rewrite Hmap, Hrun. }
    split; [done|]. split; [done|]. split.
    + exists doc. split; [done|]. split; [done|]. split; [done|].
      by apply Hoff.
    + unfold handleSearchReveal, deepClone. cbn [mindMap].
      rewrite foldl_revealStep_unchanged by (by apply Hoff). done.
  - rewrite (Hsame eq_refl) in *.
    assert (handleSearchReveal st ids = st) as ->.
    { unfold handleSearchReveal, deepClone. by rewrite Hmap, Hrun. }
    split; [done|]. split; [done|]. split.
    + exists T. split; [done|]. split; [done|]. split; [done|].
      by apply Hoff.
    + unfold handleSearchReveal, deepClone. by rewrite Hmap, Hrun.
Qed.

Lemma handleSearchReveal_only_expands_witness :
  let collapsedTree :=
    bareNode "root" "Root"
      (Some [setCollapsed true (bareNode "a" "A"
                                  (Some [bareNode "a1" "A1" None]));
             setCollapsed true (bareNode "b" "B" None)]) in
  let st := mkApp (Some collapsedTree) [] (-1) false false false in
  (collapseView <$> mindMap (handleSearchReveal st ["a"; "zz"]))
    = Some [("root", false); ("a", false); ("a1", false); ("b", true)]
  /\ history (handleSearchReveal st ["a"; "zz"]) = [].
Proof.
  intros collapsedTree st. split; [reflexivity|].
  exact (proj1 (handleSearchReveal_only_expands st collapsedTree
                  ["a"; "zz"] eq_refl)).
Defined.

(** ** The auto-linker only adds forward links *)

Lemma findIndex_from_labels bs bs' i :
  branch_label <$> bs = branch_label <$> bs' ->
  findIndex_from looksPositive bs i = findIndex_from looksPositive bs' i.
Proof.
  revert bs' i. induction bs as [|b bs IH]; intros [|b' bs'] i Heq;
    try done.
  rewrite !fmap_cons in Heq. injection Heq as Hb Hbs.
  cbn [findIndex_from]. unfold looksPositive at 1 3. rewrite Hb.
  destruct (existsb _ _); [done|]. by apply IH.
Qed.

Lemma targetIndex_labels bs bs' :
  branch_label <$> bs = branch_label <$> bs' ->
  targetIndex bs = targetIndex bs'.
Proof.
  intros Heq. unfold targetIndex, findIndex.
  by rewrite (findIndex_from_labels bs bs' 0 Heq).
Qed.

Lemma linkBranch_shape bs x :
  branchShape <$> linkBranch bs x = branchShape <$> bs.
Proof.
  unfold linkBranch.
  destruct (bs !! Z.to_nat (targetIndex bs)) as [b|] eqn:Hb; [|done].
  rewrite list_fmap_insert. apply list_insert_id.
  by rewrite list_lookup_fmap, Hb.
Qed.

Lemma linkBranch_labels bs x :
  branch_label <$> linkBranch bs x = branch_label <$> bs.
Proof.
  unfold linkBranch.
  destruct (bs !! Z.to_nat (targetIndex bs)) as [b|] eqn:Hb; [|done].
  rewrite list_fmap_insert. apply list_insert_id.
  by rewrite list_lookup_fmap, Hb.
Qed.

Lemma linkBranch_idemp bs x :
  linkBranch (linkBranch bs x) x = linkBranch bs x.
Proof.
  unfold linkBranch at 1.
  rewrite (targetIndex_labels _ bs (linkBranch_labels bs x)).
  unfold linkBranch.
  destruct (bs !! Z.to_nat (targetIndex bs)) as [b|] eqn:Hb.
  - rewrite list_lookup_insert_eq by (by eapply lookup_lt_Some).
    by rewrite list_insert_insert_eq.
  - by rewrite Hb.
Qed.

Lemma linkBranch_elem bs x b :
  b ∈ linkBranch bs x -> b ∈ bs \/ targetStepId b = Some x.
Proof.
  unfold linkBranch.
  destruct (bs !! Z.to_nat (targetIndex bs)) as [b0|] eqn:Hb; [|by left].
  intros (j & Hj)%list_elem_of_lookup.
  apply list_lookup_insert_Some in Hj as [(_ & <- & _)|(_ & Hj)].
  - by right.
  - left. by eapply list_elem_of_lookup_2.
Qed.

Lemma autoLinkStep_shape steps i s :
  stepShape (autoLinkStep steps i s) = stepShape s.
Proof.
  unfold autoLinkStep.
  destruct (step_type s); try done.
  destruct (branches s) as [bs|] eqn:Hbs; [|done].
  destruct (0 <? length bs)%nat; [|done].
  destruct (steps !! (i + 1)%nat); [|done].
  destruct (negb (hasLink bs)); [|done].
  unfold stepShape. cbn [withBranches step_id stepNumber step_type
    step_action step_description step_role isEndState branches].
  rewrite Hbs. cbn [fmap option_fmap option_map].
  by rewrite linkBranch_shape.
Qed.

Lemma autoLinkStep_idemp steps i s :
  autoLinkStep (autoLinkDecisions steps) i (autoLinkStep steps i s)
  = autoLinkStep steps i s.
Proof.
  unfold autoLinkStep at 2 3.
  destruct (step_type s) eqn:Hty;
    try (unfold autoLinkStep; by rewrite Hty).
  destruct (branches s) as [bs|] eqn:Hbs;
    [|unfold autoLinkStep; by rewrite Hty, Hbs].
  destruct (0 <? length bs)%nat eqn:Hlen;
    [|unfold autoLinkStep; by rewrite Hty, Hbs, Hlen].
  assert (autoLinkDecisions steps !! (i + 1)%nat
          = autoLinkStep steps (i + 1) <$> steps !! (i + 1)%nat) as Hnext
    by apply autoLinkDecisions_lookup.
  destruct (steps !! (i + 1)%nat) as [next|] eqn:Hn;
    [|unfold autoLinkStep; by rewrite Hty, Hbs, Hlen, Hnext].
  destruct (negb (hasLink bs)) eqn:Hlink.
  - unfold autoLinkStep.
    cbn [withBranches step_type branches]. rewrite Hty, Hnext.
    assert (length (linkBranch bs (step_id next)) = length bs) as ->.
    { by rewrite <- (length_fmap branchShape), linkBranch_shape,
        length_fmap. }
    rewrite Hlen. cbn [fmap option_fmap option_map].
    destruct (negb (hasLink (linkBranch bs (step_id next)))); [|done].
    assert (step_id (autoLinkStep steps (i + 1) next) = step_id next) as ->.
    { pose proof (autoLinkStep_shape steps (i + 1) next) as Hshape.
      unfold stepShape in Hshape. congruence. }
    rewrite linkBranch_idemp.
    unfold withBranches. cbn [step_id stepNumber step_type step_action
      step_description step_role isEndState]. done.
  - unfold autoLinkStep. by rewrite Hty, Hbs, Hlen, Hnext, Hlink.
Qed.

Lemma autoLinkStep_branches steps i s :
  branches (autoLinkStep steps i s) = branches s
  \/ (exists bs next,
        branches s = Some bs /\ steps !! S i = Some next
        /\ branches (autoLinkStep steps i s)
           = Some (linkBranch bs (step_id next))).
Proof.
  unfold autoLinkStep. replace (i + 1)%nat with (S i) by lia.
  destruct (step_type s); [by left|].
  destruct (branches s) as [bs|] eqn:Hbs; [|by left].
  destruct (0 <? length bs)%nat; [|by left].
  destruct (steps !! S i) as [next|]; [|by left].
  destruct (negb (hasLink bs)); [|by left].
  right. by exists bs, next.
Qed.

(** X15: the auto-linker touches nothing but branch targets, only adds
    links to the following step, and is idempotent.  Every step keeps its
    id, number, type, action, description, role and end flag, and its
    branches keep their number, order, ids and labels; every branch of
    the result is either a branch of the same step as given or points at
    the step that follows in the list, so the linker never introduces a
    target that names no step; running the linker on its own result
    changes nothing. *)
Theorem autoLinkDecisions_forward_links_idempotent (steps : list ProcessStep) :
  stepShape <$> autoLinkDecisions steps = stepShape <$> steps
  /\ (forall i s' bs' b,
        autoLinkDecisions steps !! i = Some s' ->
        branches s' = Some bs' -> b ∈ bs' ->
        exists s, steps !! i = Some s
          /\ ((exists bs, branches s = Some bs /\ b ∈ bs)
              \/ (exists next, steps !! S i = Some next
                    /\ targetStepId b = Some (step_id next))))
  /\ autoLinkDecisions (autoLinkDecisions steps) = autoLinkDecisions steps.
Proof.
  split; [|split].
  - apply list_eq. intros i.
    rewrite !list_lookup_fmap, autoLinkDecisions_lookup.
    destruct (steps !! i) as [s|]; [|done]. simpl.
    by rewrite autoLinkStep_shape.
  - intros i s' bs' b Hi Hbs' Hb.
    rewrite autoLinkDecisions_lookup in Hi.
    destruct (steps !! i) as [s|] eqn:Hs; [|done].
    simpl in Hi. injection Hi as <-. exists s. split; [done|].
    destruct (autoLinkStep_branches steps i s)
      as [Hsame|(bs & next & Hbs & Hnext & Hnew)].
    + left. exists bs'. by rewrite <- Hsame.
    + rewrite Hnew in Hbs'. injection Hbs' as <-.
      apply linkBranch_elem in Hb as [Hb|Hb].
      * left. by exists bs.
      * right. by exists next.
  - apply list_eq. intros i.
    rewrite !autoLinkDecisions_lookup.
    destruct (steps !! i) as [s|]; [|done]. simpl.
    by rewrite autoLinkStep_idemp.
Qed.

Lemma autoLinkDecisions_forward_links_idempotent_witness :
  let steps :=
    [twoWayDecision "d" 1 "No" "Yes";
     mkStep "n" 2 action "Next" "" "User" None None] in
  autoLinkDecisions (autoLinkDecisions steps) = autoLinkDecisions steps
  /\ (targetStepId <$> default [] (autoLinkDecisions steps !! 0%nat
                                     ≫= branches))
     = [None; Some "n"].
Proof.
  intros steps. split; [|reflexivity].
  exact (proj2 (proj2 (autoLinkDecisions_forward_links_idempotent steps))).
Defined.

(** ** Step editing in the process modal *)

Lemma renumber_lookup steps i :
  renumber steps !! i
  = (fun s => withNumber s (Z.of_nat i + 1)) <$> steps !! i.
Proof. unfold renumber. apply list_lookup_imap. Qed.

Lemma renumber_length steps : length (renumber steps) = length steps.
Proof. unfold renumber. apply length_imap. Qed.

Lemma renumber_unnumbered steps :
  unnumbered <$> renumber steps = unnumbered <$> steps.
Proof.
  apply list_eq. intros i. rewrite !list_lookup_fmap, renumber_lookup.
  by destruct (steps !! i).
Qed.

Lemma renumber_ids steps : step_id <$> renumber steps = step_id <$> steps.
Proof.
  apply list_eq. intros i. rewrite !list_lookup_fmap, renumber_lookup.
  by destruct (steps !! i).
Qed.

Lemma renumber_numbers steps :
  stepNumber <$> renumber steps = seqZ 1 (Z.of_nat (length steps)).
Proof.
  apply list_eq. intros i. rewrite list_lookup_fmap, renumber_lookup.
  destruct (steps !! i) as [s|] eqn:Hs; simpl.
  - apply lookup_lt_Some in Hs.
    rewrite lookup_seqZ_lt by lia. f_equal. lia.
  - apply lookup_ge_None in Hs. by rewrite lookup_seqZ_ge by lia.
Qed.

Lemma find_numbered (l : list ProcessStep) :
  forall (k : nat) (n : Z),
    List.find (fun s => bool_decide (stepNumber s = n))
      (imap (fun j s => withNumber s (Z.of_nat (k + j) + 1)) l)
    = if decide (Z.of_nat k + 1 <= n)%Z
      then imap (fun j s => withNumber s (Z.of_nat (k + j) + 1)) l
             !! Z.to_nat (n - Z.of_nat k - 1)
      else None.
Proof.
  induction l as [|s l IH]; intros k n.
  - cbn. by destruct (decide _).
  - rewrite imap_cons. cbn [List.find withNumber stepNumber].
    rewrite (imap_ext _ (fun j s => withNumber s (Z.of_nat (S k + j) + 1)))
      by (intros j x _; simpl; do 2 f_equal; lia).
    destruct (decide (Z.of_nat (k + 0) + 1 = n)%Z) as [Heq|Hne].
    + rewrite bool_decide_eq_true_2 by done.
      rewrite decide_True by lia.
      replace (Z.to_nat (n - Z.of_nat k - 1)) with 0%nat by lia. done.
    + rewrite bool_decide_eq_false_2 by done. rewrite IH.
      destruct (decide (Z.of_nat k + 1 <= n)%Z) as [Hle|Hgt].
      * rewrite decide_True by lia.
        replace (Z.to_nat (n - Z.of_nat k - 1))
          with (S (Z.to_nat (n - Z.of_nat (S k) - 1))) by lia.
        done.
      * by rewrite decide_False by lia.
Qed.

Lemma findByNumber_renumber steps n :
  findByNumber (renumber steps) n
  = if decide (1 <= n)%Z then renumber steps !! Z.to_nat (n - 1) else None.
Proof.
  unfold findByNumber, renumber.
  rewrite (imap_ext _ (fun j s => withNumber s (Z.of_nat (0 + j) + 1)))
    by done.
  rewrite find_numbered. simpl.
  destruct (decide _); [|done]. do 2 f_equal. lia.
Qed.

Lemma renumber_successor steps i s :
  renumber steps !! i = Some s ->
  findByNumber (renumber steps) (stepNumber s + 1) = renumber steps !! S i.
Proof.
  intros Hs. rewrite findByNumber_renumber.
  rewrite renumber_lookup in Hs.
  destruct (steps !! i) as [s0|]; [|done]. simpl in Hs.
  injection Hs as <-. cbn [withNumber stepNumber].
  rewrite decide_True by lia. f_equal. lia.
Qed.

(** X16: after a step is deleted or inserted, the step numbers are
    1, 2, ... in list order, whatever they were before; so the lookup by
    which the flow builder finds the successor of an action step (the
    first step numbered one more) yields exactly the step that follows in
    the list, and none for the last. *)
Theorem step_edits_renumber (steps : list ProcessStep) :
  (forall id,
     stepNumber <$> handleDeleteStep steps id
     = seqZ 1 (Z.of_nat (length (handleDeleteStep steps id)))
     /\ forall i s,
          handleDeleteStep steps id !! i = Some s ->
          findByNumber (handleDeleteStep steps id) (stepNumber s + 1)
          = handleDeleteStep steps id !! S i)
  /\ (forall uuid index,
        stepNumber <$> handleInsertStepAfter uuid steps index
        = seqZ 1 (Z.of_nat (length (handleInsertStepAfter uuid steps index)))
        /\ forall i s,
             handleInsertStepAfter uuid steps index !! i = Some s ->
             findByNumber (handleInsertStepAfter uuid steps index)
               (stepNumber s + 1)
             = handleInsertStepAfter uuid steps index !! S i).
Proof.
  split.
  - intros id. unfold handleDeleteStep. split.
    + by rewrite renumber_numbers, renumber_length.
    + apply renumber_successor.
  - intros uuid index. unfold handleInsertStepAfter. split.
    + by rewrite renumber_numbers, renumber_length.
    + apply renumber_successor.
Qed.

Lemma step_edits_renumber_witness :
  stepNumber <$> handleDeleteStep cyclicFlow "a1" = [1; 2; 3; 4]%Z
  /\ step_id <$> findByNumber (handleDeleteStep cyclicFlow "a1") 2
     = Some "a2".
Proof.
  split.
  - exact (proj1 (proj1 (step_edits_renumber cyclicFlow) "a1")).
  - exact (f_equal (fmap step_id)
             (proj2 (proj1 (step_edits_renumber cyclicFlow) "a1") 0%nat
                (mkStep "d1" 1 decision "Complete?" "" "User" None
                   (Some [mkBranch "d1-y" "Yes" (Some "a2");
                          mkBranch "d1-n" "No" None])) eq_refl)).
Defined.

Lemma filter_fmap_sublist {A B} (f : A -> B) (p : A -> bool) (l : list A) :
  f <$> List.filter p l `sublist_of` f <$> l.
Proof.
  induction l as [|x l IH]; [constructor|].
  cbn [List.filter]. destruct (p x); rewrite ?fmap_cons.
  - by apply sublist_skip.
  - by apply sublist_cons.
Qed.

Lemma filter_keeps_others (steps : list ProcessStep) id :
  id ∉ step_id <$> steps ->
  List.filter (fun s => negb (bool_decide (step_id s = id))) steps = steps.
Proof.
  induction steps as [|s steps IH]; [done|].
  rewrite fmap_cons, not_elem_of_cons. intros [Hne Hrest].
  cbn [List.filter]. rewrite bool_decide_eq_false_2 by done. simpl.
  by rewrite IH.
Qed.

(** X17: deleting a step removes every step that carries the id and
    nothing else: the steps that remain keep their order and all they
    hold apart from the number, branches included.  A branch of a
    remaining decision that pointed at the deleted step therefore still
    points at it, and the flow builder run on the new list leaves that
    branch out of the decision's children.  When no step carries the id,
    the list is only renumbered. *)
Theorem handleDeleteStep_leaves_references (steps : list ProcessStep)
    (id : string) :
  (id ∉ step_id <$> handleDeleteStep steps id)
  /\ (unnumbered <$> handleDeleteStep steps id
       `sublist_of` unnumbered <$> steps)
  /\ (forall s, s ∈ steps -> step_id s <> id ->
        unnumbered s ∈ unnumbered <$> handleDeleteStep steps id)
  /\ (id ∉ step_id <$> steps ->
        unnumbered <$> handleDeleteStep steps id = unnumbered <$> steps)
  /\ (forall randomSuffix fuel step visited k bs1 b bs2,
        step_type step = decision ->
        branches step = Some (bs1 ++ b :: bs2) ->
        targetStepId b = Some id -> id <> "" ->
        (fun r => (dn_children r.1, r.2))
          <$> buildTree randomSuffix (handleDeleteStep steps id)
                (buildIdMap (handleDeleteStep steps id)) fuel step visited k
        = (fun r => (dn_children r.1, r.2))
          <$> buildTree randomSuffix (handleDeleteStep steps id)
                (buildIdMap (handleDeleteStep steps id)) fuel
                (withBranches step (bs1 ++ bs2)) visited k).
Proof.
  assert (id ∉ step_id <$> handleDeleteStep steps id) as Hgone.
  { unfold handleDeleteStep. rewrite renumber_ids.
    intros (s & Hid & Hs)%list_elem_of_fmap.
    apply list_elem_of_In, filter_In in Hs as [_ Hs].
    apply negb_true_iff, bool_decide_eq_false in Hs. done. }
  split; [done|]. split; [|split; [|split]].
  - unfold handleDeleteStep. rewrite renumber_unnumbered.
    apply filter_fmap_sublist.
  - intros s Hs Hne. unfold handleDeleteStep. rewrite renumber_unnumbered.
    apply list_elem_of_fmap. exists s. split; [done|].
    apply list_elem_of_In, filter_In. split; [by apply list_elem_of_In|].
    by rewrite bool_decide_eq_false_2.
  - intros Hmiss. unfold handleDeleteStep.
    by rewrite renumber_unnumbered, filter_keeps_others.
  - intros randomSuffix fuel step visited k bs1 b bs2 Hty Hbs Ht Hne.
    eapply buildTree_children_skip; [done|exact Hbs|exact Ht|done|].
    by apply buildIdMap_None.
Qed.

Lemma handleDeleteStep_leaves_references_witness :
  let route := mkStep "d" 1 decision "Route" "" "User" None
                 (Some [mkBranch "u" "Later" None;
                        mkBranch "r" "Go" (Some "t")]) in
  let steps :=
    [route; mkStep "t" 2 action "Target" "" "User" (Some true) None] in
  step_id <$> handleDeleteStep steps "t" = ["d"]
  /\ (fun r => (dn_children r.1, r.2))
       <$> buildTree (fun _ => "x") (handleDeleteStep steps "t")
             (buildIdMap (handleDeleteStep steps "t")) 3 route ∅ 0
     = (fun r => (dn_children r.1, r.2))
       <$> buildTree (fun _ => "x") (handleDeleteStep steps "t")
             (buildIdMap (handleDeleteStep steps "t")) 3
             (withBranches route [mkBranch "u" "Later" None]) ∅ 0.
Proof.
  intros route steps. split; [reflexivity|].
  apply (proj2 (proj2 (proj2 (proj2
           (handleDeleteStep_leaves_references steps "t"))))
           (fun _ => "x") 3%nat route ∅ 0%nat
           [mkBranch "u" "Later" None] (mkBranch "r" "Go" (Some "t")) []);
    [reflexivity|reflexivity|reflexivity|discriminate].
Defined.

Lemma spliceStart_inside (start : Z) (len : nat) :
  (0 <= start <= Z.of_nat len)%Z -> spliceStart start len = Z.to_nat start.
Proof.
  intros Hr. unfold spliceStart.
  destruct (start <? 0)%Z eqn:Hneg; [apply Z.ltb_lt in Hneg; lia|].
  f_equal. lia.
Qed.

(** X18: inserting after position [index] (the last position when adding
    a final step, which is -1 on an empty list) makes the list one
    longer, puts the fresh action step right after that position with
    the number of its place, and keeps every other step in order with all
    it holds apart from the number. *)
Theorem handleInsertStepAfter_inserts (uuid : string)
    (steps : list ProcessStep) (index : Z) :
  (-1 <= index < Z.of_nat (length steps))%Z ->
  length (handleInsertStepAfter uuid steps index) = S (length steps)
  /\ handleInsertStepAfter uuid steps index !! Z.to_nat (index + 1)
     = Some (withNumber (newStep uuid) (index + 2))
  /\ unnumbered <$> handleInsertStepAfter uuid steps index
     = (unnumbered <$> take (Z.to_nat (index + 1)) steps)
         ++ unnumbered (newStep uuid)
         :: (unnumbered <$> drop (Z.to_nat (index + 1)) steps)
  /\ (index = Z.of_nat (length steps) - 1 ->
        handleInsertStepAfter uuid steps index
        = renumber steps
            ++ [withNumber (newStep uuid) (Z.of_nat (length steps) + 1)])%Z.
Proof.
  intros Hr. unfold handleInsertStepAfter, spliceIn.
  rewrite spliceStart_inside by lia.
  set (p := Z.to_nat (index + 1)).
  assert (p <= length steps)%nat as Hp by lia.
  split; [|split; [|split]].
  - rewrite renumber_length, length_app. cbn [length].
    rewrite length_take_le, length_drop by done. lia.
  - rewrite renumber_lookup.
    rewrite lookup_app_r by (rewrite length_take_le; done).
    rewrite length_take_le, Nat.sub_diag by done. simpl.
    do 2 f_equal. lia.
  - by rewrite renumber_unnumbered, fmap_app, fmap_cons.
  - intros Hlast. assert (p = length steps) as Hpl by lia.
    rewrite Hpl, firstn_all, drop_all.
    apply list_eq. intros i. rewrite renumber_lookup.
    destruct (decide (i < length steps)%nat) as [Hlt|Hge].
    + rewrite !lookup_app_l by (rewrite ?renumber_length; done).
      by rewrite renumber_lookup.
    + rewrite !lookup_app_r by (rewrite ?renumber_length; lia).
      rewrite renumber_length.
      destruct (i - length steps)%nat as [|j] eqn:Hj; simpl; [|done].
      do 2 f_equal. lia.
Qed.

Lemma handleInsertStepAfter_inserts_witness :
  step_id <$> handleInsertStepAfter "new" danglingSteps 0 = ["d"; "new"; "t"]
  /\ length (handleInsertStepAfter "new" danglingSteps 0) = 3%nat.
Proof.
  split; [reflexivity|].
  apply (handleInsertStepAfter_inserts "new" danglingSteps 0).
  vm_compute. split; [discriminate|reflexivity].
Defined.

(** ** Editing the mesh *)

Lemma actorIds_deleted data a x :
  x ∈ actorIds (handleDeleteActor data a) <-> x ∈ actorIds data /\ x <> a.
Proof.
  unfold actorIds, handleDeleteActor. cbn [actors].
  rewrite !elem_of_list_to_set, !list_elem_of_fmap. split.
  - intros (act & -> & Hact).
    apply list_elem_of_In, filter_In in Hact as [Hact Hne].
    apply negb_true_iff, bool_decide_eq_false in Hne.
    split; [|done]. exists act. split; [done|]. by apply list_elem_of_In.
  - intros [(act & -> & Hact) Hne]. exists act. split; [done|].
    apply list_elem_of_In, filter_In. split; [by apply list_elem_of_In|].
    by rewrite bool_decide_eq_false_2.
Qed.

Lemma interactions_deleted data a link :
  link ∈ interactions (handleDeleteActor data a)
  <-> link ∈ interactions data /\ i_source link <> a /\ i_target link <> a.
Proof.
  unfold handleDeleteActor. cbn [interactions]. split.
  - intros Hlink. apply list_elem_of_In, filter_In in Hlink as [Hlink Hne].
    apply andb_true_iff in Hne as [Hs Ht].
    apply negb_true_iff, bool_decide_eq_false in Hs, Ht.
    split; [by apply list_elem_of_In|done].
  - intros (Hlink & Hs & Ht). apply list_elem_of_In, filter_In.
    split; [by apply list_elem_of_In|].
    by rewrite !bool_decide_eq_false_2.
Qed.

Lemma findActor_None data x :
  x ∉ actorIds data -> findActor data x = None.
Proof.
  intros Hx. destruct (findActor data x) as [act|] eqn:Hfind; [|done].
  exfalso. apply Hx. unfold findActor in Hfind.
  apply find_some in Hfind as [Hin Hid].
  apply bool_decide_eq_true in Hid. subst x.
  unfold actorIds. apply elem_of_list_to_set, list_elem_of_fmap.
  exists act. split; [done|]. by apply list_elem_of_In.
Qed.

(** X19: deleting an actor cascades.  The actor is gone and so is every
    interaction it was an endpoint of; all other interactions stay; a
    mesh whose endpoints all named actors remains one.  Projected from
    the deleted actor the mesh gives no tree, and the tree projected from
    any other root under any filter never shows the deleted actor. *)
Theorem handleDeleteActor_cascades (data : SystemsViewData) (a : string) :
  (a ∉ actorIds (handleDeleteActor data a))
  /\ (forall link, link ∈ interactions (handleDeleteActor data a) ->
        i_source link <> a /\ i_target link <> a)
  /\ (forall link, link ∈ interactions data ->
        i_source link <> a -> i_target link <> a ->
        link ∈ interactions (handleDeleteActor data a))
  /\ (EndpointsResolve data -> EndpointsResolve (handleDeleteActor data a))
  /\ (forall f, buildSystemTree (handleDeleteActor data a) a f = MeshNull)
  /\ (forall r f t,
        buildSystemTree (handleDeleteActor data a) r f = MeshTree t ->
        a ∉ node_ids t).
Proof.
  assert (a ∉ actorIds (handleDeleteActor data a)) as Hgone.
  { rewrite actorIds_deleted. by intros [_ ?]. }
  split; [done|]. split; [|split; [|split; [|split]]].
  - intros link Hlink. by apply interactions_deleted in Hlink as (_ & ? & ?).
  - intros link Hlink Hs Ht. by apply interactions_deleted.
  - intros Hclosed link Hlink.
    apply interactions_deleted in Hlink as (Hlink & Hs & Ht).
    destruct (Hclosed link Hlink) as [Hsrc Htgt].
    by rewrite !actorIds_deleted.
  - intros f. unfold buildSystemTree. by rewrite findActor_None.
  - intros r f t Hrun.
    pose proof (buildSystemTree_spec (handleDeleteActor data a) r f) as Hspec.
    destruct (findActor (handleDeleteActor data a) r) as [rootActor|] eqn:Hroot;
      [|congruence].
    destruct Hspec as (t' & Ht' & Hid & _ & _ & Hdesc & _).
    assert (t' = t) as -> by congruence.
    apply findActor_Some in Hroot as [Hr Hin].
    rewrite node_ids_unfold. intros [Ha|Ha]%elem_of_cons.
    + apply Hgone.
      assert (actor_id rootActor ∈ actorIds (handleDeleteActor data a))
        as Hroot.
      { unfold actorIds. apply elem_of_list_to_set, list_elem_of_fmap.
        by exists rootActor. }
      assert (actor_id rootActor = a) as Heq by congruence.
      by rewrite Heq in Hroot.
    + apply Hgone. by apply (Hdesc a).
Qed.

Lemma handleDeleteActor_cascades_witness :
  EndpointsResolve (handleDeleteActor meshExample "B")
  /\ interaction_id <$> interactions (handleDeleteActor meshExample "B")
     = ["i3"].
Proof.
  split; [|reflexivity].
  apply (handleDeleteActor_cascades meshExample "B").
  intros link Hlink. unfold actorIds.
  rewrite !elem_of_list_to_set.
  revert link Hlink. apply Forall_forall.
  repeat constructor; apply (bool_decide_unpack _); vm_compute; exact I.
Defined.

(** ** Adjacency matrix *)

Lemma addToCell_lookup m link k :
  addToCell m link !! k
  = if decide (linkKey link = k)
    then Some (default [] (m !! k) ++ [link])
    else m !! k.
Proof.
  unfold addToCell. cbv zeta.
  destruct (m !! linkKey link) as [cell|] eqn:Hcell.
  - rewrite bool_decide_eq_true_2 by (by eexists). rewrite Hcell.
    destruct (decide (linkKey link = k)) as [<-|Hne].
    + by rewrite lookup_insert_eq, Hcell.
    + by rewrite lookup_insert_ne.
  - rewrite bool_decide_eq_false_2 by (by intros [? ?]).
    rewrite lookup_insert_eq.
    destruct (decide (linkKey link = k)) as [<-|Hne].
    + by rewrite lookup_insert_eq, Hcell.
    + by rewrite !lookup_insert_ne.
Qed.

Lemma cellMap_from_lookup links :
  forall (m : gmap string (list SystemInteraction)) k,
    foldl addToCell m links !! k
    = match List.filter (fun l => bool_decide (linkKey l = k)) links with
      | [] => m !! k
      | hit => Some (default [] (m !! k) ++ hit)
      end.
Proof.
  induction links as [|link links IH]; intros m k; [done|].
  cbn [foldl List.filter]. rewrite IH, addToCell_lookup.
  destruct (decide (linkKey link = k)) as [Heq|Hne].
  - rewrite bool_decide_eq_true_2 by done. cbn [default from_option].
    destruct (List.filter _ links); [done|].
    unfold Datatypes.id. by rewrite <- app_assoc.
  - by rewrite bool_decide_eq_false_2.
Qed.

Lemma cellKey_inj s t s' t' :
  hyphenFree s = true -> hyphenFree s' = true ->
  cellKey s t = cellKey s' t' -> s = s' /\ t = t'.
Proof.
  unfold cellKey. revert s'.
  induction s as [|c s IH]; intros [|c' s']; cbn [hyphenFree]; intros Hs Hs';
    rewrite ?append_nil, ?append_cons, ?append_nil.
  - intros [= ->]. done.
  - intros [= <- _].
    apply andb_true_iff in Hs' as [Hc _].
    by rewrite bool_decide_eq_true_2 in Hc.
  - intros [= -> _].
    apply andb_true_iff in Hs as [Hc _].
    by rewrite bool_decide_eq_true_2 in Hc.
  - intros [= <- Hrest].
    apply andb_true_iff in Hs as [_ Hs].
    apply andb_true_iff in Hs' as [_ Hs'].
    destruct (IH s' Hs Hs' Hrest) as [-> ->]. done.
Qed.

(** X20: a cell of the adjacency matrix holds, in their order, the
    interactions whose key is the cell's key; it is never an empty list.
    Every interaction from the row's actor to the column's actor is
    therefore in the cell, and when neither the row id nor any source id
    holds a hyphen the cell holds nothing else.  With hyphens in ids the
    key does not separate the pair: the one interaction from "a-b" to
    "c" also fills the cell of row "a" and column "b-c". *)
Theorem matrixData_cells (data : SystemsViewData) :
  (forall row col,
     matrixCell data row col
     = match List.filter
               (fun l => bool_decide (linkKey l = cellKey row col))
               (interactions data) with
       | [] => None
       | hit => Some hit
       end)
  /\ (forall row col, matrixCell data row col <> Some [])
  /\ (forall row col link,
        link ∈ interactions data ->
        i_source link = row -> i_target link = col ->
        link ∈ default [] (matrixCell data row col))
  /\ (forall row col,
        hyphenFree row = true ->
        (forall link, link ∈ interactions data ->
                      hyphenFree (i_source link) = true) ->
        default [] (matrixCell data row col)
        = List.filter (fun l => bool_decide (i_source l = row)
                                && bool_decide (i_target l = col))
            (interactions data))
  /\ (exists link,
        matrixCell hyphenMesh "a" "b-c" = Some [link]
        /\ i_source link = "a-b" /\ i_target link = "c").
Proof.
  assert (forall row col,
            matrixCell data row col
            = match List.filter
                      (fun l => bool_decide (linkKey l = cellKey row col))
                      (interactions data) with
              | [] => None
              | hit => Some hit
              end) as Hcell.
  { intros row col. unfold matrixCell, cellMap.
    rewrite cellMap_from_lookup, lookup_empty. done. }
  split; [done|]. split; [|split; [|split]].
  - intros row col. rewrite Hcell.
    by destruct (List.filter _ _).
  - intros row col link Hlink Hs Ht.
    assert (link ∈ List.filter
                     (fun l => bool_decide (linkKey l = cellKey row col))
                     (interactions data)) as Hin.
    { apply list_elem_of_In, filter_In. split; [by apply list_elem_of_In|].
      apply bool_decide_eq_true. unfold linkKey. by rewrite Hs, Ht. }
    rewrite Hcell. by destruct (List.filter _ _).
  - intros row col Hrow Hsrc.
    assert (default [] (matrixCell data row col)
            = List.filter
                (fun l => bool_decide (linkKey l = cellKey row col))
                (interactions data)) as ->.
    { rewrite Hcell. by destruct (List.filter _ _). }
    clear Hcell. revert Hsrc. generalize (interactions data).
    intros links Hsrc. induction links as [|link links IH]; [done|].
    cbn [List.filter].
    rewrite IH by (intros l Hl; apply Hsrc; by right).
    assert (bool_decide (linkKey link = cellKey row col)
            = bool_decide (i_source link = row)
              && bool_decide (i_target link = col)) as ->; [|done].
    destruct (decide (linkKey link = cellKey row col)) as [Hk|Hk].
    + pose proof Hk as Hpair.
      apply cellKey_inj in Hpair as [Hs Ht];
        [|apply Hsrc; by left|done].
      by rewrite !bool_decide_eq_true_2 by done.
    + rewrite bool_decide_eq_false_2 by done. symmetry.
      apply andb_false_iff.
      destruct (decide (i_source link = row)) as [Hs|Hs];
        [|left; by apply bool_decide_eq_false_2].
      right. apply bool_decide_eq_false_2. intros Ht. apply Hk.
      unfold linkKey. by rewrite Hs, Ht.
  - eexists. split; [reflexivity|done].
Qed.

Lemma matrixData_cells_witness :
  default [] (matrixCell meshExample "A" "C")
  = List.filter (fun l => bool_decide (i_source l = "A")
                          && bool_decide (i_target l = "C"))
      (interactions meshExample).
Proof.
  apply (matrixData_cells meshExample).
  - reflexivity.
  - apply Forall_forall. repeat constructor.
Defined.

(** ** Flattening the document for the mesh view *)

Lemma flatten_loop_flat_map self cs list :
  flatten_loop self cs list = list ++ flat_map self cs.
Proof.
  revert list. induction cs as [|c cs IH]; intros list; cbn [flatten_loop flat_map].
  - by rewrite app_nil_r.
  - by rewrite IH, <- app_assoc.
Qed.

Lemma getAllNodes_unfold node depth :
  getAllNodes node depth
  = mkFlat (id node) (label node) depth
      :: flat_map (fun child => getAllNodes child (depth + 1)) (kids node).
Proof.
  destruct node as [? ? ? ? ? ? ? ? ? ? ? ? ? ? ? [cs|]]; [|reflexivity].
  unfold kids. cbn [getAllNodes children id label default from_option].
  by rewrite flatten_loop_flat_map.
Qed.

Lemma findFullNode_unfold lbl root :
  findFullNode lbl root
  = if sameLabel (label root) lbl then Some root
    else fullNode_loop (findFullNode lbl) (kids root).
Proof.
  destruct root as [? ? ? ? ? ? ? ? ? ? ? ? ? ? ? [cs|]]; cbn; [done|].
  by destruct (sameLabel _ _).
Qed.

Lemma Forall2_flat_map_kids {A B C} (R : B -> C -> Prop)
    (f : A -> list B) (g : A -> list C) (cs : list A) :
  Forall (fun c => Forall2 R (f c) (g c)) cs ->
  Forall2 R (flat_map f cs) (flat_map g cs).
Proof.
  induction 1 as [|c cs Hc _ IH]; [constructor|].
  cbn [flat_map]. by apply Forall2_app.
Qed.

Lemma getAllNodes_paths :
  forall T d,
    Forall2 (fun e n =>
               flat_id e = id n /\ flat_label e = label n
               /\ exists ls, PathTo T n ls
                             /\ (d + length ls = S (flat_depth e))%nat)
      (getAllNodes T d) (nodes T).
Proof.
  induction T as [T IH] using MindMapData_tree_ind. intros d.
  rewrite getAllNodes_unfold, nodes_unfold. constructor.
  - split; [done|]. split; [done|]. exists [label T].
    split; [constructor|]. simpl. lia.
  - apply Forall2_flat_map_kids. apply Forall_forall. intros c Hc.
    rewrite Forall_forall in IH.
    eapply Forall2_impl; [apply (IH c Hc (d + 1)%nat)|].
    intros e n (Hid & Hlabel & ls & Hpath & Hdepth).
    split; [done|]. split; [done|]. exists (label T :: ls).
    split; [by eapply path_below|]. simpl. lia.
Qed.

Lemma fullNode_loop_first lbl (cs : list MindMapData) :
  Forall (fun c => findFullNode lbl c
                   = List.find (fun n => sameLabel (label n) lbl) (nodes c))
    cs ->
  fullNode_loop (findFullNode lbl) cs
  = List.find (fun n => sameLabel (label n) lbl) (flat_map nodes cs).
Proof.
  induction 1 as [|c cs Hc _ IH]; [done|].
  cbn [fullNode_loop flat_map]. rewrite find_app_first, <- Hc, IH. done.
Qed.

Lemma findFullNode_first lbl :
  forall T, findFullNode lbl T
            = List.find (fun n => sameLabel (label n) lbl) (nodes T).
Proof.
  induction T as [T IH] using MindMapData_tree_ind.
  rewrite findFullNode_unfold, nodes_unfold. cbn [List.find].
  destruct (sameLabel (label T) lbl); [done|].
  by apply fullNode_loop_first.
Qed.

Lemma find_related {A B} (R : A -> B -> Prop) (p : A -> bool) (q : B -> bool)
    (l1 : list A) (l2 : list B) :
  Forall2 (fun a b => R a b /\ p a = q b) l1 l2 ->
  option_Forall2 R (List.find p l1) (List.find q l2).
Proof.
  induction 1 as [|a b l1 l2 [HR Hpq] _ IH]; [constructor|].
  cbn [List.find]. rewrite Hpq. destruct (q b); [by constructor|done].
Qed.

(** X21: the flat list of the document names its nodes in depth-first
    pre-order, each with its id and label and with the number of steps
    on the way down from the root as its depth.  The lookup of a full
    node by label returns the first node in that order whose label
    matches without regard to case, and the lookup in the flat list
    returns the entry of that same node. *)
Theorem getAllNodes_preorder_depth (T : MindMapData) :
  Forall2 (fun e n =>
             flat_id e = id n /\ flat_label e = label n
             /\ exists ls, PathTo T n ls /\ length ls = S (flat_depth e))
    (getAllNodes T 0) (nodes T)
  /\ (forall lbl,
        findFullNode lbl T
        = List.find (fun n => sameLabel (label n) lbl) (nodes T))
  /\ (forall lbl,
        option_Forall2
          (fun e n => flat_id e = id n /\ flat_label e = label n
                      /\ exists ls, PathTo T n ls
                                    /\ length ls = S (flat_depth e))
          (findMatchingNode T lbl) (findFullNode lbl T)).
Proof.
  pose proof (getAllNodes_paths T 0) as Hflat. cbn [Nat.add] in Hflat.
  split; [done|]. split; [intros lbl; apply findFullNode_first|].
  intros lbl. rewrite findFullNode_first. unfold findMatchingNode.
  apply find_related. eapply Forall2_impl; [exact Hflat|].
  intros e n (Hid & Hlabel & Hpath). split; [done|]. by rewrite Hlabel.
Qed.

(** ** The mesh tree spans what the root reaches *)

Section MeshSpan.

Variable data : SystemsViewData.
Variable dataFilter : option string.

Lemma findActor_is_Some x :
  x ∈ actorIds data -> is_Some (findActor data x).
Proof.
  intros Hx. destruct (findActor data x) as [act|] eqn:Hfind; [by eexists|].
  exfalso. unfold actorIds in Hx.
  apply elem_of_list_to_set, list_elem_of_fmap in Hx as (act & -> & Hact).
  unfold findActor in Hfind.
  apply list_elem_of_In in Hact.
  apply (find_none _ _ Hfind act) in Hact.
  by apply bool_decide_eq_false in Hact.
Qed.

Lemma relevant_fold_mono (links : list SystemInteraction) :
  forall (acc : gset string) x,
    x ∈ acc ->
    x ∈ foldl (fun acc i =>
                 if matchesFilter dataFilter i
                 then acc ∪ {[i_source i]} ∪ {[i_target i]}
                 else acc) acc links.
Proof.
  induction links as [|l links IH]; intros acc x Hx; [done|].
  cbn [foldl]. apply IH. destruct (matchesFilter dataFilter l); set_solver.
Qed.

Lemma relevant_fold_member (links : list SystemInteraction) link :
  link ∈ links -> matchesFilter dataFilter link = true ->
  forall acc : gset string,
    let final := foldl (fun acc i =>
                          if matchesFilter dataFilter i
                          then acc ∪ {[i_source i]} ∪ {[i_target i]}
                          else acc) acc links in
    i_source link ∈ final /\ i_target link ∈ final.
Proof.
  intros Hin Hm. induction links as [|l links IH]; intros acc;
    [by apply elem_of_nil in Hin|].
  cbn [foldl]. apply elem_of_cons in Hin as [<-|Hin].
  - rewrite Hm. split; apply relevant_fold_mono; set_solver.
  - by apply IH.
Qed.

Lemma relevantActors_member link :
  link ∈ interactions data ->
  filterActive dataFilter = true -> matchesFilter dataFilter link = true ->
  i_source link ∈ relevantActors data dataFilter
  /\ i_target link ∈ relevantActors data dataFilter.
Proof.
  intros Hin Hact Hm. unfold relevantActors. rewrite Hact.
  by apply relevant_fold_member.
Qed.

Lemma truthy_string_nonempty s : s <> "" -> JS.truthy_string s = true.
Proof. intros Hs. unfold JS.truthy_string. by rewrite decide_False. Qed.

(** A neighbour that the scan meets and has not yet seen is taken. *)
Lemma scan_takes (cs : list ChildEntry) (vis : gset string) x
    (prefix : string) link :
  link ∈ interactions data -> passesFilter dataFilter link ->
  (x = i_source link \/ x = i_target link) ->
  x ∈ actorIds data -> x <> "" ->
  x ∈ (if JS.truthy_string x then
         match findActor data x with
         | Some targetActor =>
             if negb (filterActive dataFilter)
                || bool_decide (x ∈ relevantActors data dataFilter)
             then (cs ++ [mkChild targetActor (prefix +:+ i_data link)],
                   vis ∪ {[x]})
             else (cs, vis)
         | None => (cs, vis)
         end
       else (cs, vis)).2.
Proof.
  intros Hlink Hpass Hend Hactor Hne.
  rewrite truthy_string_nonempty by done.
  destruct (findActor_is_Some x Hactor) as [ta ->].
  destruct (filterActive dataFilter) eqn:Hact; cbn [negb orb].
  - rewrite bool_decide_eq_true_2; [cbn [snd]; set_solver|].
    destruct (relevantActors_member link Hlink Hact (Hpass Hact)) as [Hs Ht].
    by destruct Hend as [->| ->].
  - cbn [snd]. set_solver.
Qed.

Lemma scan_take_mono (cs : list ChildEntry) (vis : gset string) x
    (prefix : string) link :
  vis ⊆ (if JS.truthy_string x then
           match findActor data x with
           | Some targetActor =>
               if negb (filterActive dataFilter)
                  || bool_decide (x ∈ relevantActors data dataFilter)
               then (cs ++ [mkChild targetActor (prefix +:+ i_data link)],
                     vis ∪ {[x]})
               else (cs, vis)
           | None => (cs, vis)
           end
         else (cs, vis)).2.
Proof.
  destruct (JS.truthy_string x); [|done].
  destruct (findActor data x); [|done].
  destruct (negb _ || _); [|done]. cbn [snd]. set_solver.
Qed.

Lemma scanLink_covers actor acc link :
  acc.2 ⊆ (scanLink data dataFilter actor acc link).2
  /\ (link ∈ interactions data -> passesFilter dataFilter link ->
      forall y,
        (i_source link = actor_id actor /\ i_target link = y)
        \/ (i_target link = actor_id actor /\ i_source link = y) ->
        y ∈ actorIds data -> y <> "" ->
        y ∈ (scanLink data dataFilter actor acc link).2).
Proof.
  destruct acc as [cs vis]. unfold scanLink. cbn [snd].
  destruct (filterActive dataFilter && negb (matchesFilter dataFilter link))
    eqn:Hskip.
  { split; [done|]. intros _ Hpass. exfalso.
    apply andb_true_iff in Hskip as [Hact Hm].
    apply Hpass in Hact. by rewrite Hact in Hm. }
  cbv zeta.
  destruct (decide (i_source link = actor_id actor)) as [Hs|Hs];
    destruct (decide (i_target link ∈ vis)) as [Ht|Ht];
    rewrite ?(bool_decide_eq_true_2 _ Hs), ?(bool_decide_eq_false_2 _ Hs),
      ?(bool_decide_eq_true_2 _ Ht), ?(bool_decide_eq_false_2 _ Ht);
    cbn [andb negb].
  2:{ (* outgoing, target not yet seen *)
    split; [apply scan_take_mono|].
    intros Hlink Hpass y Hdir Hactor Hne.
    assert (y = i_target link) as ->.
    { destruct Hdir as [[_ <-]|[Ht' <-]]; [done|congruence]. }
    apply scan_takes; try done. by right. }
  all: destruct (decide (i_target link = actor_id actor)) as [Ht'|Ht'];
    destruct (decide (i_source link ∈ vis)) as [Hs'|Hs'];
    rewrite ?(bool_decide_eq_true_2 _ Ht'), ?(bool_decide_eq_false_2 _ Ht'),
      ?(bool_decide_eq_true_2 _ Hs'), ?(bool_decide_eq_false_2 _ Hs');
    cbn [andb negb].
  all: try (lazymatch goal with
            | |- context [JS.truthy_ostring None] => idtac
            end;
            cbn [JS.truthy_ostring snd]; split; [set_solver|];
            intros _ _ y [[Hy1 Hy2]|[Hy1 Hy2]] _ _; congruence).
  all: split; [apply scan_take_mono|];
    intros Hlink Hpass y [[Hy1 Hy2]|[Hy1 Hy2]] Hactor Hne;
    try congruence.
  all: try (subst y; apply scan_takes; try done; by left).
  all: subst y; eapply elem_of_weaken; [exact Ht|apply scan_take_mono].
Qed.

Lemma scan_fold_covers actor (links : list SystemInteraction) :
  (forall l, l ∈ links -> l ∈ interactions data) ->
  forall acc,
    acc.2 ⊆ (foldl (scanLink data dataFilter actor) acc links).2
    /\ (forall link, link ∈ links -> passesFilter dataFilter link ->
        forall y,
          (i_source link = actor_id actor /\ i_target link = y)
          \/ (i_target link = actor_id actor /\ i_source link = y) ->
          y ∈ actorIds data -> y <> "" ->
          y ∈ (foldl (scanLink data dataFilter actor) acc links).2).
Proof.
  induction links as [|l links IH]; intros Hsub acc.
  - split; [done|]. intros link Hlink. by apply elem_of_nil in Hlink.
  - cbn [foldl].
    destruct (IH (fun l' Hl' => Hsub l' (list_elem_of_further _ _ _ Hl'))
                (scanLink data dataFilter actor acc l)) as [Hmono Hcov].
    destruct (scanLink_covers actor acc l) as [Hstep Hhere].
    split; [set_solver|].
    intros link [->|Hlink]%elem_of_cons Hpass y Hdir Hactor Hne.
    + apply Hmono. apply Hhere; try done. apply Hsub. by left.
    + by apply (Hcov link).
Qed.

Lemma scanLinks_covers actor v :
  v ⊆ (scanLinks data dataFilter actor v).2
  /\ (forall y, Neighbour data dataFilter (actor_id actor) y ->
                y ∈ (scanLinks data dataFilter actor v).2).
Proof.
  unfold scanLinks.
  destruct (scan_fold_covers actor (interactions data) (fun l Hl => Hl)
              ([], v)) as [Hmono Hcov].
  split; [done|].
  intros y (link & Hlink & Hpass & Hdir & Hactor & Hne).
  by apply (Hcov link).
Qed.

Lemma node_ids_setLinkLabel n l : node_ids (setLinkLabel n l) = node_ids n.
Proof.
  rewrite !node_ids_unfold.
  by destruct n as [? ? ? ? ? ? ? ? ? ? ? ? ? ? ? [cs|]].
Qed.

Lemma children_loop_closed
    (self : SystemActor -> gset string -> option (MindMapData * gset string)) :
  (forall a v t v', self a v = Some (t, v') ->
     v ⊆ v'
     /\ forall x, x ∈ node_ids t ->
          forall y, Neighbour data dataFilter x y -> y ∈ v') ->
  forall cs v1 ts v2,
    children_loop self cs v1 = Some (ts, v2) ->
    v1 ⊆ v2
    /\ forall x, x ∈ flat_map node_ids ts ->
         forall y, Neighbour data dataFilter x y -> y ∈ v2.
Proof.
  intros Hself. induction cs as [|c cs IH]; intros v1 ts v2 Hrun.
  - injection Hrun as <- <-. split; [done|].
    intros x Hx. by apply elem_of_nil in Hx.
  - cbn [children_loop] in Hrun.
    destruct (self (child_actor c) v1) as [[n v1a]|] eqn:Hn; [|done].
    simpl in Hrun.
    destruct (children_loop self cs v1a) as [[more v2']|] eqn:Hmore; [|done].
    simpl in Hrun. injection Hrun as <- <-.
    apply Hself in Hn as [Hmono Hclosed].
    apply IH in Hmore as [Hmono' Hclosed'].
    split; [set_solver|].
    cbn [flat_map]. rewrite node_ids_setLinkLabel.
    intros x [Hx|Hx]%elem_of_app y Hy.
    + apply Hmono'. by apply (Hclosed x).
    + by apply (Hclosed' x).
Qed.

Lemma buildNode_closed fuel :
  forall actor v t v',
    buildNode data dataFilter fuel actor v = Some (t, v') ->
    v ⊆ v'
    /\ forall x, x ∈ node_ids t ->
         forall y, Neighbour data dataFilter x y -> y ∈ v'.
Proof.
  induction fuel as [|fuel IH]; intros actor v t v' Hrun; [done|].
  cbn [buildNode] in Hrun.
  destruct (scanLinks_covers actor v) as [Hmono Hcov].
  destruct (scanLinks data dataFilter actor v) as [cs v1].
  cbn [snd] in *.
  destruct (children_loop (buildNode data dataFilter fuel) cs v1)
    as [[ts v2]|] eqn:Hts; [|done].
  simpl in Hrun. injection Hrun as <- <-.
  apply (children_loop_closed _ IH) in Hts as [Hmono' Hclosed].
  split; [set_solver|].
  intros x Hx y Hy. rewrite node_ids_unfold in Hx. unfold kids in Hx.
  cbn [id children default from_option] in Hx.
  apply elem_of_cons in Hx as [->|Hx].
  - apply Hmono'. by apply Hcov.
  - by apply (Hclosed x).
Qed.

End MeshSpan.

(** X22: the mesh tree spans what the root reaches.  When the root id
    names an actor, a tree is returned and it shows every actor that can
    be reached from the root by a chain of interactions passing the
    filter, each step landing on an actor of the mesh with a non-empty
    id. *)
Theorem buildSystemTree_spans (data : SystemsViewData) (rootId : string)
    (dataFilter : option string) :
  is_Some (findActor data rootId) ->
  exists t, buildSystemTree data rootId dataFilter = MeshTree t
    /\ forall y, rtc (Neighbour data dataFilter) rootId y -> y ∈ node_ids t.
Proof.
  intros [rootActor Hroot].
  pose proof (buildSystemTree_spec data rootId dataFilter) as Hspec.
  rewrite Hroot in Hspec. destruct Hspec as (t & Hrun & Hid & Hv' & _).
  exists t. split; [done|].
  unfold buildSystemTree in Hrun. rewrite Hroot in Hrun.
  destruct (buildNode data dataFilter (S (length (actors data))) rootActor
              {[rootId]}) as [[t0 v']|] eqn:Hbuild; [|done].
  injection Hrun as ->.
  pose proof (buildNode_spec _ _ _ _ _ _ _ Hbuild) as (_ & Hvis & _).
  apply buildNode_closed in Hbuild as [_ Hclosed].
  apply findActor_Some in Hroot as [Hrid _].
  assert (forall y, y ∈ v' -> y ∈ node_ids t) as Hback.
  { intros y Hy. rewrite Hvis in Hy. rewrite node_ids_unfold.
    apply elem_of_cons.
    apply elem_of_union in Hy as [Hy|Hy].
    - apply elem_of_singleton in Hy. left. congruence.
    - right. by apply elem_of_list_to_set in Hy. }
  assert (rootId ∈ node_ids t) as Hstart.
  { rewrite node_ids_unfold. apply elem_of_cons. left. congruence. }
  assert (forall x y, rtc (Neighbour data dataFilter) x y ->
                      x ∈ node_ids t -> y ∈ node_ids t) as Hall.
  { clear -Hclosed Hback. intros x y Hreach.
    induction Hreach as [x|x z y Hstep _ IH]; [done|].
    intros Hx. apply IH, Hback. by apply (Hclosed x). }
  intros y Hreach. by apply (Hall rootId).
Qed.

Lemma buildSystemTree_spans_witness :
  exists t, buildSystemTree meshExample "C" (Some "X") = MeshTree t
    /\ "A" ∈ node_ids t.
Proof.
  destruct (buildSystemTree_spans meshExample "C" (Some "X"))
    as (t & Hrun & Hspan); [by eexists|].
  exists t. split; [exact Hrun|]. apply Hspan.
  assert (forall x, x ∈ actorIds meshExample
                    <-> x ∈ ["A"; "B"; "C"]) as Hactors.
  { intros x. unfold actorIds. by rewrite elem_of_list_to_set. }
  apply (rtc_l _ _ "B").
  - exists (mkInteraction "i2" "B" "C" "sends" "X" None).
    split; [set_solver|]. split; [by intros _|].
    split; [by right|]. split; [|done]. apply Hactors. set_solver.
  - apply rtc_once.
    exists (mkInteraction "i1" "A" "B" "sends" "X" None).
    split; [set_solver|]. split; [by intros _|].
    split; [by right|]. split; [|done]. apply Hactors. set_solver.
Defined.

(** ** Swimlane links and the flow tree *)

Lemma buildTree_shows randomSuffix steps idMap fuel step visited k n k' :
  buildTree randomSuffix steps idMap fuel step visited k = Some (n, k') ->
  shownStepId n = Some (step_id step).
Proof.
  destruct fuel as [|fuel]; [done|]. rewrite buildTree_S.
  destruct (decide (step_id step ∈ visited)); [by intros [= <- _]|].
  cbv zeta.
  assert (forall (r : option (list DisplayNode * nat)),
            ('(cs, k1) ← r;
             Some (mkDisplay (step_id step) (StepData step) cs dt_step None,
                   k1)) = Some (n, k') ->
            shownStepId n = Some (step_id step)) as Hbind.
  { intros [[cs k1]|]; [|done]. by intros [= <- _]. }
  assert ((if negb (JS.truthy_obool (isEndState step)) then
             match findByNumber steps (stepNumber step + 1) with
             | Some next =>
                 '(child, k1) ← buildTree randomSuffix steps idMap fuel next
                                  (visited ∪ {[step_id step]}) k;
                 Some (mkDisplay (step_id step) (StepData step) [child]
                         dt_step None, k1)
             | None =>
                 Some (mkDisplay (step_id step) (StepData step) [] dt_step
                         None, k)
             end
           else Some (mkDisplay (step_id step) (StepData step) [] dt_step
                        None, k)) = Some (n, k') ->
          shownStepId n = Some (step_id step)) as Hchain.
  { destruct (negb _); [|by intros [= <- _]].
    destruct (findByNumber _ _); [|by intros [= <- _]].
    destruct (buildTree _ _ _ _ _ _ _) as [[child k1]|]; [|done].
    by intros [= <- _]. }
  destruct (step_type step); [exact Hchain|].
  destruct (branches step); [apply Hbind|exact Hchain].
Qed.

Lemma branch_loop_shows (idMap : gmap string ProcessStep) self node :
  (forall target k n k',
     self target k = Some (n, k') -> shownStepId n = Some (step_id target)) ->
  forall bs k cs k',
    branch_loop idMap self bs k = Some (cs, k') ->
    omap shownStepId cs
    = (fun l => step_id (link_target l))
        <$> flat_map
              (fun b =>
                 if JS.truthy_ostring (targetStepId b) then
                   match idMap !! default "" (targetStepId b) with
                   | Some target =>
                       [mkLink node target (Some (branch_label b))]
                   | None => []
                   end
                 else [])
              bs.
Proof.
  intros Hself. induction bs as [|b bs IH]; intros k cs k' Hrun.
  - by injection Hrun as <- <-.
  - cbn [branch_loop flat_map] in *. rewrite fmap_app.
    destruct (JS.truthy_ostring (targetStepId b)).
    + destruct (idMap !! default "" (targetStepId b)) as [target|].
      * destruct (self target k) as [[child k1]|] eqn:Hchild; [|done].
        simpl in Hrun.
        destruct (branch_loop idMap self bs k1) as [[more k2]|] eqn:Hmore;
          [|done].
        simpl in Hrun. injection Hrun as <- <-.
        apply Hself in Hchild. apply IH in Hmore.
        cbn [omap list_omap]. unfold shownStepId at 1.
        cbn [setLabel dn_data]. fold (shownStepId child).
        rewrite Hchild. cbn [fmap list_fmap link_target app].
        by rewrite <- Hmore.
      * by apply IH in Hrun.
    + destruct (branch_loop idMap self bs k) as [[more k1]|] eqn:Hmore;
        [|done].
      simpl in Hrun. injection Hrun as <- <-.
      apply IH in Hmore. by cbn [omap list_omap shownStepId missingNode
                                 dn_data fmap list_fmap app].
Qed.

Lemma linksFrom_steps steps node l :
  node ∈ steps -> l ∈ linksFrom steps (buildIdMap steps) node ->
  link_source l = node /\ link_target l ∈ steps.
Proof.
  intros Hnode. unfold linksFrom. intros [Hl|Hl]%elem_of_app.
  - destruct (_ && _); [|by apply elem_of_nil in Hl].
    destruct (findByNumber steps _) as [next|] eqn:Hnext;
      [|by apply elem_of_nil in Hl].
    apply list_elem_of_singleton in Hl as ->.
    split; [done|]. by apply findByNumber_elem in Hnext.
  - destruct (step_type node); [by apply elem_of_nil in Hl|].
    destruct (branches node) as [bs|]; [|by apply elem_of_nil in Hl].
    apply list_elem_of_In, in_flat_map in Hl as (b & _ & Hl).
    apply list_elem_of_In in Hl.
    destruct (JS.truthy_ostring _); [|by apply elem_of_nil in Hl].
    destruct (buildIdMap steps !! _) as [target|] eqn:Htarget;
      [|by apply elem_of_nil in Hl].
    apply list_elem_of_singleton in Hl as ->.
    split; [done|]. by apply buildIdMap_lookup in Htarget as [? _].
Qed.

(** X23: the swimlane chart draws the successor edges of the flow tree,
    with one exception.  Every swimlane link joins two steps of the
    list.  For a step that the flow builder expands (one not already on
    its path), the steps shown by the children of its tree node are, in
    order, the targets of the swimlane links that leave it, provided the
    step is an action or has a branch array.  A decision step with no
    branch array is the exception: the tree chains it to the step
    numbered one more, while the swimlane draws no link from it. *)
Theorem swimlane_links_follow_flow_tree
    (randomSuffix : nat -> string) (steps : list ProcessStep) (fuel : nat)
    (step : ProcessStep) (visited : gset string) (k : nat)
    (n : DisplayNode) (k' : nat) :
  buildTree randomSuffix steps (buildIdMap steps) fuel step visited k
    = Some (n, k') ->
  step_id step ∉ visited ->
  (forall l, l ∈ swimlaneLinks steps ->
             link_source l ∈ steps /\ link_target l ∈ steps)
  /\ (step_type step = action \/ is_Some (branches step) ->
      childStepIds n
      = (fun l => step_id (link_target l))
          <$> linksFrom steps (buildIdMap steps) step)
  /\ (step_type step = decision -> branches step = None ->
      linksFrom steps (buildIdMap steps) step = []
      /\ childStepIds n
         = if JS.truthy_obool (isEndState step) then []
           else match findByNumber steps (stepNumber step + 1) with
                | Some next => [step_id next]
                | None => []
                end).
Proof.
  intros Hrun Hfresh. split.
  { intros l Hl. unfold swimlaneLinks in Hl.
    apply list_elem_of_In, in_flat_map in Hl as (node & Hnode & Hl).
    apply list_elem_of_In in Hnode, Hl.
    destruct (linksFrom_steps steps node l Hnode Hl) as [-> Htarget]. done. }
  destruct fuel as [|fuel]; [done|]. rewrite buildTree_S in Hrun.
  rewrite decide_False in Hrun by done. cbv zeta in Hrun.
  assert ((if negb (JS.truthy_obool (isEndState step)) then
             match findByNumber steps (stepNumber step + 1) with
             | Some next =>
                 '(child, k1) ← buildTree randomSuffix steps
                                  (buildIdMap steps) fuel next
                                  (visited ∪ {[step_id step]}) k;
                 Some (mkDisplay (step_id step) (StepData step) [child]
                         dt_step None, k1)
             | None =>
                 Some (mkDisplay (step_id step) (StepData step) [] dt_step
                         None, k)
             end
           else Some (mkDisplay (step_id step) (StepData step) [] dt_step
                        None, k)) = Some (n, k') ->
          childStepIds n
          = if JS.truthy_obool (isEndState step) then []
            else match findByNumber steps (stepNumber step + 1) with
                 | Some next => [step_id next]
                 | None => []
                 end) as Hchain.
  { destruct (JS.truthy_obool (isEndState step)); cbn [negb];
      [by intros [= <- _]|].
    destruct (findByNumber _ _) as [next|]; [|by intros [= <- _]].
    destruct (buildTree _ _ _ _ _ _ _) as [[child k1]|] eqn:Hchild; [|done].
    intros [= <- _]. apply buildTree_shows in Hchild.
    unfold childStepIds. cbn [dn_children omap list_omap].
    by rewrite Hchild. }
  split.
  - intros Hkind. unfold linksFrom.
    destruct (step_type step) eqn:Hty.
    + rewrite bool_decide_eq_true_2 by done. cbn [andb].
      rewrite app_nil_r. rewrite (Hchain Hrun).
      destruct (JS.truthy_obool (isEndState step)); [done|].
      by destruct (findByNumber _ _).
    + rewrite bool_decide_eq_false_2 by done. cbn [andb app].
      destruct Hkind as [?|[bs Hbs]]; [done|]. rewrite Hbs in *.
      destruct (branch_loop _ _ bs k) as [[cs k1]|] eqn:Hcs; [|done].
      simpl in Hrun. injection Hrun as <- <-.
      unfold childStepIds. cbn [dn_children].
      eapply branch_loop_shows; [|exact Hcs].
      intros target k0 n0 k0'. apply buildTree_shows.
  - intros Hty Hbs. rewrite Hty, Hbs in Hrun. split; [|by apply Hchain].
    unfold linksFrom. rewrite Hty, Hbs.
    by rewrite bool_decide_eq_false_2.
Qed.

Lemma swimlane_links_follow_flow_tree_witness :
  swimlaneLinks bareDecision = []
  /\ exists n k',
       buildTree (fun _ => "x") bareDecision (buildIdMap bareDecision) 3
         (mkStep "q" 1 decision "Ready?" "" "User" None None) ∅ 0
       = Some (n, k')
       /\ childStepIds n = ["r"].
Proof.
  split; [reflexivity|].
  eexists _, _. split; [reflexivity|].
  eapply (swimlane_links_follow_flow_tree (fun _ => "x") bareDecision 3
            (mkStep "q" 1 decision "Ready?" "" "User" None None) ∅ 0);
    [reflexivity|set_solver|reflexivity|reflexivity].
Defined.

(** ** Session import *)

Lemma collapseRecursive_unfold n :
  collapseRecursive n
  = setCollapsed true
      (match children n with
       | Some cs => set_children n (Some (map collapseRecursive cs))
       | None => n
       end).
Proof. destruct n as [? ? ? ? ? ? ? ? ? ? ? ? ? ? ? [cs|]]; reflexivity. Qed.

Lemma nodes_collapseRecursive n :
  nodes (collapseRecursive n) = map collapseRecursive (nodes n).
Proof.
  induction n as [n IH] using MindMapData_tree_ind.
  rewrite (nodes_unfold n), nodes_unfold. cbn [map]. f_equal.
  unfold kids in *. rewrite collapseRecursive_unfold.
  destruct (children n) as [cs|] eqn:Hcs;
    cbn [setCollapsed set_children children default from_option
         Datatypes.id] in *;
    [|by rewrite Hcs].
  clear Hcs. induction IH as [|k ks Hk _ IHks]; [done|].
  cbn [map flat_map]. by rewrite map_app, Hk, IHks.
Qed.

Lemma collapseRecursive_fields n :
  uncollapsedContent (collapseRecursive n) = uncollapsedContent n
  /\ id (collapseRecursive n) = id n
  /\ collapsedFlag (collapseRecursive n) = true.
Proof.
  rewrite collapseRecursive_unfold. by destruct (children n).
Qed.

Lemma handleSearchReveal_history st ids :
  history (handleSearchReveal st ids) = history st
  /\ historyIndex (handleSearchReveal st ids) = historyIndex st.
Proof.
  unfold handleSearchReveal. destruct (mindMap st) as [prev|]; [|done].
  destruct (foldl revealStep (deepClone prev, false) ids) as [clone [|]];
    done.
Qed.

(** X24: importing a session shows every node but the root collapsed and
    starts a fresh stack.  The imported document keeps, in pre-order, all
    that the nodes of the file hold apart from the collapsed flag; its
    root is expanded and every other node is collapsed; the stack holds
    this one snapshot, at which the index points, nothing is marked
    unsaved, and undo and redo change nothing.  A search reveal of one
    node's id afterwards leaves the stack as it is. *)
Theorem importSession_collapses_below_root (st : AppState)
    (jsonMindMap : MindMapData) (jsonSettings : option bool) (now : Z) :
  exists doc,
    mindMap (importSession st jsonMindMap jsonSettings now) = Some doc
    /\ history (importSession st jsonMindMap jsonSettings now)
       = [mkEntry doc "Imported Session" now]
    /\ historyIndex (importSession st jsonMindMap jsonSettings now) = 0%Z
    /\ Synced (importSession st jsonMindMap jsonSettings now)
    /\ unsavedChanges (importSession st jsonMindMap jsonSettings now) = false
    /\ uncollapsedContent <$> nodes doc
       = uncollapsedContent <$> nodes jsonMindMap
    /\ collapseView doc
       = (id jsonMindMap, false)
           :: ((fun n => (id n, true)) <$> flat_map nodes (kids jsonMindMap))
    /\ (undo (importSession st jsonMindMap jsonSettings now)).1
       = importSession st jsonMindMap jsonSettings now
    /\ (redo (importSession st jsonMindMap jsonSettings now)).1
       = importSession st jsonMindMap jsonSettings now
    /\ (forall ids,
          history (handleSearchReveal
                     (importSession st jsonMindMap jsonSettings now) ids)
          = [mkEntry doc "Imported Session" now]).
Proof.
  exists (setCollapsed false (collapseRecursive jsonMindMap)).
  assert (nodes (setCollapsed false (collapseRecursive jsonMindMap))
          = setCollapsed false (collapseRecursive jsonMindMap)
              :: map collapseRecursive (flat_map nodes (kids jsonMindMap)))
    as Hnodes.
  { rewrite nodes_unfold. f_equal.
    pose proof (nodes_collapseRecursive jsonMindMap) as Hall.
    rewrite (nodes_unfold (collapseRecursive jsonMindMap)),
      (nodes_unfold jsonMindMap) in Hall.
    cbn [map] in Hall. apply (f_equal (drop 1)) in Hall.
    cbn [drop] in Hall. unfold drop in Hall. rewrite <- Hall.
    by destruct (collapseRecursive jsonMindMap)
      as [? ? ? ? ? ? ? ? ? ? ? ? ? ? ? [cs|]]. }
  assert (forall l : list MindMapData,
            uncollapsedContent <$> map collapseRecursive l
            = uncollapsedContent <$> l) as Hcontent.
  { induction l as [|n l IH]; [done|]. cbn [map]. rewrite !fmap_cons, IH.
    by rewrite (proj1 (collapseRecursive_fields n)). }
  assert (forall l : list MindMapData,
            (fun n => (id n, collapsedFlag n)) <$> map collapseRecursive l
            = (fun n => (id n, true)) <$> l) as Hview.
  { induction l as [|n l IH]; [done|]. cbn [map]. rewrite !fmap_cons, IH.
    destruct (collapseRecursive_fields n) as (_ & -> & ->). done. }
  split; [done|]. split; [done|]. split; [done|]. split; [done|].
  split; [done|]. split; [|split; [|split; [|split]]].
  - rewrite Hnodes, (nodes_unfold jsonMindMap), !fmap_cons, Hcontent.
    f_equal.
    transitivity (uncollapsedContent (collapseRecursive jsonMindMap));
      [by destruct (collapseRecursive jsonMindMap)|].
    apply collapseRecursive_fields.
  - unfold collapseView. rewrite Hnodes, fmap_cons, Hview. f_equal.
    cbn [setCollapsed id collapsedFlag collapsed JS.truthy_obool].
    f_equal. apply collapseRecursive_fields.
  - done.
  - done.
  - intros ids.
    by destruct (handleSearchReveal_history
                   (importSession st jsonMindMap jsonSettings now) ids).
Qed.

(** ** Toggling a node's visibility *)

Lemma objectAssign_toggleCollapsed n :
  objectAssign n (toggleCollapsed n)
  = setCollapsed (negb (JS.truthy_obool (collapsed n))) n.
Proof.
  unfold objectAssign, toggleCollapsed, setCollapsed. cbn.
  by rewrite !assignProp_spread.
Qed.

Lemma toggleFirst_segment x (A : list (string * bool)) b R :
  Forall (fun e => e.1 <> x) A ->
  toggleFirst x (A ++ (x, b) :: R) = A ++ (x, negb b) :: R.
Proof.
  induction 1 as [|e A He _ IH]; cbn [app toggleFirst fst snd].
  - by rewrite decide_True.
  - by rewrite decide_False, IH.
Qed.

Lemma toggleFirst_twice x L : toggleFirst x (toggleFirst x L) = L.
Proof.
  induction L as [|[y b] L IH]; [done|]. cbn [toggleFirst fst snd].
  destruct (decide (y = x)) as [Heq|Hne]; cbn [toggleFirst fst snd].
  - rewrite decide_True by done. by rewrite negb_involutive.
  - rewrite decide_False by done. by rewrite IH.
Qed.

Lemma toggleFirst_ids x L : (toggleFirst x L).*1 = L.*1.
Proof.
  induction L as [|e L IH]; [done|]. cbn [toggleFirst].
  destruct (decide (e.1 = x)); [done|]. by rewrite !fmap_cons, IH.
Qed.

Lemma collapseView_ids doc : (collapseView doc).*1 = node_ids doc.
Proof.
  unfold collapseView, node_ids. rewrite <- list_fmap_compose.
  by apply list_fmap_ext.
Qed.

Lemma expandAction_run st T node now :
  mindMap st = Some T -> id node ∈ node_ids T -> kids node <> [] ->
  exists doc,
    mindMap (expandAction st node now).1 = Some doc
    /\ uncollapsedContent <$> nodes doc = uncollapsedContent <$> nodes T
    /\ collapseView doc = toggleFirst (id node) (collapseView T)
    /\ history (expandAction st node now).1
       = evictOldest (JS.slice0 (history st) (historyIndex st + 1)
                        ++ [mkEntry doc
                              ("Toggled visibility: " +:+ label node) now]).
Proof.
  intros Hmap Hin Hkids.
  exists (assignAt (fun n => objectAssign n (toggleCollapsed n)) T (id node)).
  unfold expandAction. rewrite Hmap.
  assert ((0 <? length (kids node))%nat = true) as ->.
  { apply Nat.ltb_lt. destruct (kids node); [done|simpl; lia]. }
  unfold updateNodeInTree, deepClone, app_bind. rewrite Hmap.
  destruct (findNodeAndPath_present T (id node) [] Hin) as [target ->].
  cbn [fst snd commitToHistory andb mindMap history].
  split; [done|]. split; [|split; [|done]].
  - destruct (assignAt_segment uncollapsedContent (fun n cs => eq_refl)
                (fun n => objectAssign n (toggleCollapsed n)) (id node) T Hin)
      as (victim & A & B & Hv & Hold & Hnew).
    rewrite Hnew, Hold. do 2 f_equal.
    rewrite objectAssign_toggleCollapsed.
    by rewrite (nodes_unfold victim), (nodes_unfold (setCollapsed _ victim)).
  - destruct (assignAt_segment_nodes
                (fun n => (id n, collapsedFlag n)) (fun n cs => eq_refl)
                (fun n => objectAssign n (toggleCollapsed n)) (id node) T Hin)
      as (victim & NA & NB & Hv & Hold & Hfresh & Hnew).
    unfold collapseView. rewrite Hnew, Hold, !fmap_app.
    rewrite objectAssign_toggleCollapsed.
    rewrite (nodes_unfold victim), (nodes_unfold (setCollapsed _ victim)).
    rewrite !fmap_cons.
    assert (id victim = id node) as Hid.
    { unfold firstWithId in Hv. apply find_some in Hv as [_ Hv].
      by apply bool_decide_eq_true in Hv. }
    cbn [id collapsedFlag collapsed JS.truthy_obool setCollapsed kids
         children].
    rewrite Hid. cbn [app].
    rewrite toggleFirst_segment; [done|].
    apply Forall_fmap. eapply Forall_impl; [exact Hfresh|]. done.
Qed.

(** X25: the expand action on a node with children flips the collapsed
    flag of the first node that carries the clicked id and commits the
    result as a new snapshot: every node keeps all it holds apart from
    that flag, no other node's flag changes, and the snapshot is the last
    entry of the stack, described as "Toggled visibility: " followed by
    the label.  A second toggle restores the flags of the whole document
    and commits once more. *)
Theorem expandAction_toggles (st : AppState) (T node : MindMapData)
    (now now' : Z) :
  mindMap st = Some T -> id node ∈ node_ids T -> kids node <> [] ->
  exists doc doc',
    mindMap (expandAction st node now).1 = Some doc
    /\ uncollapsedContent <$> nodes doc = uncollapsedContent <$> nodes T
    /\ collapseView doc = toggleFirst (id node) (collapseView T)
    /\ last (history (expandAction st node now).1)
       = Some (mkEntry doc ("Toggled visibility: " +:+ label node) now)
    /\ mindMap (expandAction (expandAction st node now).1 node now').1
       = Some doc'
    /\ collapseView doc' = collapseView T
    /\ uncollapsedContent <$> nodes doc' = uncollapsedContent <$> nodes T
    /\ last (history (expandAction (expandAction st node now).1 node now').1)
       = Some (mkEntry doc' ("Toggled visibility: " +:+ label node) now').
Proof.
  intros Hmap Hin Hkids.
  destruct (expandAction_run st T node now Hmap Hin Hkids)
    as (doc & Hdoc & Hcontent & Hview & Hhist).
  assert (id node ∈ node_ids doc) as Hin'.
  { by rewrite <- collapseView_ids, Hview, toggleFirst_ids, collapseView_ids. }
  destruct (expandAction_run (expandAction st node now).1 doc node now'
              Hdoc Hin' Hkids)
    as (doc' & Hdoc' & Hcontent' & Hview' & Hhist').
  exists doc, doc'. split; [done|]. split; [done|]. split; [done|].
  split; [rewrite Hhist; apply evictOldest_last|].
  split; [done|]. split; [by rewrite Hview', Hview, toggleFirst_twice|].
  split; [by rewrite Hcontent'|].
  rewrite Hhist'. apply evictOldest_last.
Qed.

Lemma expandAction_toggles_witness :
  let st := mkApp (Some sampleTree) [mkEntry sampleTree "start" 0] 0
              false false false in
  let a := bareNode "a" "A" (Some [bareNode "a1" "A1" None]) in
  exists doc doc',
    mindMap (expandAction st a 1).1 = Some doc
    /\ collapseView doc
       = [("root", false); ("a", true); ("a1", false); ("a2", false);
          ("b", false)]
    /\ mindMap (expandAction (expandAction st a 1).1 a 2).1 = Some doc'
    /\ collapseView doc' = collapseView sampleTree.
Proof.
  intros st a.
  destruct (expandAction_toggles st sampleTree a 1 2 eq_refl)
    as (doc & doc' & Hdoc & _ & Hview & _ & Hdoc' & Hview' & _).
  - apply (bool_decide_unpack _). vm_compute. exact I.
  - discriminate.
  - exists doc, doc'. split; [exact Hdoc|]. split; [exact Hview|].
    split; [exact Hdoc'|exact Hview'].
Defined.

(** ** Undo and redo among all writers of the state *)

Lemma withoutCollapsed_unfold n :
  withoutCollapsed n
  = mkNode (id n) (label n) (description n) (nodeType n) (nature n)
      (source n) (cachedDetails n) (cachedProcess n) (detailsLocked n)
      (processLocked n) None (watchedNodeIds n) (isFlaggedForReview n)
      (flaggedSourceIds n) (linkLabel n)
      (match children n with
       | Some cs => Some (map withoutCollapsed cs)
       | None => None
       end).
Proof. destruct n as [? ? ? ? ? ? ? ? ? ? ? ? ? ? ? [cs|]]; reflexivity. Qed.

Lemma withoutCollapsed_setCollapsed b n :
  withoutCollapsed (setCollapsed b n) = withoutCollapsed n.
Proof. by rewrite !withoutCollapsed_unfold. Qed.

Lemma withoutCollapsed_assign_loop b t (cs : list MindMapData) :
  Forall (fun c => withoutCollapsed (assignAt (setCollapsed b) c t)
                   = withoutCollapsed c) cs ->
  map withoutCollapsed
    (assign_loop (fun child => assignAt (setCollapsed b) child t)
       (setCollapsed b) t cs)
  = map withoutCollapsed cs.
Proof.
  induction 1 as [|c cs Hc _ IH]; [done|]. cbn [assign_loop].
  destruct (decide (id c = t)).
  - cbn [map]. by rewrite withoutCollapsed_setCollapsed.
  - destruct (resolves c t); cbn [map]; [by rewrite Hc|by rewrite IH].
Qed.

Lemma withoutCollapsed_assignAt b t :
  forall root,
    withoutCollapsed (assignAt (setCollapsed b) root t)
    = withoutCollapsed root.
Proof.
  induction root as [root IH] using MindMapData_tree_ind.
  rewrite assignAt_unfold.
  destruct (decide (id root = t)); [apply withoutCollapsed_setCollapsed|].
  unfold kids in IH. destruct (children root) as [cs|] eqn:Hcs; [|done].
  cbn [default from_option Datatypes.id] in IH.
  rewrite (withoutCollapsed_unfold root), withoutCollapsed_unfold, Hcs.
  cbn [set_children id label description nodeType nature source
       cachedDetails cachedProcess detailsLocked processLocked
       watchedNodeIds isFlaggedForReview flaggedSourceIds linkLabel children].
  by rewrite withoutCollapsed_assign_loop.
Qed.

Lemma expandFirst_flags x L :
  Forall2 (fun s t : string * bool => t.2 = true -> s.2 = true)
    L (expandFirst x L).
Proof.
  induction L as [|e L IH]; [constructor|]. cbn [expandFirst].
  destruct (decide (e.1 = x)).
  - constructor; [done|]. apply Forall2_same_length_lookup_2; [done|].
    intros i a b Ha Hb. congruence.
  - by constructor.
Qed.

Lemma RevealedFrom_refl T : RevealedFrom T T.
Proof.
  split; [done|]. apply Forall2_same_length_lookup_2; [done|].
  intros i a b Ha Hb. congruence.
Qed.

Lemma RevealedFrom_trans S T U :
  RevealedFrom S T -> RevealedFrom T U -> RevealedFrom S U.
Proof.
  intros [Hst Hflags] [Htu Hflags']. split; [congruence|].
  revert Hflags'. generalize (collapseView U).
  induction Hflags as [|s t L1 L2 Hst' _ IH]; intros L3 H3.
  - by apply Forall2_nil_inv_l in H3 as ->.
  - apply Forall2_cons_inv_l in H3 as (u & L3' & Htu' & H3 & ->).
    constructor; [auto|by apply IH].
Qed.

Lemma revealStep_revealed doc ch x :
  RevealedFrom doc (revealStep (doc, ch) x).1.
Proof.
  split.
  - unfold revealStep. cbn [fst].
    destruct (findNodeAndPath doc x []) as [target|]; [|done].
    destruct (JS.truthy_obool _); [|done]. cbn [fst].
    by rewrite withoutCollapsed_assignAt.
  - rewrite (proj1 (revealStep_views doc ch x)). apply expandFirst_flags.
Qed.

Lemma foldl_revealStep_revealed ids :
  forall doc ch, RevealedFrom doc (foldl revealStep (doc, ch) ids).1.
Proof.
  induction ids as [|x ids IH]; intros doc ch; [apply RevealedFrom_refl|].
  cbn [foldl]. pose proof (revealStep_revealed doc ch x) as Hstep.
  destruct (revealStep (doc, ch) x) as [doc1 ch1]. cbn [fst] in Hstep.
  eapply RevealedFrom_trans; [exact Hstep|apply IH].
Qed.

Lemma handleSearchReveal_revealed st T ids :
  mindMap st = Some T ->
  exists T', mindMap (handleSearchReveal st ids) = Some T'
             /\ RevealedFrom T T'.
Proof.
  intros Hmap. unfold handleSearchReveal, deepClone. rewrite Hmap.
  pose proof (foldl_revealStep_revealed ids T false) as Hrun.
  destruct (foldl revealStep (T, false) ids) as [clone [|]]; cbn [fst] in Hrun.
  - by exists clone.
  - exists T. split; [done|apply RevealedFrom_refl].
Qed.

Lemma Synced_Anchored st : Synced st -> Anchored st.
Proof.
  unfold Synced, Anchored. intros ->.
  destruct (JS.at_index _ _); [apply RevealedFrom_refl|done].
Qed.

Lemma restore_step st index :
  restoreFromHistory st index = (st, [])
  \/ exists e, JS.at_index (history st) index = Some e
       /\ (0 <= index < Z.of_nat (length (history st)))%Z
       /\ (restoreFromHistory st index).1
          = mkApp (Some (entry_data e)) (history st) index
              (unsavedChanges st) (autoSave st) (isDevMode st).
Proof.
  unfold restoreFromHistory.
  destruct (_ && _) eqn:Hr; [|by left].
  destruct (JS.at_index (history st) index) as [e|]; [|by left].
  right. exists e. split; [done|]. split; [|done].
  apply andb_true_iff in Hr as [H0%Z.leb_le H1%Z.ltb_lt]. lia.
Qed.

Lemma restore_anchored st index :
  Anchored st -> Anchored (restoreFromHistory st index).1.
Proof.
  intros Hst.
  destruct (restore_step st index) as [->|(e & He & _ & ->)]; [done|].
  unfold Anchored. cbn [mindMap history historyIndex]. rewrite He.
  apply RevealedFrom_refl.
Qed.

Lemma historyStep_anchored st st' :
  HistoryStep st st' -> Anchored st -> Anchored st'.
Proof.
  intros Hstep Hst. destruct Hstep.
  - apply Synced_Anchored, commit_synced.
  - by apply restore_anchored.
  - unfold undo. destruct (_ <=? _)%Z; [done|by apply restore_anchored].
  - unfold redo. destruct (_ <=? _)%Z; [done|by apply restore_anchored].
  - apply RevealedFrom_refl.
  - done.
Qed.

Lemma historyStep_index st st' :
  HistoryStep st st' ->
  (-1 <= historyIndex st <= Z.of_nat (length (history st)) - 1)%Z ->
  (-1 <= historyIndex st' <= Z.of_nat (length (history st')) - 1)%Z.
Proof.
  intros Hstep Hst. destruct Hstep.
  - rewrite commit_index. lia.
  - by apply restore_index.
  - unfold undo. destruct (_ <=? _)%Z; [done|by apply restore_index].
  - unfold redo. destruct (_ <=? _)%Z; [done|by apply restore_index].
  - simpl. lia.
  - simpl. lia.
Qed.

Lemma appStep_index st st' :
  AppStep st st' ->
  (-1 <= historyIndex st <= Z.of_nat (length (history st)) - 1)%Z ->
  (-1 <= historyIndex st' <= Z.of_nat (length (history st')) - 1)%Z.
Proof.
  intros Hstep Hst. destruct Hstep as [st st' Hstep|st ids| | | | |].
  - by eapply historyStep_index.
  - by destruct (handleSearchReveal_history st ids) as [-> ->].
  - done.
  - simpl. lia.
  - simpl. lia.
  - done.
  - done.
Qed.

Lemma appStep_anchored st st' :
  AppStep st st' -> Anchored st -> Anchored st'.
Proof.
  intros Hstep Hst. destruct Hstep as [st st' Hstep|st ids| | | | |].
  - by eapply historyStep_anchored.
  - unfold Anchored in *.
    destruct (handleSearchReveal_history st ids) as [-> ->].
    destruct (mindMap st) as [T|] eqn:Hmap.
    + destruct (handleSearchReveal_revealed st T ids Hmap)
        as (T' & -> & Hrev).
      destruct (JS.at_index _ _) as [e|]; [|done].
      by eapply RevealedFrom_trans.
    + unfold handleSearchReveal. by rewrite Hmap, Hmap.
  - done.
  - apply RevealedFrom_refl.
  - apply RevealedFrom_refl.
  - done.
  - done.
Qed.

Lemma appReachable_inv st :
  AppReachable st ->
  (-1 <= historyIndex st <= Z.of_nat (length (history st)) - 1)%Z
  /\ Anchored st.
Proof.
  induction 1 as [|st st' _ [IHidx IHanch] Hstep]; [by split|].
  split; [by eapply appStep_index|by eapply appStep_anchored].
Qed.

Lemma reachable_app st : Reachable st -> AppReachable st.
Proof.
  induction 1 as [|st st' _ IH Hstep]; [constructor|].
  eapply app_step; [exact IH|by apply app_history].
Qed.

Lemma atSnapshot_synced st : Synced st -> atSnapshot st = st.
Proof. unfold Synced, atSnapshot. intros <-. by destruct st. Qed.

(** X8: an undo directly after a commit brings back the snapshot at
    which the index stood before the commit, and a redo after that undo
    brings back the committed document; neither changes the stack that
    the commit left.  The snapshot brought back is the document that was
    live before the commit apart from collapsed flags: it is that
    document itself unless a search reveal has expanded nodes since the
    last commit or restore, and then it is the document with those nodes
    collapsed again.  This holds in every state with a live document
    that the handlers can produce, search reveal, save, import and the
    settings included, also when the commit evicted the oldest
    snapshot. *)
Theorem undo_after_commit_restores (st : AppState) (newData : MindMapData)
    (description : string) (now : Z) :
  AppReachable st -> (0 <= historyIndex st)%Z ->
  let st1 := (commitToHistory st newData description now).1 in
  let st2 := (undo st1).1 in
  let st3 := (redo st2).1 in
  mindMap st2 = entry_data <$> JS.at_index (history st) (historyIndex st)
  /\ (exists S T, mindMap st2 = Some S /\ mindMap st = Some T
                  /\ RevealedFrom S T)
  /\ (Synced st -> mindMap st2 = mindMap st)
  /\ history st2 = history st1
  /\ mindMap st3 = Some newData
  /\ history st3 = history st1
  /\ historyIndex st3 = historyIndex st1.
Proof.
  intros Hreach Hidx. cbv zeta.
  destruct (appReachable_inv st Hreach) as [Hrange Hanch].
  unfold Anchored in Hanch. unfold Synced.
  rewrite at_index_nat in * by done.
  destruct (lookup_lt_is_Some_2 (history st) (Z.to_nat (historyIndex st)))
    as [x Hx]; [lia|].
  rewrite Hx in *. cbn [fmap option_fmap option_map].
  destruct (mindMap st) as [T|] eqn:Hmap; [|done].
  assert (exists m, history (commitToHistory st newData description now).1
                    = m ++ [x; mkEntry newData description now])
    as [m Hm].
  { rewrite commit_history, slice0_nonneg by lia.
    replace (Z.to_nat (historyIndex st + 1))
      with (S (Z.to_nat (historyIndex st))) by lia.
    rewrite (take_S_r _ _ x Hx), <- (assoc_L (++)).
    apply evictOldest_two_last. }
  assert (historyIndex (commitToHistory st newData description now).1
          = Z.of_nat (S (length m))) as Hidx1.
  { rewrite commit_index, Hm, length_app. simpl. lia. }
  generalize dependent (commitToHistory st newData description now).1.
  intros st1 Hm Hidx1.
  assert ((undo st1).1
          = mkApp (Some (entry_data x)) (history st1)
              (Z.of_nat (length m)) (unsavedChanges st1) (autoSave st1)
              (isDevMode st1)) as Hst2.
  { apply undo_at; [done|].
    rewrite Hm, lookup_app_r by lia. by rewrite Nat.sub_diag. }
  rewrite Hst2.
  rewrite (redo_at _ (length m) (mkEntry newData description now));
    [|done|].
  - cbn [mindMap history historyIndex entry_data].
    split; [done|]. split; [by exists (entry_data x), T|].
    split; [by intros ->|]. by rewrite Hidx1.
  - cbn [history]. rewrite Hm, lookup_app_r by lia.
    by replace (S (length m) - length m)%nat with 1%nat by lia.
Qed.

Lemma undo_after_commit_restores_witness :
  let st2 :=
    (undo (commitToHistory revealedSession (bareNode "new" "doc" None)
             "edit" 1).1).1 in
  mindMap st2
  = entry_data <$> JS.at_index (history revealedSession)
                     (historyIndex revealedSession)
  /\ (collapseView <$> mindMap st2)
     = Some [("root", false); ("a", true); ("a1", true); ("a2", true);
             ("b", true)]
  /\ (collapseView <$> mindMap revealedSession)
     = Some [("root", false); ("a", false); ("a1", true); ("a2", true);
             ("b", true)].
Proof.
  intros st2. split; [|split; reflexivity].
  refine (proj1 (undo_after_commit_restores _ _ _ _ _ _)).
  - unfold revealedSession.
    eapply app_step; [eapply app_step; [apply app_init|]|].
    + apply (app_import initialState sampleTree None 0).
    + apply app_reveal.
  - vm_compute. discriminate.
Defined.

(** X9: undo and redo are inverse to each other away from the ends of
    the stack, up to what search reveal has expanded, and do nothing at
    the ends.  In any state the handlers can produce, with an index
    above 0, undo followed by redo gives the state with the snapshot at
    the index as its live document; with an index below the last
    position, redo followed by undo gives the same.  That is the state
    itself when the live document is the snapshot at the index; in
    general the live document is that snapshot apart from nodes that a
    search reveal has expanded.  Undo at index 0 or below, and redo at
    the last position, change nothing and log nothing. *)
Theorem undo_redo_inverse (st : AppState) :
  AppReachable st ->
  ((0 < historyIndex st)%Z -> (redo (undo st).1).1 = atSnapshot st)
  /\ ((-1 < historyIndex st < Z.of_nat (length (history st)) - 1)%Z ->
      (undo (redo st).1).1 = atSnapshot st)
  /\ (Synced st -> atSnapshot st = st)
  /\ Anchored st
  /\ ((historyIndex st <= 0)%Z -> undo st = (st, []))
  /\ ((Z.of_nat (length (history st)) - 1 <= historyIndex st)%Z ->
      redo st = (st, [])).
Proof.
  intros Hreach.
  destruct (appReachable_inv st Hreach) as [Hrange Hanch].
  split; [|split; [|split; [|split; [|split]]]].
  - intros Hpos. unfold atSnapshot. rewrite at_index_nat by lia.
    set (j := Z.to_nat (historyIndex st - 1)).
    assert (historyIndex st = Z.of_nat (S j)) as Hidx by lia.
    rewrite Hidx at 1. rewrite Nat2Z.id.
    destruct (lookup_lt_is_Some_2 (history st) j) as [x Hx]; [lia|].
    destruct (lookup_lt_is_Some_2 (history st) (S j)) as [y Hy]; [lia|].
    rewrite Hy. simpl.
    rewrite (undo_at st j x Hidx Hx).
    rewrite (redo_at _ j y); [|done|done].
    cbn [history unsavedChanges autoSave isDevMode]. by rewrite <- Hidx.
  - intros Hmid. unfold atSnapshot. rewrite at_index_nat by lia.
    set (j := Z.to_nat (historyIndex st)).
    assert (historyIndex st = Z.of_nat j) as Hidx by lia.
    destruct (lookup_lt_is_Some_2 (history st) j) as [x Hx]; [lia|].
    destruct (lookup_lt_is_Some_2 (history st) (S j)) as [y Hy]; [lia|].
    rewrite Hx. simpl.
    rewrite (redo_at st j y Hidx Hy).
    rewrite (undo_at _ j x); [|done|done].
    cbn [history unsavedChanges autoSave isDevMode]. by rewrite <- Hidx.
  - apply atSnapshot_synced.
  - done.
  - intros Hlow. unfold undo.
    by destruct (Z.leb_spec (historyIndex st) 0); [|lia].
  - intros Hhigh. unfold redo.
    by destruct (Z.leb_spec (Z.of_nat (length (history st)) - 1)
                   (historyIndex st)); [|lia].
Qed.

Lemma undo_redo_inverse_witness :
  (redo (undo (commitAll initialState elevenCommits)).1).1
  = atSnapshot (commitAll initialState elevenCommits)
  /\ atSnapshot (commitAll initialState elevenCommits)
     = commitAll initialState elevenCommits.
Proof.
  split; [|reflexivity].
  refine (proj1 (undo_redo_inverse _ _) _).
  - apply reachable_app, commitAll_reachable, reach_init.
  - vm_compute. reflexivity.
Defined.
